(** * PowerSplit (openconcept/components/splitter.py)

    A shallow embedding of the [PowerSplit] explicit component and of the
    part of numpy it relies on, followed by the properties of its
    [compute] (evaluate) and [compute_partials] (linearize) methods.

    The component is written over an arithmetic interface [Arith]; two
    instances are given.  [F64_arith] interprets the numpy scalars as
    IEEE-754 binary64 values (Python floats), which is what the program
    computes with.  [R_arith] interprets them as real numbers: this is
    the arithmetic of the statements that say so, about exact sums,
    derivatives, bounds and symmetries.  What is said of the values the
    program returns without that proviso is proved for any arithmetic,
    and so holds bit for bit in binary64. *)

From Stdlib Require Import Ascii ZArith QArith Qabs Reals Lra SpecFloat.
From stdpp Require Import base option list gmap strings.

(** ** Arithmetic *)

Class Arith (num : Type) := {
  of_Z : Z → num;                 (* a Python int literal, as a float *)
  fadd : num → num → num;
  fsub : num → num → num;
  fmul : num → num → num;
  fdiv : num → num → num;
  fneg : num → num;
  flt : num → num → bool;         (* x < y *)
  fge : num → num → bool;         (* x >= y *)
}.

Definition fzero {num : Type} `{!Arith num} : num := of_Z 0.
Definition fone {num : Type} `{!Arith num} : num := of_Z 1.

(** Real numbers. *)
Definition Rltb (x y : R) : bool := if Rlt_dec x y then true else false.
Definition Rgeb (x y : R) : bool := if Rge_dec x y then true else false.

#[export] Instance R_arith : Arith R := {|
  of_Z := IZR;
  fadd := Rplus; fsub := Rminus; fmul := Rmult; fdiv := Rdiv;
  fneg := Ropp;
  flt := Rltb; fge := Rgeb;
|}.

(** IEEE-754 binary64 (no NaN payloads), rounding to nearest even. *)
Definition f64 : Type := spec_float.
Definition prec64 : Z := 53.
Definition emax64 : Z := 1024.

#[export] Instance F64_arith : Arith f64 := {|
  of_Z z := binary_normalize prec64 emax64 z 0 false;
  fadd := SFadd prec64 emax64; fsub := SFsub prec64 emax64;
  fmul := SFmul prec64 emax64; fdiv := SFdiv prec64 emax64;
  fneg := SFopp;
  flt := SFltb;
  fge x y := SFleb y x;
|}.

(** The exact rational value of a finite binary64 number. *)
Definition f64_to_Q (x : f64) : option Q :=
  match x with
  | S754_zero _ => Some 0%Q
  | S754_finite s m e =>
      let a := (if s then Zneg m else Zpos m) in
      Some (match e with
            | Z0 => inject_Z a
            | Zpos k => inject_Z (a * 2 ^ Zpos k)
            | Zneg k => Qmake a (2 ^ k)
            end)
  | _ => None
  end.

(** [approx x q tol]: the binary64 number [x] is finite and lies within
    [tol] of the rational [q]. *)
Definition approx (x : f64) (q tol : Q) : bool :=
  match f64_to_Q x with
  | Some v => Qle_bool (Qabs (v - q)%Q) tol
  | None => false
  end.

(** The comparisons of an arithmetic, as far as the component relies on
    them: [x < y] excludes [x >= y], and [x == y] gives [x >= y].  Both
    hold over the reals and in binary64, where a NaN compares false with
    everything. *)
Definition Reqb (x y : R) : bool := if Req_dec_T x y then true else false.

Class Comparisons (num : Type) `{!Arith num} := {
  feq : num → num → bool;         (* x == y *)
  flt_not_fge x y : flt x y = true → fge x y = false;
  feq_fge x y : feq x y = true → fge x y = true;
}.

(** ** Python exceptions *)

Inductive exn :=
  | ValueError (msg : string)
  | KeyError (key : string)
  | IndexError.

Inductive result (A : Type) :=
  | Ok (a : A)
  | Raise (e : exn).
Arguments Ok {A} a.
Arguments Raise {A} e.

#[export] Instance result_ret : MRet result := λ A a, Ok a.
#[export] Instance result_bind : MBind result := λ A B f m,
  match m with Ok a => f a | Raise e => Raise e end.
#[export] Instance result_fmap : FMap result := λ A B f m,
  match m with Ok a => Ok (f a) | Raise e => Raise e end.

(** ** One-dimensional numpy arrays *)

Section numpy.
Context {num : Type} `{!Arith num}.

Definition np_zeros (n : nat) : list num := replicate n fzero.
Definition np_ones (n : nat) : list num := replicate n fone.

(** A binary operation on two arrays, with numpy's broadcasting rule
    for shapes [(n,)] and [(m,)]: equal lengths, or one of them 1. *)
Definition broadcast2 {A B C} (f : A → B → C)
    (a : list A) (b : list B) : result (list C) :=
  if decide (length a = length b) then Ok (zip_with f a b)
  else match a, b with
       | [x], _ => Ok (f x <$> b)
       | _, [y] => Ok ((λ x, f x y) <$> a)
       | _, _ => Raise (ValueError "operands could not be broadcast together")
       end.

Definition np_mul := broadcast2 fmul.
Definition np_sub := broadcast2 fsub.
Definition np_div := broadcast2 fdiv.
Definition np_lt := broadcast2 flt.
Definition np_ge := broadcast2 fge.

(** An array and a Python scalar. *)
Definition mul_s (a : list num) (s : num) : list num := (λ x, fmul x s) <$> a.
Definition s_mul (s : num) (a : list num) : list num := (λ x, fmul s x) <$> a.
Definition add_s (a : list num) (s : num) : list num := (λ x, fadd x s) <$> a.
Definition s_sub (s : num) (a : list num) : list num := (λ x, fsub s x) <$> a.
Definition s_div (s : num) (a : list num) : list num := (λ x, fdiv s x) <$> a.
Definition np_neg (a : list num) : list num := fneg <$> a.
(** [a ** 2]: numpy squares the elements. *)
Definition np_square (a : list num) : list num := (λ x, fmul x x) <$> a.

(** [np.where(mask)]: the indices at which [mask] holds, in order. *)
Fixpoint where_from (k : nat) (mask : list bool) : list nat :=
  match mask with
  | [] => []
  | b :: m => if b then k :: where_from (S k) m else where_from (S k) m
  end.
Definition np_where (mask : list bool) : list nat := where_from 0 mask.

(** [a[idx]] for an index array: a fresh array of the selected elements. *)
Fixpoint take_idx (a : list num) (idx : list nat) : result (list num) :=
  match idx with
  | [] => Ok []
  | i :: idx' =>
      match a !! i with
      | Some x => (x ::.) <$> take_idx a idx'
      | None => Raise IndexError
      end
  end.

(** [a[idx] = v] for an index array: the elements of [v] are stored at
    the indices, one after the other. *)
Fixpoint store_at (a : list num) (idx : list nat) (v : list num) : list num :=
  match idx, v with
  | i :: idx', x :: v' => store_at (<[i:=x]> a) idx' v'
  | _, _ => a
  end.

Definition put_idx (a : list num) (idx : list nat) (v : list num)
    : result (list num) :=
  if decide (Forall (λ i, i < length a) idx) then
    if decide (length v = length idx) then Ok (store_at a idx v)
    else match v with
         | [x] => Ok (store_at a idx (replicate (length idx) x))
         | _ => Raise (ValueError "shape mismatch in indexed assignment")
         end
  else Raise IndexError.

(** Two list functions in which the indexed reads and writes are
    described: [select mask a] keeps the elements of [a] at which
    [mask] holds, and [merge mask v a] takes [v] where [mask] holds and
    [a] elsewhere. *)
Fixpoint select {A} (mask : list bool) (a : list A) : list A :=
  match mask, a with
  | b :: m, x :: a' => if b then x :: select m a' else select m a'
  | _, _ => []
  end.

Fixpoint merge {A} (mask : list bool) (v a : list A) : list A :=
  match mask, v, a with
  | b :: m, x :: v', y :: a' => (if b then x else y) :: merge m v' a'
  | _, _, _ => []
  end.
End numpy.

(** ** The component and its declarations *)

(** The options of [initialize]. *)
Record Options (num : Type) := {
  num_nodes : nat;
  rule : string;
  efficiency : num;
  weight_inc : num;
  weight_base : num;
  cost_inc : num;
  cost_base : num;
}.
Arguments num_nodes {num} _.
Arguments rule {num} _.
Arguments efficiency {num} _.
Arguments weight_inc {num} _.
Arguments weight_base {num} _.
Arguments cost_inc {num} _.
Arguments cost_base {num} _.

(** A keyword argument of the constructor: one of the declared options. *)
Inductive kwarg (num : Type) :=
  | kw_num_nodes (n : nat)
  | kw_rule (r : string)
  | kw_efficiency (x : num)
  | kw_weight_inc (x : num)
  | kw_weight_base (x : num)
  | kw_cost_inc (x : num)
  | kw_cost_base (x : num).
Arguments kw_num_nodes {num} n.
Arguments kw_rule {num} r.
Arguments kw_efficiency {num} x.
Arguments kw_weight_inc {num} x.
Arguments kw_weight_base {num} x.
Arguments kw_cost_inc {num} x.
Arguments kw_cost_base {num} x.

(** What [add_input] and [add_output] record about a variable. *)
Record var_meta (num : Type) := {
  v_shape : nat;
  v_units : option string;
  v_val : num;
}.
Arguments v_shape {num} _.
Arguments v_units {num} _.
Arguments v_val {num} _.

(** What [declare_partials] records about a sub-Jacobian. *)
Record subjac_meta (num : Type) := {
  sj_rows : option (list nat);
  sj_cols : option (list nat);
  sj_val : option (list num);
}.
Arguments sj_rows {num} _.
Arguments sj_cols {num} _.
Arguments sj_val {num} _.

Record system (num : Type) := {
  options : Options num;
  var_inputs : gmap string (var_meta num);
  var_outputs : gmap string (var_meta num);
  subjacs : gmap (string * string) (subjac_meta num);
}.
Arguments options {num} _.
Arguments var_inputs {num} _.
Arguments var_outputs {num} _.
Arguments subjacs {num} _.

Section component.
Context {num : Type} `{!Arith num}.

Definition initialize : Options num := {|
  num_nodes := 1;
  rule := "fraction";
  efficiency := fone;
  weight_inc := fzero;
  weight_base := fzero;
  cost_inc := fzero;
  cost_base := fzero;
|}.

Definition set_option (o : Options num) (kw : kwarg num) : Options num :=
  match kw with
  | kw_num_nodes n =>
      {| num_nodes := n; rule := rule o; efficiency := efficiency o;
         weight_inc := weight_inc o; weight_base := weight_base o;
         cost_inc := cost_inc o; cost_base := cost_base o |}
  | kw_rule r =>
      {| num_nodes := num_nodes o; rule := r; efficiency := efficiency o;
         weight_inc := weight_inc o; weight_base := weight_base o;
         cost_inc := cost_inc o; cost_base := cost_base o |}
  | kw_efficiency x =>
      {| num_nodes := num_nodes o; rule := rule o; efficiency := x;
         weight_inc := weight_inc o; weight_base := weight_base o;
         cost_inc := cost_inc o; cost_base := cost_base o |}
  | kw_weight_inc x =>
      {| num_nodes := num_nodes o; rule := rule o; efficiency := efficiency o;
         weight_inc := x; weight_base := weight_base o;
         cost_inc := cost_inc o; cost_base := cost_base o |}
  | kw_weight_base x =>
      {| num_nodes := num_nodes o; rule := rule o; efficiency := efficiency o;
         weight_inc := weight_inc o; weight_base := x;
         cost_inc := cost_inc o; cost_base := cost_base o |}
  | kw_cost_inc x =>
      {| num_nodes := num_nodes o; rule := rule o; efficiency := efficiency o;
         weight_inc := weight_inc o; weight_base := weight_base o;
         cost_inc := x; cost_base := cost_base o |}
  | kw_cost_base x =>
      {| num_nodes := num_nodes o; rule := rule o; efficiency := efficiency o;
         weight_inc := weight_inc o; weight_base := weight_base o;
         cost_inc := cost_inc o; cost_base := x |}
  end.

(** [PowerSplit(rule=..., efficiency=..., ...)]: [initialize] declares the options with their
    defaults and the keyword arguments overwrite them.  No option is
    declared with a set of admissible values, so nothing is checked
    here and the constructor does not raise. *)
Definition PowerSplit (kwargs : list (kwarg num)) : result (system num) :=
  Ok {| options := foldl set_option initialize kwargs;
        var_inputs := ∅; var_outputs := ∅; subjacs := ∅ |}.

Definition add_input (self : system num) (name : string)
    (val : num) (units : option string) (shape : nat) : system num :=
  {| options := options self;
     var_inputs := <[name := {| v_shape := shape; v_units := units; v_val := val |}]>
                     (var_inputs self);
     var_outputs := var_outputs self;
     subjacs := subjacs self |}.

Definition add_output (self : system num) (name : string)
    (units : option string) (shape : nat) : system num :=
  {| options := options self;
     var_inputs := var_inputs self;
     var_outputs := <[name := {| v_shape := shape; v_units := units; v_val := fone |}]>
                      (var_outputs self);
     subjacs := subjacs self |}.

(** [declare_partials(of, wrt, rows, cols, val)] for lists of names:
    every pair of the two lists is declared. *)
Definition declare_partials (self : system num) (ofs wrts : list string)
    (rows cols : option (list nat)) (val : option (list num)) : system num :=
  {| options := options self;
     var_inputs := var_inputs self;
     var_outputs := var_outputs self;
     subjacs :=
       foldl (λ sj key, <[key := {| sj_rows := rows; sj_cols := cols; sj_val := val |}]> sj)
             (subjacs self)
             (o ← ofs; w ← wrts; [(o, w)]) |}.

Definition range (n : nat) : list nat := seq 0 n.

(** Lines 45-67 of [setup]: the outputs and the partials. *)
Definition setup_outputs (self : system num) : system num :=
  let nn := num_nodes (options self) in
  let rule := rule (options self) in
  let eta := efficiency (options self) in
  let weight_inc := weight_inc (options self) in
  let cost_inc := cost_inc (options self) in
  let self := add_output self "power_out_A" (Some "W") nn in
  let self := add_output self "power_out_B" (Some "W") nn in
  let self := add_output self "heat_out" (Some "W") nn in
  let self := add_output self "component_cost" (Some "USD") 1 in
  let self := add_output self "component_weight" (Some "kg") 1 in
  let self := add_output self "component_sizing_margin" None nn in
  let self :=
    if decide (rule = "fraction") then
      declare_partials self ["power_out_A"; "power_out_B"]
        ["power_in"; "power_split_fraction"]
        (Some (range nn)) (Some (range nn)) None
    else if decide (rule = "fixed") then
      declare_partials self ["power_out_A"; "power_out_B"]
        ["power_in"; "power_split_amount"]
        (Some (range nn)) (Some (range nn)) None
    else self in
  let self := declare_partials self ["heat_out"] ["power_in"]
                (Some (range nn)) (Some (range nn))
                (Some (s_mul (fsub fone eta) (np_ones nn))) in
  let self := declare_partials self ["component_cost"] ["power_rating"]
                None None (Some [cost_inc]) in
  let self := declare_partials self ["component_weight"] ["power_rating"]
                None None (Some [weight_inc]) in
  let self := declare_partials self ["component_sizing_margin"] ["power_in"]
                (Some (range nn)) (Some (range nn)) None in
  declare_partials self ["component_sizing_margin"] ["power_rating"]
    None None None.

(** The message of the [ValueError] of [setup]; [dq] is the double
    quote character. *)
Definition dq : string := String "034"%char EmptyString.
Definition rule_msg : string :=
  "Specify either " +:+ dq +:+ "fraction" +:+ dq +:+ " or " +:+ dq +:+ "fixed"
    +:+ dq +:+ " as power split control rule".

(** [setup] mutates the component as it goes: when it raises, the
    declarations made so far remain.  It returns the component reached
    and the exception, if any.  An input declared without [val] gets the
    framework's default 1.0, and one declared without [shape] has shape
    [(1,)]. *)
Definition setup (self : system num) : system num * option exn :=
  let nn := num_nodes (options self) in
  let self := add_input self "power_in" fone (Some "W") nn in
  let self := add_input self "power_rating" (of_Z 99999999) (Some "W") 1 in
  let rule := rule (options self) in
  if decide (rule = "fraction") then
    let self := add_input self "power_split_fraction"
                  (fdiv (of_Z 1) (of_Z 2)) None nn in
    (setup_outputs self, None)
  else if decide (rule = "fixed") then
    let self := add_input self "power_split_amount" fone (Some "W") nn in
    (setup_outputs self, None)
  else
    (self, Some (ValueError rule_msg)).

(** ** Vectors and Jacobians of the host *)

(** [store[key]]. *)
Definition getitem `{Countable K} (show : K → string)
    (store : gmap K (list num)) (key : K) : result (list num) :=
  match store !! key with
  | Some a => Ok a
  | None => Raise (KeyError (show key))
  end.

(** [store[key] = v]: the value is written into the array allocated
    for [key], a one-element value being broadcast. *)
Definition setitem `{Countable K} (show : K → string)
    (store : gmap K (list num)) (key : K) (v : list num)
    : result (gmap K (list num)) :=
  match store !! key with
  | None => Raise (KeyError (show key))
  | Some old =>
      if decide (length v = length old) then Ok (<[key := v]> store)
      else match v with
           | [x] => Ok (<[key := replicate (length old) x]> store)
           | _ => Raise (ValueError "incompatible shape in assignment")
           end
  end.

Definition show_name (key : string) : string := key.
Definition show_pair (key : string * string) : string :=
  key.1 +:+ "," +:+ key.2.

(** The output vector the host allocates from the declarations. *)
Definition alloc_outputs (self : system num) : gmap string (list num) :=
  (λ m, replicate (v_shape m) (v_val m)) <$> var_outputs self.

(** The number of entries of a declared sub-Jacobian: one per listed
    row, or a dense block. *)
Definition subjac_size (self : system num) (key : string * string)
    (m : subjac_meta num) : nat :=
  match sj_rows m with
  | Some rows => length rows
  | None =>
      from_option v_shape 0 (var_outputs self !! key.1)
      * from_option v_shape 0 (var_inputs self !! key.2)
  end.

(** The Jacobian the host allocates: the declared constant values, and
    zeros elsewhere.  Pairs that are not declared are identically
    zero and have no entry. *)
Definition alloc_jacobian (self : system num)
    : gmap (string * string) (list num) :=
  map_imap (λ key m,
    let n := subjac_size self key m in
    Some (match sj_val m with
          | Some v => match v with
                      | [x] => replicate n x
                      | _ => v
                      end
          | None => np_zeros n
          end)) (subjacs self).

(** ** [compute] *)

(** The output vector is threaded through the assignments and returned
    when none of them raises.  What an exception leaves in the vector
    is not visible here: see [compute_inplace]. *)
Definition compute (self : system num)
    (inputs outputs : gmap string (list num)) : result (gmap string (list num)) :=
  let get := getitem show_name inputs in
  let set := setitem show_name in
  let nn := num_nodes (options self) in
  let rule := rule (options self) in
  let eta := efficiency (options self) in
  let weight_inc := weight_inc (options self) in
  let weight_base := weight_base (options self) in
  let cost_inc := cost_inc (options self) in
  let cost_base := cost_base (options self) in
  outputs ←
    (if decide (rule = "fraction") then
       p ← get "power_in"; f ← get "power_split_fraction";
       pf ← np_mul p f;
       outputs ← set outputs "power_out_A" (mul_s pf eta);
       p ← get "power_in"; f ← get "power_split_fraction";
       pf ← np_mul p (s_sub fone f);
       set outputs "power_out_B" (mul_s pf eta)
     else if decide (rule = "fixed") then
       p ← get "power_in"; s ← get "power_split_amount";
       mask ← np_lt p s;
       let not_enough_idx := np_where mask in
       let po_A := np_zeros nn in
       let po_B := np_zeros nn in
       p ← get "power_in"; v ← take_idx p not_enough_idx;
       po_A ← put_idx po_A not_enough_idx (mul_s v eta);
       v ← take_idx (np_zeros nn) not_enough_idx;
       po_B ← put_idx po_B not_enough_idx v;
       p ← get "power_in"; s ← get "power_split_amount";
       mask ← np_ge p s;
       let enough_idx := np_where mask in
       s ← get "power_split_amount"; v ← take_idx s enough_idx;
       po_A ← put_idx po_A enough_idx (mul_s v eta);
       p ← get "power_in"; v ← take_idx p enough_idx;
       s ← get "power_split_amount"; w ← take_idx s enough_idx;
       d ← np_sub v w;
       po_B ← put_idx po_B enough_idx (mul_s d eta);
       outputs ← set outputs "power_out_A" po_A;
       set outputs "power_out_B" po_B
     else Ok outputs);
  p ← get "power_in";
  outputs ← set outputs "heat_out" (mul_s p (fsub fone eta));
  r ← get "power_rating";
  outputs ← set outputs "component_cost" (add_s (mul_s r cost_inc) cost_base);
  r ← get "power_rating";
  outputs ← set outputs "component_weight" (add_s (mul_s r weight_inc) weight_base);
  p ← get "power_in"; r ← get "power_rating";
  m ← np_div p r;
  set outputs "component_sizing_margin" m.

(** ** [compute_partials] *)

(** The Jacobian is threaded through the assignments in the same way;
    see [compute_partials_inplace] for what an exception leaves in
    it. *)
Definition compute_partials (self : system num)
    (inputs : gmap string (list num)) (J : gmap (string * string) (list num))
    : result (gmap (string * string) (list num)) :=
  let get := getitem show_name inputs in
  let set := setitem show_pair in
  let nn := num_nodes (options self) in
  let rule := rule (options self) in
  let eta := efficiency (options self) in
  J ←
    (if decide (rule = "fraction") then
       f ← get "power_split_fraction";
       J ← set J ("power_out_A", "power_in") (mul_s f eta);
       p ← get "power_in";
       J ← set J ("power_out_A", "power_split_fraction") (mul_s p eta);
       f ← get "power_split_fraction";
       J ← set J ("power_out_B", "power_in") (mul_s (s_sub fone f) eta);
       p ← get "power_in";
       set J ("power_out_B", "power_split_fraction") (mul_s (np_neg p) eta)
     else if decide (rule = "fixed") then
       p ← get "power_in"; s ← get "power_split_amount";
       mask ← np_lt p s;
       let not_enough_idx := np_where mask in
       p ← get "power_in"; s ← get "power_split_amount";
       mask ← np_ge p s;
       let enough_idx := np_where mask in
       let Jpo_A_pi := np_zeros nn in
       let Jpo_A_ps := np_zeros nn in
       let Jpo_B_pi := np_zeros nn in
       let Jpo_B_ps := np_zeros nn in
       v ← take_idx (np_ones nn) not_enough_idx;
       Jpo_A_pi ← put_idx Jpo_A_pi not_enough_idx (s_mul eta v);
       v ← take_idx (np_zeros nn) not_enough_idx;
       Jpo_A_ps ← put_idx Jpo_A_ps not_enough_idx v;
       v ← take_idx (np_zeros nn) not_enough_idx;
       Jpo_B_pi ← put_idx Jpo_B_pi not_enough_idx v;
       v ← take_idx (np_zeros nn) not_enough_idx;
       Jpo_B_ps ← put_idx Jpo_B_ps not_enough_idx v;
       v ← take_idx (np_ones nn) enough_idx;
       Jpo_A_ps ← put_idx Jpo_A_ps enough_idx (s_mul eta v);
       v ← take_idx (np_zeros nn) enough_idx;
       Jpo_A_pi ← put_idx Jpo_A_pi enough_idx v;
       v ← take_idx (np_ones nn) enough_idx;
       Jpo_B_ps ← put_idx Jpo_B_ps enough_idx (s_mul (fneg eta) v);
       v ← take_idx (np_ones nn) enough_idx;
       Jpo_B_pi ← put_idx Jpo_B_pi enough_idx (s_mul eta v);
       J ← set J ("power_out_A", "power_in") Jpo_A_pi;
       J ← set J ("power_out_A", "power_split_amount") Jpo_A_ps;
       J ← set J ("power_out_B", "power_in") Jpo_B_pi;
       set J ("power_out_B", "power_split_amount") Jpo_B_ps
     else Ok J);
  r ← get "power_rating";
  J ← set J ("component_sizing_margin", "power_in") (s_div fone r);
  p ← get "power_in"; r ← get "power_rating";
  d ← np_div (np_neg p) (np_square r);
  set J ("component_sizing_margin", "power_rating") d.

(** ** The two operations seen by the host *)

(** [evaluate]: [compute] on a freshly allocated output vector. *)
Definition evaluate (self : system num) (inputs : gmap string (list num))
    : result (gmap string (list num)) :=
  compute self inputs (alloc_outputs self).

(** [linearize]: [compute_partials] on the allocated Jacobian. *)
Definition linearize (self : system num) (inputs : gmap string (list num))
    : result (gmap (string * string) (list num)) :=
  compute_partials self inputs (alloc_jacobian self).

(** The inputs are bound as [setup] declared them: every declared input
    holds an array of the declared shape. *)
Definition inputs_bound (self : system num)
    (inputs : gmap string (list num)) : Prop :=
  map_Forall (λ name m, length <$> inputs !! name = Some (v_shape m))
    (var_inputs self).

#[export] Instance inputs_bound_dec self inputs : Decision (inputs_bound self inputs).
Proof. unfold inputs_bound. apply _. Defined.

(** The name of the control input that [setup] declares for the rule. *)
Definition control (o : Options num) : string :=
  if decide (rule o = "fraction") then "power_split_fraction"
  else "power_split_amount".

(** The value at node [i] of the array [store[key]]. *)
Definition node `{Countable K} (store : gmap K (list num))
    (key : K) (i : nat) : option num :=
  store !! key ≫= (.!! i).

(** The values computed at one node, as functions of the power [p]
    and of the control input [c] at that node: what the array
    operations of [compute] and [compute_partials] amount to there
    (lemmas [evaluate_nodes] and [linearize_nodes]). *)
Definition split_A (o : Options num) (p c : num) : num :=
  if decide (rule o = "fraction") then fmul (fmul p c) (efficiency o)
  else if fge p c then fmul c (efficiency o)
  else if flt p c then fmul p (efficiency o)
  else fzero.

Definition split_B (o : Options num) (p c : num) : num :=
  if decide (rule o = "fraction") then fmul (fmul p (fsub fone c)) (efficiency o)
  else if fge p c then fmul (fsub p c) (efficiency o)
  else fzero.

Definition dA_dp (o : Options num) (p c : num) : num :=
  if decide (rule o = "fraction") then fmul c (efficiency o)
  else if fge p c then fzero
  else if flt p c then fmul (efficiency o) fone
  else fzero.

Definition dA_dc (o : Options num) (p c : num) : num :=
  if decide (rule o = "fraction") then fmul p (efficiency o)
  else if fge p c then fmul (efficiency o) fone
  else fzero.

Definition dB_dp (o : Options num) (p c : num) : num :=
  if decide (rule o = "fraction") then fmul (fsub fone c) (efficiency o)
  else if fge p c then fmul (efficiency o) fone
  else fzero.

Definition dB_dc (o : Options num) (p c : num) : num :=
  if decide (rule o = "fraction") then fmul (fneg p) (efficiency o)
  else if fge p c then fmul (fneg (efficiency o)) fone
  else fzero.

(** [configured kwargs self]: [self] is the component constructed with
    [kwargs], after a [setup] that did not raise. *)
Definition configured (kwargs : list (kwarg num)) (self : system num) : Prop :=
  ∃ self0, PowerSplit kwargs = Ok self0 ∧ setup self0 = (self, None).

(** The life of a component in a model: construction, [setup], and
    then evaluations.  [run_model] reports the phase in which an
    exception is raised. *)
Inductive phase := Construction | Setup | Evaluation.

Definition run_model (kwargs : list (kwarg num))
    (inputs : gmap string (list num))
    : phase * exn + gmap string (list num) :=
  match PowerSplit kwargs with
  | Raise e => inl (Construction, e)
  | Ok self =>
      match setup self with
      | (_, Some e) => inl (Setup, e)
      | (self, None) =>
          match evaluate self inputs with
          | Raise e => inl (Evaluation, e)
          | Ok outputs => inr outputs
          end
      end
  end.
End component.

(** ** Example configurations *)

Section examples.
Context {num : Type} `{!Arith num}.

(** A decimal literal [n/d], for instance [dec 7 10] for [0.7]. *)
Definition dec (n d : Z) : num := fdiv (of_Z n) (of_Z d).

(** The component built from [kwargs], as it stands after [setup]. *)
Definition component_of (kwargs : list (kwarg num)) : system num :=
  match PowerSplit kwargs with
  | Ok self => (setup self).1
  | Raise _ => {| options := initialize; var_inputs := ∅;
                  var_outputs := ∅; subjacs := ∅ |}
  end.

(** The proportional splitter of the demonstration at the end of the
    source file, on one node: 100 in, 70 % to A, efficiency 0.98. *)
Definition fraction_kwargs : list (kwarg num) :=
  [kw_rule "fraction"; kw_efficiency (dec 98 100);
   kw_weight_inc (dec 2 10); kw_weight_base (of_Z 20);
   kw_cost_inc (dec 5 100); kw_cost_base (of_Z 10000)].

Definition fraction_inputs : gmap string (list num) :=
  <["power_in" := [of_Z 100]]>
  (<["power_rating" := [of_Z 150]]>
  (<["power_split_fraction" := [dec 7 10]]> ∅)).

(** A fixed-amount splitter on three nodes: enough power (100 for 30),
    not enough (50 for 80), and exactly enough (40 for 40). *)
Definition fixed_kwargs : list (kwarg num) :=
  [kw_rule "fixed"; kw_num_nodes 3; kw_efficiency (dec 95 100)].

Definition fixed_inputs : gmap string (list num) :=
  <["power_in" := [of_Z 100; of_Z 50; of_Z 40]]>
  (<["power_rating" := [of_Z 150]]>
  (<["power_split_amount" := [of_Z 30; of_Z 80; of_Z 40]]> ∅)).

(** A rule that is neither of the two. *)
Definition invalid_kwargs : list (kwarg num) := [kw_rule "invalid"].
End examples.

(** Checks on binary64 results: the value at a node is finite and within
    [tol] of [q]. *)
Definition node_approx `{Countable K} (res : result (gmap K (list f64)))
    (key : K) (i : nat) (q tol : Q) : bool :=
  match res with
  | Ok store => from_option (λ x, approx x q tol) false (node store key i)
  | Raise _ => false
  end.

Definition tol9 : Q := 1 # 1000000000.

(** The array stored under [key] in the outcome of a call, if any. *)
Definition result_get `{Countable K} (res : result (gmap K (list f64)))
    (key : K) : option (list f64) :=
  match res with
  | Ok store => store !! key
  | Raise _ => None
  end.

(** [power_out_A + power_out_B + heat_out] at node [i], in binary64, is
    within [tol] of [q]. *)
Definition sum_approx (res : result (gmap string (list f64)))
    (i : nat) (q tol : Q) : bool :=
  match res with
  | Ok outs =>
      match node outs "power_out_A" i, node outs "power_out_B" i,
            node outs "heat_out" i with
      | Some a, Some b, Some h => approx (fadd (fadd a b) h) q tol
      | _, _, _ => false
      end
  | Raise _ => false
  end.

(** Inputs of the fixed-amount splitter outside the intended domain: a
    zero rating, a node whose power is not a number, a negative power. *)
Definition degenerate_inputs : gmap string (list f64) :=
  <["power_in" := [of_Z 100; S754_nan; of_Z (-40)]]>
  (<["power_rating" := [of_Z 0]]>
  (<["power_split_amount" := [of_Z 30; of_Z 80; of_Z 40]]> ∅)).

(** [power_out_A + power_out_B + heat_out == power_in] at node [i], as
    numpy evaluates it on the binary64 outputs. *)
Definition conserved (res : result (gmap string (list f64)))
    (inputs : gmap string (list f64)) (i : nat) : option bool :=
  match res with
  | Ok outs =>
      match node outs "power_out_A" i, node outs "power_out_B" i,
            node outs "heat_out" i, node inputs "power_in" i with
      | Some a, Some b, Some h, Some p => Some (SFeqb (fadd (fadd a b) h) p)
      | _, _, _, _ => None
      end
  | Raise _ => None
  end.

(** A proportional splitter with efficiency 0.9, fed 0.1 with fraction
    0.3. *)
Definition rounding_kwargs : list (kwarg f64) := [kw_efficiency (dec 9 10)].

Definition rounding_inputs : gmap string (list f64) :=
  <["power_in" := [dec 1 10]]>
  (<["power_rating" := [of_Z 150]]>
  (<["power_split_fraction" := [dec 3 10]]> ∅)).

(** The proportional splitter of the demonstration with a fraction far
    outside [0, 1], which nothing checks. *)
Definition large_fraction_inputs : gmap string (list f64) :=
  <["power_in" := [of_Z 100]]>
  (<["power_rating" := [of_Z 150]]>
  (<["power_split_fraction" := [of_Z (10 ^ 17)]]> ∅)).

(** Inputs of the fixed-amount splitter with a node that is not a
    number, and with a node where both powers are infinite. *)
Definition nan_inputs : gmap string (list f64) :=
  <["power_in" := [of_Z 100; S754_nan; of_Z 40]]>
  (<["power_rating" := [of_Z 150]]>
  (<["power_split_amount" := [of_Z 30; of_Z 80; of_Z 40]]> ∅)).

Definition infinite_inputs : gmap string (list f64) :=
  <["power_in" := [of_Z 100; of_Z 50; S754_infinity false]]>
  (<["power_rating" := [of_Z 150]]>
  (<["power_split_amount" := [of_Z 30; of_Z 80; S754_infinity false]]> ∅)).

(** ** Perturbed inputs and reused stores *)

Section perturbation.
Context {num : Type} `{!Arith num}.

(** [inputs] with the value at node [i] of the input [key] replaced by
    [x]. *)
Definition set_node (inputs : gmap string (list num))
    (key : string) (i : nat) (x : num) : gmap string (list num) :=
  match inputs !! key with
  | Some a => <[key := <[i := x]> a]> inputs
  | None => inputs
  end.

(** The output [kout] at node [j] as a function of the value [x] given
    to the input [kin] at node [i], all else being as in [inputs]. *)
Definition response (self : system num) (inputs : gmap string (list num))
    (kin : string) (i : nat) (kout : string) (j : nat) (x : num) : num :=
  match evaluate self (set_node inputs kin i x) with
  | Ok outs => default fzero (node outs kout j)
  | Raise _ => fzero
  end.

(** An output vector of the host: the declared outputs and no other,
    each of its declared shape, whatever the values. *)
Definition outputs_allocated (self : system num)
    (outs : gmap string (list num)) : Prop :=
  dom outs = dom (var_outputs self) ∧
  map_Forall (λ name m, length <$> outs !! name = Some (v_shape m))
    (var_outputs self).

(** A Jacobian of the host: the declared pairs and no other, each with
    as many entries as declared, whatever the values. *)
Definition jacobian_allocated (self : system num)
    (J : gmap (string * string) (list num)) : Prop :=
  dom J = dom (subjacs self) ∧
  map_Forall (λ key m, length <$> J !! key = Some (subjac_size self key m))
    (subjacs self).
End perturbation.

(** ** Rescaled and exchanged inputs, constant partials *)

(** [inputs] with every value of the input [key] multiplied by [k]. *)
Definition scale_input {num : Type} `{!Arith num} (k : num) (key : string)
    (inputs : gmap string (list num)) : gmap string (list num) :=
  alter (fmap (fmul k)) key inputs.

(** [inputs] with every fraction [f] replaced by [1 - f]. *)
Definition swap_fraction {num : Type} `{!Arith num}
    (inputs : gmap string (list num)) : gmap string (list num) :=
  alter (s_sub fone) "power_split_fraction" inputs.

(** [inputs] with the powers multiplied by [k]: [power_in] and, under
    the fixed-amount rule, [power_split_amount]. *)
Definition scale_powers {num : Type} `{!Arith num} (o : Options num) (k : num)
    (inputs : gmap string (list num)) : gmap string (list num) :=
  scale_input k "power_in"
    (if decide (rule o = "fixed") then scale_input k "power_split_amount" inputs
     else inputs).

(** The partials that [setup] declares with a constant value. *)
Definition constant_partial (key : string * string) : Prop :=
  key.1 = "heat_out" ∨ key.1 = "component_cost" ∨ key.1 = "component_weight".

(** An output vector and a Jacobian of the three-node fixed-amount
    splitter as an earlier call, or anything else, may have left them:
    the declared arrays, every entry 7. *)
Definition stale_outputs {num : Type} `{!Arith num} : gmap string (list num) :=
  <["power_out_A" := replicate 3 (of_Z 7)]>
  (<["power_out_B" := replicate 3 (of_Z 7)]>
  (<["heat_out" := replicate 3 (of_Z 7)]>
  (<["component_cost" := [of_Z 7]]>
  (<["component_weight" := [of_Z 7]]>
  (<["component_sizing_margin" := replicate 3 (of_Z 7)]> ∅))))).

Definition stale_jacobian {num : Type} `{!Arith num}
    : gmap (string * string) (list num) :=
  <[("power_out_A", "power_in") := replicate 3 (of_Z 7)]>
  (<[("power_out_A", "power_split_amount") := replicate 3 (of_Z 7)]>
  (<[("power_out_B", "power_in") := replicate 3 (of_Z 7)]>
  (<[("power_out_B", "power_split_amount") := replicate 3 (of_Z 7)]>
  (<[("heat_out", "power_in") := replicate 3 (of_Z 7)]>
  (<[("component_cost", "power_rating") := [of_Z 7]]>
  (<[("component_weight", "power_rating") := [of_Z 7]]>
  (<[("component_sizing_margin", "power_in") := replicate 3 (of_Z 7)]>
  (<[("component_sizing_margin", "power_rating") := replicate 3 (of_Z 7)]>
     ∅)))))))).

(** ** Assignments in place *)

Section inplace.
Context {num : Type} `{!Arith num}.

(** A sequence of assignments [store[key] = rhs] executed on the vector
    itself, as [compute] and [compute_partials] do on the vector they
    are handed: when the right-hand side of an assignment, or the
    assignment, raises, the execution stops there and the assignments
    made before it stay in the vector. *)
Fixpoint exec `{Countable K} (show : K → string)
    (stmts : list (K * result (list num))) (store : gmap K (list num))
    : gmap K (list num) * option exn :=
  match stmts with
  | [] => (store, None)
  | (key, rhs) :: stmts =>
      match rhs with
      | Raise e => (store, Some e)
      | Ok v =>
          match setitem show store key v with
          | Raise e => (store, Some e)
          | Ok store => exec show stmts store
          end
      end
  end.

(** Lines 87 to 95 of [compute]: the two local arrays of the
    fixed-amount rule, built before either output is assigned. *)
Definition fixed_split (self : system num) (inputs : gmap string (list num))
    : result (list num * list num) :=
  let get := getitem show_name inputs in
  let nn := num_nodes (options self) in
  let eta := efficiency (options self) in
  p ← get "power_in"; s ← get "power_split_amount";
  mask ← np_lt p s;
  let not_enough_idx := np_where mask in
  let po_A := np_zeros nn in
  let po_B := np_zeros nn in
  p ← get "power_in"; v ← take_idx p not_enough_idx;
  po_A ← put_idx po_A not_enough_idx (mul_s v eta);
  v ← take_idx (np_zeros nn) not_enough_idx;
  po_B ← put_idx po_B not_enough_idx v;
  p ← get "power_in"; s ← get "power_split_amount";
  mask ← np_ge p s;
  let enough_idx := np_where mask in
  s ← get "power_split_amount"; v ← take_idx s enough_idx;
  po_A ← put_idx po_A enough_idx (mul_s v eta);
  p ← get "power_in"; v ← take_idx p enough_idx;
  s ← get "power_split_amount"; w ← take_idx s enough_idx;
  d ← np_sub v w;
  po_B ← put_idx po_B enough_idx (mul_s d eta);
  Ok (po_A, po_B).

(** The assignments of [compute], in the order of the source, each with
    its right-hand side. *)
Definition compute_statements (self : system num)
    (inputs : gmap string (list num)) : list (string * result (list num)) :=
  let get := getitem show_name inputs in
  let rule := rule (options self) in
  let eta := efficiency (options self) in
  let weight_inc := weight_inc (options self) in
  let weight_base := weight_base (options self) in
  let cost_inc := cost_inc (options self) in
  let cost_base := cost_base (options self) in
  (if decide (rule = "fraction") then
     [("power_out_A",
       p ← get "power_in"; f ← get "power_split_fraction";
       pf ← np_mul p f; Ok (mul_s pf eta));
      ("power_out_B",
       p ← get "power_in"; f ← get "power_split_fraction";
       pf ← np_mul p (s_sub fone f); Ok (mul_s pf eta))]
   else if decide (rule = "fixed") then
     [("power_out_A", fst <$> fixed_split self inputs);
      ("power_out_B", snd <$> fixed_split self inputs)]
   else [])
  ++ [("heat_out", p ← get "power_in"; Ok (mul_s p (fsub fone eta)));
      ("component_cost",
       r ← get "power_rating"; Ok (add_s (mul_s r cost_inc) cost_base));
      ("component_weight",
       r ← get "power_rating"; Ok (add_s (mul_s r weight_inc) weight_base));
      ("component_sizing_margin",
       p ← get "power_in"; r ← get "power_rating"; np_div p r)].

(** [compute] on the vector itself. *)
Definition compute_inplace (self : system num)
    (inputs outputs : gmap string (list num))
    : gmap string (list num) * option exn :=
  exec show_name (compute_statements self inputs) outputs.

(** Lines 113 to 128 of [compute_partials]: the four local arrays of
    the fixed-amount rule. *)
Definition fixed_partials (self : system num) (inputs : gmap string (list num))
    : result (list num * list num * list num * list num) :=
  let get := getitem show_name inputs in
  let nn := num_nodes (options self) in
  let eta := efficiency (options self) in
  p ← get "power_in"; s ← get "power_split_amount";
  mask ← np_lt p s;
  let not_enough_idx := np_where mask in
  p ← get "power_in"; s ← get "power_split_amount";
  mask ← np_ge p s;
  let enough_idx := np_where mask in
  let Jpo_A_pi := np_zeros nn in
  let Jpo_A_ps := np_zeros nn in
  let Jpo_B_pi := np_zeros nn in
  let Jpo_B_ps := np_zeros nn in
  v ← take_idx (np_ones nn) not_enough_idx;
  Jpo_A_pi ← put_idx Jpo_A_pi not_enough_idx (s_mul eta v);
  v ← take_idx (np_zeros nn) not_enough_idx;
  Jpo_A_ps ← put_idx Jpo_A_ps not_enough_idx v;
  v ← take_idx (np_zeros nn) not_enough_idx;
  Jpo_B_pi ← put_idx Jpo_B_pi not_enough_idx v;
  v ← take_idx (np_zeros nn) not_enough_idx;
  Jpo_B_ps ← put_idx Jpo_B_ps not_enough_idx v;
  v ← take_idx (np_ones nn) enough_idx;
  Jpo_A_ps ← put_idx Jpo_A_ps enough_idx (s_mul eta v);
  v ← take_idx (np_zeros nn) enough_idx;
  Jpo_A_pi ← put_idx Jpo_A_pi enough_idx v;
  v ← take_idx (np_ones nn) enough_idx;
  Jpo_B_ps ← put_idx Jpo_B_ps enough_idx (s_mul (fneg eta) v);
  v ← take_idx (np_ones nn) enough_idx;
  Jpo_B_pi ← put_idx Jpo_B_pi enough_idx (s_mul eta v);
  Ok (Jpo_A_pi, Jpo_A_ps, Jpo_B_pi, Jpo_B_ps).

(** The assignments of [compute_partials], in the order of the source. *)
Definition compute_partials_statements (self : system num)
    (inputs : gmap string (list num))
    : list (string * string * result (list num)) :=
  let get := getitem show_name inputs in
  let rule := rule (options self) in
  let eta := efficiency (options self) in
  (if decide (rule = "fraction") then
     [(("power_out_A", "power_in"),
       f ← get "power_split_fraction"; Ok (mul_s f eta));
      (("power_out_A", "power_split_fraction"),
       p ← get "power_in"; Ok (mul_s p eta));
      (("power_out_B", "power_in"),
       f ← get "power_split_fraction"; Ok (mul_s (s_sub fone f) eta));
      (("power_out_B", "power_split_fraction"),
       p ← get "power_in"; Ok (mul_s (np_neg p) eta))]
   else if decide (rule = "fixed") then
     [(("power_out_A", "power_in"),
       (λ a, a.1.1.1) <$> fixed_partials self inputs);
      (("power_out_A", "power_split_amount"),
       (λ a, a.1.1.2) <$> fixed_partials self inputs);
      (("power_out_B", "power_in"),
       (λ a, a.1.2) <$> fixed_partials self inputs);
      (("power_out_B", "power_split_amount"),
       (λ a, a.2) <$> fixed_partials self inputs)]
   else [])
  ++ [(("component_sizing_margin", "power_in"),
       r ← get "power_rating"; Ok (s_div fone r));
      (("component_sizing_margin", "power_rating"),
       p ← get "power_in"; r ← get "power_rating";
       np_div (np_neg p) (np_square r))].

(** [compute_partials] on the Jacobian itself. *)
Definition compute_partials_inplace (self : system num)
    (inputs : gmap string (list num)) (J : gmap (string * string) (list num))
    : gmap (string * string) (list num) * option exn :=
  exec show_pair (compute_partials_statements self inputs) J.

(** What the caller sees of a call in place, when the vector is not
    looked at after an exception. *)
Definition outcome {A} (r : A * option exn) : result A :=
  match r with
  | (a, None) => Ok a
  | (_, Some e) => Raise e
  end.
End inplace.

(** * Properties *)

(** ** The error monad *)

Lemma bind_Ok {A B} (f : A → result B) (a : A) : Ok a ≫= f = f a.
Proof. reflexivity. Qed.

(** ** Arrays *)

Section numpy_facts.
Context {num : Type} `{!Arith num}.
Implicit Types (a v : list num) (mask : list bool).

Lemma broadcast2_same {A B C} (f : A → B → C) (a : list A) (b : list B) :
  length a = length b → broadcast2 f a b = Ok (zip_with f a b).
Proof. intros Hlen. unfold broadcast2. by rewrite decide_True. Qed.

Lemma broadcast2_scalar_r {A B C} (f : A → B → C) (a : list A) (y : B) :
  broadcast2 f a [y] = Ok ((λ x, f x y) <$> a).
Proof.
  unfold broadcast2. case_decide as Hlen.
  - destruct a as [|x [|??]]; simplify_eq/=. reflexivity.
  - destruct a as [|x [|??]]; simpl in *; done.
Qed.

Lemma length_select_where {A} k mask (a : list A) :
  length a = length mask →
  length (select mask a) = length (where_from k mask).
Proof.
  revert k a. induction mask as [|b m IH]; intros k [|x a] Hlen;
    simplify_eq/=; [done|].
  destruct b; simpl; auto.
Qed.

Lemma where_from_bound k mask :
  Forall (λ i, i < k + length mask) (where_from k mask).
Proof.
  revert k. induction mask as [|b m IH]; intros k; simpl; [constructor|].
  specialize (IH (S k)).
  assert (Forall (λ i, i < k + S (length m)) (where_from (S k) m)).
  { eapply Forall_impl; [exact IH|]. simpl. intros. lia. }
  destruct b; [constructor; [lia|done]|done].
Qed.

Lemma select_fmap {A B} (f : A → B) mask (a : list A) :
  select mask (f <$> a) = f <$> select mask a.
Proof.
  revert a. induction mask as [|b m IH]; intros [|x a]; simpl; try done.
  destruct b; simpl; by rewrite IH.
Qed.

Lemma select_zip_with {A B C} (f : A → B → C) mask (a : list A) (b : list B) :
  select mask (zip_with f a b) = zip_with f (select mask a) (select mask b).
Proof.
  revert a b. induction mask as [|c m IH]; intros [|x a] [|y b]; simpl;
    try done.
  - by destruct c, (select m a).
  - destruct c; simpl; by rewrite IH.
Qed.

Lemma length_select_eq {A B} mask (a : list A) (b : list B) :
  length a = length b → length (select mask a) = length (select mask b).
Proof.
  revert a b. induction mask as [|c m IH]; intros [|x a] [|y b] Hlen;
    simplify_eq/=; try done.
  destruct c; simpl; auto.
Qed.

Lemma length_merge {A} mask (v a : list A) :
  length v = length mask → length a = length mask →
  length (merge mask v a) = length mask.
Proof.
  revert v a. induction mask as [|b m IH]; intros [|x v] [|y a] Hv Ha;
    simplify_eq/=; auto.
Qed.

Lemma lookup_merge {A} mask (v a : list A) (i : nat) (b : bool) (x y : A) :
  mask !! i = Some b → v !! i = Some x → a !! i = Some y →
  merge mask v a !! i = Some (if b then x else y).
Proof.
  revert v a i. induction mask as [|c m IH]; intros [|x' v] [|y' a] [|i];
    intros; simplify_eq/=; eauto.
Qed.

(** Reading at the indices of [np.where]. *)
Lemma take_where_from (pre a : list num) mask :
  length a = length mask →
  take_idx (pre ++ a) (where_from (length pre) mask) = Ok (select mask a).
Proof.
  revert pre a. induction mask as [|b m IH]; intros pre [|x a] Hlen;
    simplify_eq/=; [done|].
  specialize (IH (pre ++ [x]) a Hlen).
  rewrite length_app, Nat.add_1_r, <-app_assoc in IH. simpl in IH.
  destruct b; simpl; [|done].
  rewrite lookup_app_r, Nat.sub_diag by lia. simpl.
  by rewrite IH.
Qed.

Lemma take_where a mask :
  length a = length mask → take_idx a (np_where mask) = Ok (select mask a).
Proof. intros. by apply (take_where_from []). Qed.

(** Writing at the indices of [np.where]. *)
Lemma store_where_from (pre a v : list num) mask :
  length a = length mask → length v = length mask →
  store_at (pre ++ a) (where_from (length pre) mask) (select mask v)
  = pre ++ merge mask v a.
Proof.
  revert pre a v. induction mask as [|b m IH]; intros pre [|y a] [|x v] Ha Hv;
    simplify_eq/=; [done|].
  destruct b; simpl.
  - specialize (IH (pre ++ [x]) a v Ha Hv).
    rewrite length_app, Nat.add_1_r, <-!app_assoc in IH. simpl in IH.
    rewrite <-IH. f_equal.
    rewrite insert_app_r_alt, Nat.sub_diag by lia. done.
  - specialize (IH (pre ++ [y]) a v Ha Hv).
    rewrite length_app, Nat.add_1_r, <-!app_assoc in IH. simpl in IH.
    done.
Qed.

Lemma put_where a v mask :
  length a = length mask → length v = length mask →
  put_idx a (np_where mask) (select mask v) = Ok (merge mask v a).
Proof.
  intros Ha Hv. unfold put_idx, np_where.
  rewrite decide_True by (rewrite Ha; apply (where_from_bound 0)).
  rewrite decide_True by (by apply length_select_where).
  f_equal. by apply (store_where_from []).
Qed.
End numpy_facts.

(** ** Declarations of a configured component, and the stores *)

Section component_facts.
Context {num : Type} `{!Arith num}.
Implicit Types (self : system num) (inputs outputs : gmap string (list num)).

Lemma getitem_Some `{Countable K} (show : K → string)
    (store : gmap K (list num)) (k : K) (a : list num) :
  store !! k = Some a → getitem show store k = Ok a.
Proof. intros Hk. unfold getitem. by rewrite Hk. Qed.

Lemma setitem_same `{Countable K} (show : K → string)
    (store : gmap K (list num)) (k : K) (old v : list num) :
  store !! k = Some old → length v = length old →
  setitem show store k v = Ok (<[k := v]> store).
Proof. intros Hk Hlen. unfold setitem. by rewrite Hk, decide_True. Qed.

Lemma setitem_scalar `{Countable K} (show : K → string)
    (store : gmap K (list num)) (k : K) (old : list num) (x : num) :
  store !! k = Some old →
  setitem show store k [x] = Ok (<[k := replicate (length old) x]> store).
Proof.
  intros Hk. unfold setitem. rewrite Hk. case_decide as Hlen; [|done].
  by rewrite <-Hlen.
Qed.

Lemma options_setup_outputs self : options (setup_outputs self) = options self.
Proof. unfold setup_outputs. cbv zeta. by repeat case_decide. Qed.

Lemma var_inputs_setup_outputs self :
  var_inputs (setup_outputs self) = var_inputs self.
Proof. unfold setup_outputs. cbv zeta. by repeat case_decide. Qed.

Lemma var_outputs_setup_outputs self :
  let nn := num_nodes (options self) in
  var_outputs (setup_outputs self) =
    <["component_sizing_margin" := {| v_shape := nn; v_units := None; v_val := fone |}]>
    (<["component_weight" := {| v_shape := 1; v_units := Some "kg"; v_val := fone |}]>
    (<["component_cost" := {| v_shape := 1; v_units := Some "USD"; v_val := fone |}]>
    (<["heat_out" := {| v_shape := nn; v_units := Some "W"; v_val := fone |}]>
    (<["power_out_B" := {| v_shape := nn; v_units := Some "W"; v_val := fone |}]>
    (<["power_out_A" := {| v_shape := nn; v_units := Some "W"; v_val := fone |}]>
       (var_outputs self)))))).
Proof. unfold setup_outputs. cbv zeta. by repeat case_decide. Qed.

Lemma configured_inv kwargs self :
  configured kwargs self →
  let o := foldl set_option initialize kwargs in
  let s0 := {| options := o; var_inputs := ∅; var_outputs := ∅; subjacs := ∅ |} in
  let s1 := add_input (add_input s0 "power_in" fone (Some "W") (num_nodes o))
              "power_rating" (of_Z 99999999) (Some "W") 1 in
  (rule o = "fraction" ∧
   self = setup_outputs (add_input s1 "power_split_fraction"
                           (fdiv (of_Z 1) (of_Z 2)) None (num_nodes o))) ∨
  (rule o = "fixed" ∧
   self = setup_outputs (add_input s1 "power_split_amount" fone (Some "W")
                           (num_nodes o))).
Proof.
  intros (self0 & Hc & Hs). unfold PowerSplit in Hc. simplify_eq.
  unfold setup in Hs. cbv zeta in Hs. simpl in Hs.
  repeat case_decide; simplify_eq; auto.
Qed.

Lemma options_configured kwargs self :
  configured kwargs self → options self = foldl set_option initialize kwargs.
Proof.
  intros Hc. destruct (configured_inv _ _ Hc) as [[_ ->]|[_ ->]];
    by rewrite options_setup_outputs.
Qed.

Lemma alloc_outputs_configured kwargs self :
  configured kwargs self →
  let nn := num_nodes (options self) in
  alloc_outputs self =
    <["component_sizing_margin" := replicate nn fone]>
    (<["component_weight" := [fone]]>
    (<["component_cost" := [fone]]>
    (<["heat_out" := replicate nn fone]>
    (<["power_out_B" := replicate nn fone]>
    (<["power_out_A" := replicate nn fone]> ∅))))).
Proof.
  intros Hc nn. subst nn. rewrite (options_configured _ _ Hc).
  unfold alloc_outputs.
  destruct (configured_inv _ _ Hc) as [[_ ->]|[_ ->]];
    rewrite var_outputs_setup_outputs;
    cbv zeta; cbn [var_outputs add_input options];
    by rewrite !fmap_insert, fmap_empty.
Qed.

Ltac lookup_store :=
  repeat (rewrite lookup_insert_ne by done);
  first [rewrite lookup_insert_eq; reflexivity | eassumption].

Ltac solve_length :=
  unfold mul_s, s_mul, add_s, s_sub, s_div, np_neg, np_square, np_zeros, np_ones;
  repeat first
    [ rewrite length_fmap | rewrite length_zip_with
    | rewrite length_replicate | rewrite length_merge ];
  simpl; try lia; try congruence.

Ltac run :=
  unfold np_mul, np_sub, np_div, np_lt, np_ge;
  repeat first
    [ rewrite bind_Ok; cbv beta
    | rewrite broadcast2_scalar_r
    | rewrite broadcast2_same by solve_length
    | erewrite setitem_same by (first [lookup_store | solve_length]) ].

Lemma mul_s_select mask (a : list num) (x : num) :
  mul_s (select mask a) x = select mask (mul_s a x).
Proof. unfold mul_s. by rewrite select_fmap. Qed.

Lemma s_mul_select mask (a : list num) (x : num) :
  s_mul x (select mask a) = select mask (s_mul x a).
Proof. unfold s_mul. by rewrite select_fmap. Qed.

Lemma np_sub_select mask (a b : list num) :
  length a = length b →
  np_sub (select mask a) (select mask b) = Ok (select mask (zip_with fsub a b)).
Proof.
  intros Hlen. unfold np_sub.
  rewrite broadcast2_same by (by apply length_select_eq).
  by rewrite select_zip_with.
Qed.

Ltac run_fixed :=
  unfold np_lt, np_ge;
  repeat first
    [ rewrite bind_Ok; cbv beta zeta
    | rewrite broadcast2_same by solve_length
    | rewrite take_where by solve_length
    | rewrite np_sub_select by solve_length
    | rewrite mul_s_select
    | rewrite s_mul_select
    | rewrite put_where by solve_length ].

Lemma evaluate_fraction kwargs self inputs (p f : list num) (r : num) :
  configured kwargs self → rule (options self) = "fraction" →
  inputs !! "power_in" = Some p →
  inputs !! "power_rating" = Some [r] →
  inputs !! "power_split_fraction" = Some f →
  length p = num_nodes (options self) →
  length f = num_nodes (options self) →
  let o := options self in
  evaluate self inputs = Ok (
    <["component_sizing_margin" := (λ x, fdiv x r) <$> p]>
    (<["component_weight" := [fadd (fmul r (weight_inc o)) (weight_base o)]]>
    (<["component_cost" := [fadd (fmul r (cost_inc o)) (cost_base o)]]>
    (<["heat_out" := mul_s p (fsub fone (efficiency o))]>
    (<["power_out_B" := mul_s (zip_with fmul p (s_sub fone f)) (efficiency o)]>
    (<["power_out_A" := mul_s (zip_with fmul p f) (efficiency o)]>
       (alloc_outputs self))))))).
Proof.
  intros Hc Hrule Hp Hr Hf Hlp Hlf o. subst o.
  unfold evaluate, compute. cbv zeta.
  rewrite (alloc_outputs_configured _ _ Hc). cbv zeta.
  rewrite Hrule. rewrite decide_True by done.
  rewrite !(getitem_Some _ _ _ _ Hp), !(getitem_Some _ _ _ _ Hf),
    !(getitem_Some _ _ _ _ Hr).
  run. reflexivity.
Qed.

Lemma evaluate_fixed kwargs self inputs (p s : list num) (r : num) :
  configured kwargs self → rule (options self) = "fixed" →
  inputs !! "power_in" = Some p →
  inputs !! "power_rating" = Some [r] →
  inputs !! "power_split_amount" = Some s →
  length p = num_nodes (options self) →
  length s = num_nodes (options self) →
  let o := options self in
  let nn := num_nodes o in
  let not_enough := zip_with flt p s in
  let enough := zip_with fge p s in
  evaluate self inputs = Ok (
    <["component_sizing_margin" := (λ x, fdiv x r) <$> p]>
    (<["component_weight" := [fadd (fmul r (weight_inc o)) (weight_base o)]]>
    (<["component_cost" := [fadd (fmul r (cost_inc o)) (cost_base o)]]>
    (<["heat_out" := mul_s p (fsub fone (efficiency o))]>
    (<["power_out_B" :=
         merge enough (mul_s (zip_with fsub p s) (efficiency o))
           (merge not_enough (np_zeros nn) (np_zeros nn))]>
    (<["power_out_A" :=
         merge enough (mul_s s (efficiency o))
           (merge not_enough (mul_s p (efficiency o)) (np_zeros nn))]>
       (alloc_outputs self))))))).
Proof.
  intros Hc Hrule Hp Hr Hs Hlp Hls o nn ne en. subst o nn ne en.
  unfold evaluate, compute. cbv zeta.
  rewrite (alloc_outputs_configured _ _ Hc). cbv zeta.
  rewrite Hrule. rewrite decide_False by done. rewrite decide_True by done.
  rewrite !(getitem_Some _ _ _ _ Hp), !(getitem_Some _ _ _ _ Hs),
    !(getitem_Some _ _ _ _ Hr).
  run_fixed. run. reflexivity.
Qed.

Lemma subjacs_setup_outputs self :
  rule (options self) = "fraction" ∨ rule (options self) = "fixed" →
  let o := options self in
  let nn := num_nodes o in
  let diag v := {| sj_rows := Some (range nn); sj_cols := Some (range nn);
                   sj_val := v |} in
  let dense v := {| sj_rows := None; sj_cols := None; sj_val := v |} in
  subjacs (setup_outputs self) =
    <[("component_sizing_margin", "power_rating") := dense None]>
    (<[("component_sizing_margin", "power_in") := diag None]>
    (<[("component_weight", "power_rating") := dense (Some [weight_inc o])]>
    (<[("component_cost", "power_rating") := dense (Some [cost_inc o])]>
    (<[("heat_out", "power_in") :=
         diag (Some (s_mul (fsub fone (efficiency o)) (np_ones nn)))]>
    (<[("power_out_B", control o) := diag None]>
    (<[("power_out_B", "power_in") := diag None]>
    (<[("power_out_A", control o) := diag None]>
    (<[("power_out_A", "power_in") := diag None]> (subjacs self))))))))).
Proof.
  intros Hrule. unfold setup_outputs, control. cbv zeta.
  destruct Hrule as [Hr|Hr]; simpl; rewrite Hr;
    [rewrite !decide_True by done
    |rewrite !(decide_False (P:="fixed" = "fraction")) by done;
     rewrite !decide_True by done];
    reflexivity.
Qed.

Lemma rule_configured kwargs self :
  configured kwargs self →
  rule (options self) = "fraction" ∨ rule (options self) = "fixed".
Proof.
  intros Hc. rewrite (options_configured _ _ Hc).
  destruct (configured_inv _ _ Hc) as [[? _]|[? _]]; auto.
Qed.

Lemma var_inputs_configured kwargs self :
  configured kwargs self →
  let o := options self in
  var_inputs self =
    <[control o := {| v_shape := num_nodes o;
                      v_units := if decide (rule o = "fraction") then None
                                 else Some "W";
                      v_val := if decide (rule o = "fraction")
                               then fdiv (of_Z 1) (of_Z 2) else fone |}]>
    (<["power_rating" := {| v_shape := 1; v_units := Some "W";
                            v_val := of_Z 99999999 |}]>
    (<["power_in" := {| v_shape := num_nodes o; v_units := Some "W";
                        v_val := fone |}]> ∅)).
Proof.
  intros Hc o. subst o. unfold control. rewrite (options_configured _ _ Hc).
  destruct (configured_inv _ _ Hc) as [[Hr ->]|[Hr ->]];
    rewrite var_inputs_setup_outputs, Hr; reflexivity.
Qed.

Lemma var_outputs_configured kwargs self :
  configured kwargs self →
  let nn := num_nodes (options self) in
  var_outputs self =
    <["component_sizing_margin" := {| v_shape := nn; v_units := None; v_val := fone |}]>
    (<["component_weight" := {| v_shape := 1; v_units := Some "kg"; v_val := fone |}]>
    (<["component_cost" := {| v_shape := 1; v_units := Some "USD"; v_val := fone |}]>
    (<["heat_out" := {| v_shape := nn; v_units := Some "W"; v_val := fone |}]>
    (<["power_out_B" := {| v_shape := nn; v_units := Some "W"; v_val := fone |}]>
    (<["power_out_A" := {| v_shape := nn; v_units := Some "W"; v_val := fone |}]>
       ∅))))).
Proof.
  intros Hc nn. subst nn. rewrite (options_configured _ _ Hc).
  destruct (configured_inv _ _ Hc) as [[_ ->]|[_ ->]];
    by rewrite var_outputs_setup_outputs.
Qed.

Lemma control_neq (o : Options num) :
  control o ≠ "power_in" ∧ control o ≠ "power_rating".
Proof. unfold control. by case_decide. Qed.

Lemma broadcast_val n (v : list num) :
  length v = n →
  match v with [x] => replicate n x | _ => v end = v.
Proof. intros <-. by destruct v as [|? [|??]]. Qed.

Lemma alloc_jacobian_configured kwargs self :
  configured kwargs self →
  let o := options self in
  let nn := num_nodes o in
  alloc_jacobian self =
    <[("component_sizing_margin", "power_rating") := np_zeros nn]>
    (<[("component_sizing_margin", "power_in") := np_zeros nn]>
    (<[("component_weight", "power_rating") := [weight_inc o]]>
    (<[("component_cost", "power_rating") := [cost_inc o]]>
    (<[("heat_out", "power_in") := s_mul (fsub fone (efficiency o)) (np_ones nn)]>
    (<[("power_out_B", control o) := np_zeros nn]>
    (<[("power_out_B", "power_in") := np_zeros nn]>
    (<[("power_out_A", control o) := np_zeros nn]>
    (<[("power_out_A", "power_in") := np_zeros nn]> ∅)))))))).
Proof.
  intros Hc o nn. subst o nn.
  assert (Hsj : subjacs self = subjacs self) by done.
  destruct (configured_inv _ _ Hc) as [[Hr Hself]|[Hr Hself]];
    rewrite Hself in Hsj at 2;
    rewrite subjacs_setup_outputs in Hsj by (simpl; auto);
    cbv zeta in Hsj; cbn [options add_input subjacs] in Hsj;
    rewrite <-(options_configured _ _ Hc) in Hsj.
  all: unfold alloc_jacobian; rewrite Hsj.
  all: repeat (erewrite map_imap_insert_Some by reflexivity).
  all: rewrite map_imap_empty.
  all: unfold subjac_size; cbn [sj_rows sj_val fst snd].
  all: rewrite (var_outputs_configured _ _ Hc), (var_inputs_configured _ _ Hc).
  all: cbv zeta.
  all: destruct (control_neq (options self)) as [Hc1 Hc2].
  all: repeat first [rewrite lookup_insert_eq | rewrite lookup_insert_ne by done].
  all: unfold range; rewrite !length_seq; cbn [from_option v_shape].
  all: rewrite Nat.mul_1_r.
  all: rewrite broadcast_val by (unfold s_mul, np_ones;
         by rewrite length_fmap, length_replicate).
  all: reflexivity.
Qed.

Ltac run_J :=
  unfold np_div;
  repeat first
    [ rewrite bind_Ok; cbv beta
    | progress change (np_square [?r]) with [fmul r r]
    | progress change (s_div ?x [?r]) with [fdiv x r]
    | rewrite broadcast2_scalar_r
    | erewrite setitem_same by (first [lookup_store | solve_length])
    | erewrite setitem_scalar by lookup_store ].

Lemma linearize_fraction kwargs self inputs (p f : list num) (r : num) :
  configured kwargs self → rule (options self) = "fraction" →
  inputs !! "power_in" = Some p →
  inputs !! "power_rating" = Some [r] →
  inputs !! "power_split_fraction" = Some f →
  length p = num_nodes (options self) →
  length f = num_nodes (options self) →
  let o := options self in
  linearize self inputs = Ok (
    <[("component_sizing_margin", "power_rating") :=
        (λ x, fdiv x (fmul r r)) <$> np_neg p]>
    (<[("component_sizing_margin", "power_in") :=
        replicate (num_nodes o) (fdiv fone r)]>
    (<[("power_out_B", "power_split_fraction") := mul_s (np_neg p) (efficiency o)]>
    (<[("power_out_B", "power_in") := mul_s (s_sub fone f) (efficiency o)]>
    (<[("power_out_A", "power_split_fraction") := mul_s p (efficiency o)]>
    (<[("power_out_A", "power_in") := mul_s f (efficiency o)]>
       (alloc_jacobian self))))))).
Proof.
  intros Hc Hrule Hp Hr Hf Hlp Hlf o. subst o.
  unfold linearize, compute_partials. cbv zeta.
  rewrite (alloc_jacobian_configured _ _ Hc). cbv zeta.
  unfold control. rewrite Hrule. rewrite !decide_True by done.
  rewrite !(getitem_Some _ _ _ _ Hp), !(getitem_Some _ _ _ _ Hf),
    !(getitem_Some _ _ _ _ Hr).
  run_J. unfold np_zeros at 1. rewrite length_replicate. reflexivity.
Qed.

Lemma linearize_fixed kwargs self inputs (p s : list num) (r : num) :
  configured kwargs self → rule (options self) = "fixed" →
  inputs !! "power_in" = Some p →
  inputs !! "power_rating" = Some [r] →
  inputs !! "power_split_amount" = Some s →
  length p = num_nodes (options self) →
  length s = num_nodes (options self) →
  let o := options self in
  let nn := num_nodes o in
  let eta := efficiency o in
  let not_enough := zip_with flt p s in
  let enough := zip_with fge p s in
  let untouched := merge not_enough (np_zeros nn) (np_zeros nn) in
  linearize self inputs = Ok (
    <[("component_sizing_margin", "power_rating") :=
        (λ x, fdiv x (fmul r r)) <$> np_neg p]>
    (<[("component_sizing_margin", "power_in") := replicate nn (fdiv fone r)]>
    (<[("power_out_B", "power_split_amount") :=
        merge enough (s_mul (fneg eta) (np_ones nn)) untouched]>
    (<[("power_out_B", "power_in") :=
        merge enough (s_mul eta (np_ones nn)) untouched]>
    (<[("power_out_A", "power_split_amount") :=
        merge enough (s_mul eta (np_ones nn)) untouched]>
    (<[("power_out_A", "power_in") :=
        merge enough (np_zeros nn)
          (merge not_enough (s_mul eta (np_ones nn)) (np_zeros nn))]>
       (alloc_jacobian self))))))).
Proof.
  intros Hc Hrule Hp Hr Hs Hlp Hls o nn eta ne en un. subst o nn eta ne en un.
  unfold linearize, compute_partials. cbv zeta.
  rewrite (alloc_jacobian_configured _ _ Hc). cbv zeta.
  unfold control. rewrite Hrule.
  rewrite !(decide_False (P:="fixed" = "fraction")) by done.
  rewrite !decide_True by done.
  rewrite !(getitem_Some _ _ _ _ Hp), !(getitem_Some _ _ _ _ Hs),
    !(getitem_Some _ _ _ _ Hr).
  run_fixed. run_J. unfold np_zeros at 1. rewrite length_replicate. reflexivity.
Qed.

(** ** The component, node by node *)

Lemma inputs_bound_inv kwargs self inputs :
  configured kwargs self → inputs_bound self inputs →
  let o := options self in
  ∃ (p c : list num) (r : num),
    inputs !! "power_in" = Some p ∧ length p = num_nodes o ∧
    inputs !! "power_rating" = Some [r] ∧
    inputs !! control o = Some c ∧ length c = num_nodes o.
Proof.
  intros Hc Hb o. subst o. unfold inputs_bound in Hb.
  rewrite (var_inputs_configured _ _ Hc) in Hb. cbv zeta in Hb.
  destruct (control_neq (options self)) as [Hc1 Hc2].
  pose proof (Hb "power_in") as Hp.
  pose proof (Hb "power_rating") as Hr.
  pose proof (Hb (control (options self))) as Hk.
  rewrite lookup_insert_eq in Hk.
  rewrite lookup_insert_ne, lookup_insert_eq in Hr by done.
  rewrite !lookup_insert_ne, lookup_insert_eq in Hp by done.
  specialize (Hp _ eq_refl). specialize (Hr _ eq_refl). specialize (Hk _ eq_refl).
  simpl in *.
  destruct (inputs !! "power_in") as [p|]; simplify_eq/=.
  destruct (inputs !! "power_rating") as [[|r [|??]]|]; simplify_eq/=.
  destruct (inputs !! control (options self)) as [c|]; simplify_eq/=.
  by exists p, c, r.
Qed.

Lemma node_insert_eq `{Countable K} (store : gmap K (list num)) k v i :
  node (<[k := v]> store) k i = v !! i.
Proof. unfold node. by rewrite lookup_insert_eq. Qed.

Lemma node_insert_ne `{Countable K} (store : gmap K (list num)) k k' v i :
  k ≠ k' → node (<[k := v]> store) k' i = node store k' i.
Proof. intros. unfold node. by rewrite lookup_insert_ne. Qed.

Lemma node_Some `{Countable K} (store : gmap K (list num)) k (a : list num) i :
  store !! k = Some a → node store k i = a !! i.
Proof. intros Hk. unfold node. by rewrite Hk. Qed.

Lemma lookup_merge_zip (g : num → num → bool) (p s v a : list num)
    (i : nat) (pi si x y : num) :
  p !! i = Some pi → s !! i = Some si → v !! i = Some x → a !! i = Some y →
  merge (zip_with g p s) v a !! i = Some (if g pi si then x else y).
Proof.
  intros Hp Hs Hv Ha. apply lookup_merge; [|done..].
  by rewrite lookup_zip_with, Hp, Hs.
Qed.

Lemma lookup_np_zeros n i : i < n → np_zeros (num:=num) n !! i = Some fzero.
Proof. apply lookup_replicate_2. Qed.

Lemma lookup_np_ones n i : i < n → np_ones (num:=num) n !! i = Some fone.
Proof. apply lookup_replicate_2. Qed.

Ltac lookup_map :=
  repeat (rewrite lookup_insert_ne by done); rewrite lookup_insert_eq.

Ltac node_store :=
  repeat (rewrite node_insert_ne by done); rewrite node_insert_eq.

Ltac node_list Hp Hc :=
  unfold mul_s, s_mul, s_sub, np_neg;
  repeat first
    [ rewrite list_lookup_fmap | rewrite lookup_zip_with
    | rewrite Hp | rewrite Hc ];
  simpl.

Lemma evaluate_nodes kwargs self inputs :
  configured kwargs self → inputs_bound self inputs →
  let o := options self in
  ∃ outs (r : num),
    evaluate self inputs = Ok outs ∧
    inputs !! "power_rating" = Some [r] ∧
    outs !! "component_cost" = Some [fadd (fmul r (cost_inc o)) (cost_base o)] ∧
    outs !! "component_weight"
      = Some [fadd (fmul r (weight_inc o)) (weight_base o)] ∧
    ∀ i, i < num_nodes o →
      ∃ p c : num,
        node inputs "power_in" i = Some p ∧
        node inputs (control o) i = Some c ∧
        node outs "power_out_A" i = Some (split_A o p c) ∧
        node outs "power_out_B" i = Some (split_B o p c) ∧
        node outs "heat_out" i = Some (fmul p (fsub fone (efficiency o))) ∧
        node outs "component_sizing_margin" i = Some (fdiv p r).
Proof.
  intros Hc Hb o.
  destruct (inputs_bound_inv _ _ _ Hc Hb) as (p & c & r & Hp & Hlp & Hr & Hk & Hlc).
  fold o in Hlp, Hk, Hlc.
  assert (Hnode : ∀ i, i < num_nodes o → ∃ pi ci, p !! i = Some pi ∧ c !! i = Some ci).
  { intros i Hi.
    destruct (lookup_lt_is_Some_2 p i) as [pi Hpi]; [lia|].
    destruct (lookup_lt_is_Some_2 c i) as [ci Hci]; [lia|]. eauto. }
  destruct (rule_configured _ _ Hc) as [Hrule|Hrule]; fold o in Hrule.
  - assert (Hctl : control o = "power_split_fraction")
      by (unfold control; by rewrite decide_True).
    rewrite Hctl in *.
    eexists _, r. split; [by eapply evaluate_fraction|]. fold o.
    split; [done|]. do 2 (split; [by lookup_map|]).
    intros i Hi. destruct (Hnode i Hi) as (pi & ci & Hpi & Hci).
    exists pi, ci. rewrite (node_Some _ _ _ _ Hp), (node_Some _ _ _ _ Hk).
    unfold split_A, split_B. rewrite !decide_True by done.
    repeat split; try done; node_store; node_list Hpi Hci; done.
  - assert (Hctl : control o = "power_split_amount").
    { unfold control. rewrite Hrule. by rewrite decide_False. }
    rewrite Hctl in *.
    eexists _, r. split; [by eapply evaluate_fixed|]. fold o.
    split; [done|]. do 2 (split; [by lookup_map|]).
    intros i Hi. destruct (Hnode i Hi) as (pi & ci & Hpi & Hci).
    exists pi, ci. rewrite (node_Some _ _ _ _ Hp), (node_Some _ _ _ _ Hk).
    unfold split_A, split_B. rewrite Hrule. rewrite !decide_False by done.
    repeat split; try done; node_store; try (node_list Hpi Hci; done).
    + erewrite lookup_merge_zip; [| done | done | by node_list Hpi Hci | ].
      2:{ erewrite lookup_merge_zip; [done | done | done | by node_list Hpi Hci |].
          by apply lookup_np_zeros. }
      by destruct (fge pi ci).
    + erewrite lookup_merge_zip; [| done | done | by node_list Hpi Hci | ].
      2:{ erewrite lookup_merge_zip; [done | done | done | |];
          by apply lookup_np_zeros. }
      by destruct (fge pi ci), (flt pi ci).
Qed.

Lemma linearize_nodes kwargs self inputs :
  configured kwargs self → inputs_bound self inputs →
  let o := options self in
  ∃ J (r : num),
    linearize self inputs = Ok J ∧
    inputs !! "power_rating" = Some [r] ∧
    (∀ wrt, J !! ("component_cost", wrt)
            = if decide (wrt = "power_rating") then Some [cost_inc o] else None) ∧
    (∀ wrt, J !! ("component_weight", wrt)
            = if decide (wrt = "power_rating") then Some [weight_inc o] else None) ∧
    ∀ i, i < num_nodes o →
      ∃ p c : num,
        node inputs "power_in" i = Some p ∧
        node inputs (control o) i = Some c ∧
        node J ("power_out_A", "power_in") i = Some (dA_dp o p c) ∧
        node J ("power_out_A", control o) i = Some (dA_dc o p c) ∧
        node J ("power_out_B", "power_in") i = Some (dB_dp o p c) ∧
        node J ("power_out_B", control o) i = Some (dB_dc o p c) ∧
        node J ("heat_out", "power_in") i
          = Some (fmul (fsub fone (efficiency o)) fone) ∧
        node J ("component_sizing_margin", "power_in") i = Some (fdiv fone r) ∧
        node J ("component_sizing_margin", "power_rating") i
          = Some (fdiv (fneg p) (fmul r r)).
Proof.
  intros Hc Hb o.
  destruct (inputs_bound_inv _ _ _ Hc Hb) as (p & c & r & Hp & Hlp & Hr & Hk & Hlc).
  fold o in Hlp, Hk, Hlc.
  assert (Hnode : ∀ i, i < num_nodes o → ∃ pi ci, p !! i = Some pi ∧ c !! i = Some ci).
  { intros i Hi.
    destruct (lookup_lt_is_Some_2 p i) as [pi Hpi]; [lia|].
    destruct (lookup_lt_is_Some_2 c i) as [ci Hci]; [lia|]. eauto. }
  pose proof (alloc_jacobian_configured _ _ Hc) as HJ0. cbv zeta in HJ0.
  fold o in HJ0.
  destruct (rule_configured _ _ Hc) as [Hrule|Hrule]; fold o in Hrule.
  - assert (Hctl : control o = "power_split_fraction")
      by (unfold control; by rewrite decide_True).
    rewrite Hctl in *.
    eexists _, r. split; [by eapply linearize_fraction|]. fold o.
    split; [done|]. rewrite HJ0.
    split; [|split].
    + intros wrt. repeat (rewrite lookup_insert_ne by done).
      rewrite lookup_insert. repeat case_decide; simplify_eq; try done.
      by repeat (rewrite lookup_insert_ne by congruence).
    + intros wrt. repeat (rewrite lookup_insert_ne by done).
      rewrite lookup_insert. repeat case_decide; simplify_eq; try done.
      by repeat (rewrite lookup_insert_ne by congruence).
    + intros i Hi. destruct (Hnode i Hi) as (pi & ci & Hpi & Hci).
      exists pi, ci. rewrite (node_Some _ _ _ _ Hp), (node_Some _ _ _ _ Hk).
      unfold dA_dp, dA_dc, dB_dp, dB_dc. rewrite !decide_True by done.
      repeat split; try done; node_store; try (node_list Hpi Hci; done).
      * unfold s_mul. by rewrite list_lookup_fmap, lookup_np_ones.
      * by apply lookup_replicate_2.
  - assert (Hctl : control o = "power_split_amount").
    { unfold control. rewrite Hrule. by rewrite decide_False. }
    rewrite Hctl in *.
    eexists _, r. split; [by eapply linearize_fixed|]. fold o.
    split; [done|]. rewrite HJ0.
    split; [|split].
    + intros wrt. repeat (rewrite lookup_insert_ne by done).
      rewrite lookup_insert. repeat case_decide; simplify_eq; try done.
      by repeat (rewrite lookup_insert_ne by congruence).
    + intros wrt. repeat (rewrite lookup_insert_ne by done).
      rewrite lookup_insert. repeat case_decide; simplify_eq; try done.
      by repeat (rewrite lookup_insert_ne by congruence).
    + intros i Hi. destruct (Hnode i Hi) as (pi & ci & Hpi & Hci).
      exists pi, ci. rewrite (node_Some _ _ _ _ Hp), (node_Some _ _ _ _ Hk).
      unfold dA_dp, dA_dc, dB_dp, dB_dc. rewrite Hrule.
      rewrite !decide_False by done.
      assert (Hone : ∀ x : num, s_mul x (np_ones (num_nodes o)) !! i = Some (fmul x fone)).
      { intros x. unfold s_mul. by rewrite list_lookup_fmap, lookup_np_ones. }
      assert (Hun : merge (zip_with flt p c) (np_zeros (num_nodes o))
                      (np_zeros (num_nodes o)) !! i = Some fzero).
      { erewrite lookup_merge_zip; [|done|done|by apply lookup_np_zeros..].
        by destruct (flt pi ci). }
      repeat split; try done; node_store; try (node_list Hpi Hci; done).
      * erewrite lookup_merge_zip; [| done | done | by apply lookup_np_zeros |].
        2:{ erewrite lookup_merge_zip; [done | done | done | apply Hone |].
            by apply lookup_np_zeros. }
        done.
      * erewrite lookup_merge_zip; [| done | done | apply Hone | apply Hun].
        done.
      * erewrite lookup_merge_zip; [| done | done | apply Hone | apply Hun].
        done.
      * erewrite lookup_merge_zip; [| done | done | apply Hone | apply Hun].
        done.
      * apply Hone.
      * by apply lookup_replicate_2.
Qed.
(** The outputs that do not depend on the rule, as arrays. *)
Lemma evaluate_common kwargs self inputs :
  configured kwargs self → inputs_bound self inputs →
  let o := options self in
  ∃ outs (p : list num) (r : num),
    evaluate self inputs = Ok outs ∧
    inputs !! "power_in" = Some p ∧
    inputs !! "power_rating" = Some [r] ∧
    outs !! "heat_out" = Some (mul_s p (fsub fone (efficiency o))) ∧
    outs !! "component_cost" = Some [fadd (fmul r (cost_inc o)) (cost_base o)] ∧
    outs !! "component_weight"
      = Some [fadd (fmul r (weight_inc o)) (weight_base o)] ∧
    outs !! "component_sizing_margin" = Some ((λ x, fdiv x r) <$> p).
Proof.
  intros Hc Hb o.
  destruct (inputs_bound_inv _ _ _ Hc Hb) as (p & c & r & Hp & Hlp & Hr & Hk & Hlc).
  fold o in Hlp, Hk, Hlc.
  destruct (rule_configured _ _ Hc) as [Hrule|Hrule]; fold o in Hrule.
  - assert (Hctl : control o = "power_split_fraction")
      by (unfold control; by rewrite decide_True).
    rewrite Hctl in *.
    eexists _, p, r. split; [by eapply evaluate_fraction|]. fold o.
    do 2 (split; [done|]). repeat split; by lookup_map.
  - assert (Hctl : control o = "power_split_amount").
    { unfold control. rewrite Hrule. by rewrite decide_False. }
    rewrite Hctl in *.
    eexists _, p, r. split; [by eapply evaluate_fixed|]. fold o.
    do 2 (split; [done|]). repeat split; by lookup_map.
Qed.
(** ** Linearizing again *)

(** Two stacks of six assignments on the same keys agree when the upper
    ones are the same: the lower ones are overwritten. *)
Lemma insert6_shadow `{Countable K} {V} (m : gmap K V)
    (k1 k2 k3 k4 k5 k6 : K) (v1 v2 v3 v4 v5 v6 w1 w2 w3 w4 w5 w6 : V) :
  <[k1:=v1]> (<[k2:=v2]> (<[k3:=v3]> (<[k4:=v4]> (<[k5:=v5]> (<[k6:=v6]>
    (<[k1:=w1]> (<[k2:=w2]> (<[k3:=w3]> (<[k4:=w4]> (<[k5:=w5]> (<[k6:=w6]> m)))))))))))
  = <[k1:=v1]> (<[k2:=v2]> (<[k3:=v3]> (<[k4:=v4]> (<[k5:=v5]> (<[k6:=v6]> m))))).
Proof.
  apply map_eq. intros k. rewrite !lookup_insert.
  repeat case_decide; done.
Qed.

(** [compute_partials] on the Jacobian left by a linearization at
    another point: every entry it is responsible for is overwritten, and
    the result is the linearization at the new point. *)
Lemma compute_partials_refresh kwargs self inputs inputs' J' :
  configured kwargs self →
  inputs_bound self inputs → inputs_bound self inputs' →
  linearize self inputs' = Ok J' →
  compute_partials self inputs J' = linearize self inputs.
Proof.
  intros Hc Hb Hb' HJ'.
  destruct (inputs_bound_inv _ _ _ Hc Hb) as (p & c & r & Hp & Hlp & Hr & Hk & Hlc).
  destruct (inputs_bound_inv _ _ _ Hc Hb') as (p' & c' & r' & Hp' & Hlp' & Hr' & Hk' & Hlc').
  destruct (rule_configured _ _ Hc) as [Hrule|Hrule].
  - assert (Hctl : control (options self) = "power_split_fraction")
      by (unfold control; by rewrite decide_True).
    rewrite Hctl in *.
    rewrite (linearize_fraction _ _ _ p' c' r' Hc Hrule) in HJ' by done.
    rewrite (linearize_fraction _ _ _ p c r Hc Hrule) by done.
    cbv zeta in *. simplify_eq.
    unfold compute_partials. cbv zeta.
    rewrite (alloc_jacobian_configured _ _ Hc). cbv zeta.
    rewrite Hctl. rewrite Hrule. rewrite !decide_True by done.
    rewrite !(getitem_Some _ _ _ _ Hp), !(getitem_Some _ _ _ _ Hk),
      !(getitem_Some _ _ _ _ Hr).
    run_J. rewrite length_replicate. apply (f_equal Ok), insert6_shadow.
  - assert (Hctl : control (options self) = "power_split_amount").
    { unfold control. rewrite Hrule. by rewrite decide_False. }
    rewrite Hctl in *.
    rewrite (linearize_fixed _ _ _ p' c' r' Hc Hrule) in HJ' by done.
    rewrite (linearize_fixed _ _ _ p c r Hc Hrule) by done.
    cbv zeta in *. simplify_eq.
    unfold compute_partials. cbv zeta.
    rewrite (alloc_jacobian_configured _ _ Hc). cbv zeta.
    rewrite Hctl. rewrite Hrule.
    rewrite !(decide_False (P:="fixed" = "fraction")) by done.
    rewrite !decide_True by done.
    rewrite !(getitem_Some _ _ _ _ Hp), !(getitem_Some _ _ _ _ Hk),
      !(getitem_Some _ _ _ _ Hr).
    run_fixed. run_J. rewrite length_replicate. apply (f_equal Ok), insert6_shadow.
Qed.
(** ** Stores of any content *)

Lemma outputs_allocated_inv kwargs self (outs : gmap string (list num)) :
  configured kwargs self → outputs_allocated self outs →
  let nn := num_nodes (options self) in
  ∃ a b h c w m : list num,
    outs !! "power_out_A" = Some a ∧ length a = nn ∧
    outs !! "power_out_B" = Some b ∧ length b = nn ∧
    outs !! "heat_out" = Some h ∧ length h = nn ∧
    outs !! "component_cost" = Some c ∧ length c = 1 ∧
    outs !! "component_weight" = Some w ∧ length w = 1 ∧
    outs !! "component_sizing_margin" = Some m ∧ length m = nn.
Proof.
  intros Hc [_ Hall] nn. subst nn.
  rewrite (var_outputs_configured _ _ Hc) in Hall. cbv zeta in Hall.
  assert (Hget : ∀ name n u v,
    <["component_sizing_margin" := {| v_shape := num_nodes (options self);
                                      v_units := None; v_val := fone |}]>
      (<["component_weight" := {| v_shape := 1; v_units := Some "kg"; v_val := fone |}]>
      (<["component_cost" := {| v_shape := 1; v_units := Some "USD"; v_val := fone |}]>
      (<["heat_out" := {| v_shape := num_nodes (options self);
                          v_units := Some "W"; v_val := fone |}]>
      (<["power_out_B" := {| v_shape := num_nodes (options self);
                             v_units := Some "W"; v_val := fone |}]>
      (<["power_out_A" := {| v_shape := num_nodes (options self);
                             v_units := Some "W"; v_val := fone |}]>
         (∅ : gmap string (var_meta num))))))) !! name
      = Some {| v_shape := n; v_units := u; v_val := v |} →
    ∃ x : list num, outs !! name = Some x ∧ length x = n).
  { intros name n u v Hm. specialize (Hall _ _ Hm). simpl in Hall.
    destruct (outs !! name) as [x|]; simplify_eq/=. eauto. }
  destruct (Hget "power_out_A" _ _ _ ltac:(lookup_store)) as (a & ? & ?).
  destruct (Hget "power_out_B" _ _ _ ltac:(lookup_store)) as (b & ? & ?).
  destruct (Hget "heat_out" _ _ _ ltac:(lookup_store)) as (h & ? & ?).
  destruct (Hget "component_cost" _ _ _ ltac:(lookup_store)) as (c & ? & ?).
  destruct (Hget "component_weight" _ _ _ ltac:(lookup_store)) as (w & ? & ?).
  destruct (Hget "component_sizing_margin" _ _ _ ltac:(lookup_store)) as (m & ? & ?).
  exists a, b, h, c, w, m. repeat split; done.
Qed.

Lemma compute_fraction_store kwargs self inputs outs0 (p f : list num) (r : num) :
  configured kwargs self → rule (options self) = "fraction" →
  outputs_allocated self outs0 →
  inputs !! "power_in" = Some p →
  inputs !! "power_rating" = Some [r] →
  inputs !! "power_split_fraction" = Some f →
  length p = num_nodes (options self) →
  length f = num_nodes (options self) →
  let o := options self in
  compute self inputs outs0 = Ok (
    <["component_sizing_margin" := (λ x, fdiv x r) <$> p]>
    (<["component_weight" := [fadd (fmul r (weight_inc o)) (weight_base o)]]>
    (<["component_cost" := [fadd (fmul r (cost_inc o)) (cost_base o)]]>
    (<["heat_out" := mul_s p (fsub fone (efficiency o))]>
    (<["power_out_B" := mul_s (zip_with fmul p (s_sub fone f)) (efficiency o)]>
    (<["power_out_A" := mul_s (zip_with fmul p f) (efficiency o)]> outs0)))))).
Proof.
  intros Hc Hrule Hal Hp Hr Hf Hlp Hlf o. subst o.
  destruct (outputs_allocated_inv _ _ _ Hc Hal)
    as (a & b & h & c & w & m & Ha & Hla & Hb & Hlb & Hh & Hlh & Hcc & Hlc
        & Hw & Hlw & Hm & Hlm).
  unfold compute. cbv zeta.
  rewrite Hrule. rewrite decide_True by done.
  rewrite !(getitem_Some _ _ _ _ Hp), !(getitem_Some _ _ _ _ Hf),
    !(getitem_Some _ _ _ _ Hr).
  run. reflexivity.
Qed.

Lemma compute_fixed_store kwargs self inputs outs0 (p s : list num) (r : num) :
  configured kwargs self → rule (options self) = "fixed" →
  outputs_allocated self outs0 →
  inputs !! "power_in" = Some p →
  inputs !! "power_rating" = Some [r] →
  inputs !! "power_split_amount" = Some s →
  length p = num_nodes (options self) →
  length s = num_nodes (options self) →
  let o := options self in
  let nn := num_nodes o in
  let not_enough := zip_with flt p s in
  let enough := zip_with fge p s in
  compute self inputs outs0 = Ok (
    <["component_sizing_margin" := (λ x, fdiv x r) <$> p]>
    (<["component_weight" := [fadd (fmul r (weight_inc o)) (weight_base o)]]>
    (<["component_cost" := [fadd (fmul r (cost_inc o)) (cost_base o)]]>
    (<["heat_out" := mul_s p (fsub fone (efficiency o))]>
    (<["power_out_B" :=
         merge enough (mul_s (zip_with fsub p s) (efficiency o))
           (merge not_enough (np_zeros nn) (np_zeros nn))]>
    (<["power_out_A" :=
         merge enough (mul_s s (efficiency o))
           (merge not_enough (mul_s p (efficiency o)) (np_zeros nn))]>
       outs0)))))).
Proof.
  intros Hc Hrule Hal Hp Hr Hs Hlp Hls o nn ne en. subst o nn ne en.
  destruct (outputs_allocated_inv _ _ _ Hc Hal)
    as (a & b & h & c & w & m & Ha & Hla & Hb & Hlb & Hh & Hlh & Hcc & Hlc
        & Hw & Hlw & Hm & Hlm).
  unfold compute. cbv zeta.
  rewrite Hrule. rewrite decide_False by done. rewrite decide_True by done.
  rewrite !(getitem_Some _ _ _ _ Hp), !(getitem_Some _ _ _ _ Hs),
    !(getitem_Some _ _ _ _ Hr).
  run_fixed. run. reflexivity.
Qed.

Lemma subjacs_configured kwargs self :
  configured kwargs self →
  let o := options self in
  let nn := num_nodes o in
  let diag v := {| sj_rows := Some (range nn); sj_cols := Some (range nn);
                   sj_val := v |} in
  let dense v := {| sj_rows := None; sj_cols := None; sj_val := v |} in
  subjacs self =
    <[("component_sizing_margin", "power_rating") := dense None]>
    (<[("component_sizing_margin", "power_in") := diag None]>
    (<[("component_weight", "power_rating") := dense (Some [weight_inc o])]>
    (<[("component_cost", "power_rating") := dense (Some [cost_inc o])]>
    (<[("heat_out", "power_in") :=
         diag (Some (s_mul (fsub fone (efficiency o)) (np_ones nn)))]>
    (<[("power_out_B", control o) := diag None]>
    (<[("power_out_B", "power_in") := diag None]>
    (<[("power_out_A", control o) := diag None]>
    (<[("power_out_A", "power_in") := diag None]> ∅)))))))).
Proof.
  intros Hc. cbv zeta.
  assert (Hsj : subjacs self = subjacs self) by done.
  destruct (configured_inv _ _ Hc) as [[Hr Hself]|[Hr Hself]];
    rewrite Hself in Hsj at 2;
    rewrite subjacs_setup_outputs in Hsj by (simpl; auto);
    cbv zeta in Hsj; cbn [options add_input subjacs] in Hsj;
    rewrite <-(options_configured _ _ Hc) in Hsj; exact Hsj.
Qed.

Lemma jacobian_allocated_inv (kwargs : list (kwarg num)) self
    (J : gmap (string * string) (list num)) :
  configured kwargs self → jacobian_allocated self J →
  let o := options self in
  let nn := num_nodes o in
  ∃ ap ac bp bc hp cr wr mp mr : list num,
    J !! ("power_out_A", "power_in") = Some ap ∧ length ap = nn ∧
    J !! ("power_out_A", control o) = Some ac ∧ length ac = nn ∧
    J !! ("power_out_B", "power_in") = Some bp ∧ length bp = nn ∧
    J !! ("power_out_B", control o) = Some bc ∧ length bc = nn ∧
    J !! ("heat_out", "power_in") = Some hp ∧ length hp = nn ∧
    J !! ("component_cost", "power_rating") = Some cr ∧ length cr = 1 ∧
    J !! ("component_weight", "power_rating") = Some wr ∧ length wr = 1 ∧
    J !! ("component_sizing_margin", "power_in") = Some mp ∧ length mp = nn ∧
    J !! ("component_sizing_margin", "power_rating") = Some mr ∧ length mr = nn.
Proof.
  intros Hc [_ Hall] o nn. subst o nn.
  pose proof (subjacs_configured _ _ Hc) as Hsj. cbv zeta in Hsj.
  destruct (control_neq (options self)) as [Hc1 Hc2].
  assert (Hsize : ∀ key m n,
    subjacs self !! key = Some m → subjac_size self key m = n →
    ∃ x : list num, J !! key = Some x ∧ length x = n).
  { intros key m n Hm Hn. specialize (Hall _ _ Hm). simpl in Hall.
    destruct (J !! key) as [x|]; simplify_eq/=. eauto. }
  assert (Hd : ∀ key v, subjac_size self key
      {| sj_rows := Some (range (num_nodes (options self)));
         sj_cols := Some (range (num_nodes (options self))); sj_val := v |}
      = num_nodes (options self)).
  { intros key v. unfold subjac_size, range. simpl. apply length_seq. }
  assert (Hone : ∀ name v, name = "component_cost" ∨ name = "component_weight" →
    subjac_size self (name, "power_rating")
      {| sj_rows := None; sj_cols := None; sj_val := v |} = 1).
  { intros name v Hname. unfold subjac_size. cbn [sj_rows fst snd].
    rewrite (var_outputs_configured _ _ Hc), (var_inputs_configured _ _ Hc).
    cbv zeta.
    rewrite (lookup_insert_ne _ (control _)), lookup_insert_eq by done.
    destruct Hname as [-> | ->];
      repeat (rewrite lookup_insert_ne by done); rewrite lookup_insert_eq; done. }
  assert (Hmr : ∀ v,
    subjac_size self ("component_sizing_margin", "power_rating")
      {| sj_rows := None; sj_cols := None; sj_val := v |}
    = num_nodes (options self)).
  { intros v. unfold subjac_size. cbn [sj_rows fst snd].
    rewrite (var_outputs_configured _ _ Hc), (var_inputs_configured _ _ Hc).
    cbv zeta.
    rewrite (lookup_insert_ne _ (control _)), !lookup_insert_eq by done.
    simpl. lia. }
  edestruct (Hsize ("power_out_A", "power_in")) as (ap & ? & ?);
    [rewrite Hsj; repeat (rewrite lookup_insert_ne by congruence);
     apply lookup_insert_eq | apply Hd |].
  edestruct (Hsize ("power_out_A", control (options self))) as (ac & ? & ?);
    [rewrite Hsj; repeat (rewrite lookup_insert_ne by congruence);
     apply lookup_insert_eq | apply Hd |].
  edestruct (Hsize ("power_out_B", "power_in")) as (bp & ? & ?);
    [rewrite Hsj; repeat (rewrite lookup_insert_ne by congruence);
     apply lookup_insert_eq | apply Hd |].
  edestruct (Hsize ("power_out_B", control (options self))) as (bc & ? & ?);
    [rewrite Hsj; repeat (rewrite lookup_insert_ne by congruence);
     apply lookup_insert_eq | apply Hd |].
  edestruct (Hsize ("heat_out", "power_in")) as (hp & ? & ?);
    [rewrite Hsj; repeat (rewrite lookup_insert_ne by congruence);
     apply lookup_insert_eq | apply Hd |].
  edestruct (Hsize ("component_cost", "power_rating")) as (cr & ? & ?);
    [rewrite Hsj; repeat (rewrite lookup_insert_ne by congruence);
     apply lookup_insert_eq | apply Hone; auto |].
  edestruct (Hsize ("component_weight", "power_rating")) as (wr & ? & ?);
    [rewrite Hsj; repeat (rewrite lookup_insert_ne by congruence);
     apply lookup_insert_eq | apply Hone; auto |].
  edestruct (Hsize ("component_sizing_margin", "power_in")) as (mp & ? & ?);
    [rewrite Hsj; repeat (rewrite lookup_insert_ne by congruence);
     apply lookup_insert_eq | apply Hd |].
  edestruct (Hsize ("component_sizing_margin", "power_rating")) as (mr & ? & ?);
    [rewrite Hsj; repeat (rewrite lookup_insert_ne by congruence);
     apply lookup_insert_eq | apply Hmr |].
  exists ap, ac, bp, bc, hp, cr, wr, mp, mr. repeat split; done.
Qed.

Lemma compute_partials_fraction_store (kwargs : list (kwarg num)) self inputs
    (J0 : gmap (string * string) (list num)) (p f : list num) (r : num) :
  configured kwargs self → rule (options self) = "fraction" →
  jacobian_allocated self J0 →
  inputs !! "power_in" = Some p →
  inputs !! "power_rating" = Some [r] →
  inputs !! "power_split_fraction" = Some f →
  length p = num_nodes (options self) →
  length f = num_nodes (options self) →
  let o := options self in
  compute_partials self inputs J0 = Ok (
    <[("component_sizing_margin", "power_rating") :=
        (λ x, fdiv x (fmul r r)) <$> np_neg p]>
    (<[("component_sizing_margin", "power_in") :=
        replicate (num_nodes o) (fdiv fone r)]>
    (<[("power_out_B", "power_split_fraction") := mul_s (np_neg p) (efficiency o)]>
    (<[("power_out_B", "power_in") := mul_s (s_sub fone f) (efficiency o)]>
    (<[("power_out_A", "power_split_fraction") := mul_s p (efficiency o)]>
    (<[("power_out_A", "power_in") := mul_s f (efficiency o)]> J0)))))).
Proof.
  intros Hc Hrule Hal Hp Hr Hf Hlp Hlf o. subst o.
  destruct (jacobian_allocated_inv _ _ _ Hc Hal)
    as (ap & ac & bp & bc & hp & cr & wr & mp & mr & Hap & Hlap & Hac & Hlac
        & Hbp & Hlbp & Hbc & Hlbc & _ & _ & _ & _ & _ & _ & Hmp & Hlmp & Hmr & Hlmr).
  assert (Hctl : control (options self) = "power_split_fraction")
    by (unfold control; by rewrite decide_True).
  rewrite Hctl in Hac, Hbc.
  unfold compute_partials. cbv zeta.
  rewrite Hrule. rewrite !decide_True by done.
  rewrite !(getitem_Some _ _ _ _ Hp), !(getitem_Some _ _ _ _ Hf),
    !(getitem_Some _ _ _ _ Hr).
  run_J. rewrite Hlmp. reflexivity.
Qed.

Lemma compute_partials_fixed_store (kwargs : list (kwarg num)) self inputs
    (J0 : gmap (string * string) (list num)) (p s : list num) (r : num) :
  configured kwargs self → rule (options self) = "fixed" →
  jacobian_allocated self J0 →
  inputs !! "power_in" = Some p →
  inputs !! "power_rating" = Some [r] →
  inputs !! "power_split_amount" = Some s →
  length p = num_nodes (options self) →
  length s = num_nodes (options self) →
  let o := options self in
  let nn := num_nodes o in
  let eta := efficiency o in
  let not_enough := zip_with flt p s in
  let enough := zip_with fge p s in
  let untouched := merge not_enough (np_zeros nn) (np_zeros nn) in
  compute_partials self inputs J0 = Ok (
    <[("component_sizing_margin", "power_rating") :=
        (λ x, fdiv x (fmul r r)) <$> np_neg p]>
    (<[("component_sizing_margin", "power_in") := replicate nn (fdiv fone r)]>
    (<[("power_out_B", "power_split_amount") :=
        merge enough (s_mul (fneg eta) (np_ones nn)) untouched]>
    (<[("power_out_B", "power_in") :=
        merge enough (s_mul eta (np_ones nn)) untouched]>
    (<[("power_out_A", "power_split_amount") :=
        merge enough (s_mul eta (np_ones nn)) untouched]>
    (<[("power_out_A", "power_in") :=
        merge enough (np_zeros nn)
          (merge not_enough (s_mul eta (np_ones nn)) (np_zeros nn))]> J0)))))).
Proof.
  intros Hc Hrule Hal Hp Hr Hs Hlp Hls o nn eta ne en un. subst o nn eta ne en un.
  destruct (jacobian_allocated_inv _ _ _ Hc Hal)
    as (ap & ac & bp & bc & hp & cr & wr & mp & mr & Hap & Hlap & Hac & Hlac
        & Hbp & Hlbp & Hbc & Hlbc & _ & _ & _ & _ & _ & _ & Hmp & Hlmp & Hmr & Hlmr).
  assert (Hctl : control (options self) = "power_split_amount").
  { unfold control. rewrite Hrule. by rewrite decide_False. }
  rewrite Hctl in Hac, Hbc.
  unfold compute_partials. cbv zeta.
  rewrite Hrule.
  rewrite !(decide_False (P:="fixed" = "fraction")) by done.
  rewrite !decide_True by done.
  rewrite !(getitem_Some _ _ _ _ Hp), !(getitem_Some _ _ _ _ Hs),
    !(getitem_Some _ _ _ _ Hr).
  run_fixed. run_J. rewrite Hlmp. reflexivity.
Qed.
(** ** A missing input *)

Lemma getitem_None `{Countable K} (show : K → string)
    (store : gmap K (list num)) (k : K) :
  store !! k = None → getitem show store k = Raise (KeyError (show k)).
Proof. intros Hk. unfold getitem. by rewrite Hk. Qed.

Lemma calls_without_input (kwargs : list (kwarg num)) self inputs (m : string) :
  configured kwargs self → inputs_bound self inputs →
  m = "power_in" ∨ m = "power_rating" ∨ m = control (options self) →
  evaluate self (delete m inputs) = Raise (KeyError m) ∧
  linearize self (delete m inputs) = Raise (KeyError m).
Proof.
  intros Hc Hb Hm.
  destruct (inputs_bound_inv _ _ _ Hc Hb) as (p & c & r & Hp & Hlp & Hr & Hk & Hlc).
  destruct (control_neq (options self)) as [Hc1 Hc2].
  unfold evaluate, linearize, compute, compute_partials. cbv zeta.
  rewrite (alloc_outputs_configured _ _ Hc), (alloc_jacobian_configured _ _ Hc).
  cbv zeta.
  assert (Hget : ∀ k v, inputs !! k = Some v →
    getitem show_name (delete m inputs) k
    = if decide (m = k) then Raise (KeyError m) else Ok v).
  { intros k v Hv. case_decide as Hmk.
    - subst k. apply getitem_None, lookup_delete_eq.
    - apply getitem_Some. by rewrite lookup_delete_ne. }
  destruct (rule_configured _ _ Hc) as [Hrule|Hrule].
  - assert (Hctl : control (options self) = "power_split_fraction")
      by (unfold control; by rewrite decide_True).
    rewrite Hctl in *. rewrite Hrule. rewrite !decide_True by done.
    pose proof (Hget _ _ Hp) as Gp. pose proof (Hget _ _ Hr) as Gr.
    pose proof (Hget _ _ Hk) as Gk.
    destruct Hm as [-> | [-> | ->]];
      (first [rewrite decide_True in Gp by done | rewrite decide_False in Gp by done]);
      (first [rewrite decide_True in Gr by done | rewrite decide_False in Gr by done]);
      (first [rewrite decide_True in Gk by done | rewrite decide_False in Gk by done]);
      rewrite !Gp, !Gr, !Gk;
      split; run; run_J; reflexivity.
  - assert (Hctl : control (options self) = "power_split_amount").
    { unfold control. rewrite Hrule. by rewrite decide_False. }
    rewrite Hctl in *. rewrite Hrule.
    rewrite !(decide_False (P:="fixed" = "fraction")) by done.
    rewrite !(decide_True (P:="fixed" = "fixed")) by done.
    pose proof (Hget _ _ Hp) as Gp. pose proof (Hget _ _ Hr) as Gr.
    pose proof (Hget _ _ Hk) as Gk.
    destruct Hm as [-> | [-> | ->]];
      (first [rewrite decide_True in Gp by done | rewrite decide_False in Gp by done]);
      (first [rewrite decide_True in Gr by done | rewrite decide_False in Gr by done]);
      (first [rewrite decide_True in Gk by done | rewrite decide_False in Gk by done]);
      rewrite !Gp, !Gr, !Gk;
      split; run_fixed; run; run_J; reflexivity.
Qed.
End component_facts.

(** ** Example configurations are configured *)

Lemma configured_component_of {num : Type} `{!Arith num} (kwargs : list (kwarg num)) :
  rule (foldl set_option initialize kwargs) = "fraction"
  ∨ rule (foldl set_option initialize kwargs) = "fixed" →
  configured kwargs (component_of kwargs).
Proof.
  intros Hrule. unfold configured, component_of, PowerSplit.
  eexists. split; [reflexivity|].
  unfold setup. cbv zeta. cbn [options add_input].
  destruct Hrule as [Hr|Hr]; rewrite Hr.
  - by rewrite decide_True.
  - rewrite decide_False by done. by rewrite decide_True.
Qed.

(** ** Real arithmetic *)

Lemma Rltb_true (x y : R) : Rltb x y = true ↔ (x < y)%R.
Proof. unfold Rltb. destruct (Rlt_dec x y); split; intros; done. Qed.

Lemma Rgeb_negb_ltb (x y : R) : Rgeb x y = negb (Rltb x y).
Proof.
  unfold Rgeb, Rltb. destruct (Rge_dec x y), (Rlt_dec x y); simpl; try done; lra.
Qed.

(** The node-wise functions of the fixed-amount rule, over the reals. *)
Lemma split_fixed_R (o : Options R) (p c : R) :
  rule o = "fixed" →
  ((p < c)%R → split_A o p c = (p * efficiency o)%R ∧ split_B o p c = 0%R) ∧
  (¬ (p < c)%R → split_A o p c = (c * efficiency o)%R
                 ∧ split_B o p c = ((p - c) * efficiency o)%R).
Proof.
  intros Hrule. unfold split_A, split_B. rewrite Hrule.
  rewrite !decide_False by done. simpl.
  rewrite Rgeb_negb_ltb.
  split; intros Hlt.
  - apply Rltb_true in Hlt. by rewrite Hlt.
  - destruct (Rltb p c) eqn:E; [by apply Rltb_true in E|done].
Qed.

Lemma partials_fixed_R (o : Options R) (p c : R) :
  rule o = "fixed" →
  ((p < c)%R → dA_dp o p c = efficiency o ∧ dA_dc o p c = 0%R
               ∧ dB_dp o p c = 0%R ∧ dB_dc o p c = 0%R) ∧
  (¬ (p < c)%R → dA_dp o p c = 0%R ∧ dA_dc o p c = efficiency o
                 ∧ dB_dp o p c = efficiency o
                 ∧ dB_dc o p c = (- efficiency o)%R).
Proof.
  intros Hrule. unfold dA_dp, dA_dc, dB_dp, dB_dc. rewrite Hrule.
  rewrite !decide_False by done. simpl.
  rewrite Rgeb_negb_ltb.
  split; intros Hlt.
  - apply Rltb_true in Hlt. rewrite Hlt. simpl. repeat split; try done; lra.
  - destruct (Rltb p c) eqn:E; [by apply Rltb_true in E|]. simpl.
    repeat split; try done; lra.
Qed.

(** ** Comparisons

    The two comparisons of [compute] are exclusive over the reals and in
    binary64; in binary64 they are not exhaustive. *)

Lemma SFcompare_antisym (x y : f64) :
  SFcompare y x = CompOpp <$> SFcompare x y.
Proof.
  destruct x as [sx|sx| |sx mx ex], y as [sy|sy| |sy my ey]; simpl;
    try done; try (by destruct sx); try (by destruct sy);
    try (by destruct sx, sy).
  assert (Hm : Pos.compare_cont Eq my mx = CompOpp (Pos.compare_cont Eq mx my))
    by (symmetry; apply (Pos.compare_cont_antisym mx my Eq)).
  rewrite (Z.compare_antisym ex ey), Hm.
  destruct sx, sy, (ex ?= ey)%Z; simpl; try done;
    by destruct (Pos.compare_cont Eq mx my).
Qed.

Lemma Rltb_not_Rgeb (x y : R) : Rltb x y = true → Rgeb x y = false.
Proof. intros H. by rewrite Rgeb_negb_ltb, H. Qed.

Lemma Reqb_Rgeb (x y : R) : Reqb x y = true → Rgeb x y = true.
Proof.
  unfold Reqb, Rgeb. destruct (Req_dec_T x y), (Rge_dec x y); try done. lra.
Qed.

#[export] Instance R_comparisons : Comparisons R :=
  {| feq := Reqb; flt_not_fge := Rltb_not_Rgeb; feq_fge := Reqb_Rgeb |}.

Lemma SFltb_not_SFleb (x y : f64) : SFltb x y = true → SFleb y x = false.
Proof.
  unfold SFltb, SFleb. rewrite (SFcompare_antisym x y).
  by destruct (SFcompare x y) as [[]|].
Qed.

Lemma SFeqb_SFleb (x y : f64) : SFeqb x y = true → SFleb y x = true.
Proof.
  unfold SFeqb, SFleb. rewrite (SFcompare_antisym x y).
  by destruct (SFcompare x y) as [[]|].
Qed.

#[export] Instance F64_comparisons : Comparisons f64 :=
  {| feq := SFeqb; flt_not_fge := SFltb_not_SFleb; feq_fge := SFeqb_SFleb |}.

(** * The claims *)




(** C2, as stated, fails in binary64 at a node where [power_in] is NaN:
    [power_in < split_amount] is false, so the claim's "otherwise"
    applies and asks for [split_amount * eta] and [(power_in -
    split_amount) * eta], that is 76 and NaN; [compute] returns 0 and
    0. *)
Lemma fixed_amount_evaluate_fails_at_nan :
  inputs_bound (component_of fixed_kwargs) nan_inputs ∧
  node nan_inputs "power_in" 1 = Some S754_nan ∧
  node nan_inputs "power_split_amount" 1 = Some (of_Z 80) ∧
  flt (num:=f64) S754_nan (of_Z 80) = false ∧
  result_get (evaluate (component_of fixed_kwargs) nan_inputs) "power_out_A"
    = Some [fmul (of_Z 30) (dec 95 100); S754_zero false;
            fmul (of_Z 40) (dec 95 100)] ∧
  result_get (evaluate (component_of fixed_kwargs) nan_inputs) "power_out_B"
    = Some [fmul (fsub (of_Z 100) (of_Z 30)) (dec 95 100); S754_zero false;
            fmul (fsub (of_Z 40) (of_Z 40)) (dec 95 100)] ∧
  SFeqb (S754_zero false) (fmul (of_Z 80) (dec 95 100)) = false ∧
  fmul (fsub S754_nan (of_Z 80)) (dec 95 100) = S754_nan.
Proof.
  split; [apply (bool_decide_unpack _); vm_compute; reflexivity|].
  repeat split; vm_compute; reflexivity.
Qed.

(** C2, amended.  Fixed-amount rule, [evaluate], in any arithmetic and
    so in binary64: the evaluation succeeds and, at every node, if
    [power_in < split_amount] holds the outputs are [power_in * eta]
    and [0] (saturation, not an error); if [power_in >= split_amount]
    holds they are [split_amount * eta] and [(power_in - split_amount)
    * eta]; [power_in == split_amount] falls in the second case.
    Nothing is said of a node where neither comparison holds. *)
Theorem fixed_amount_evaluate_by_comparison {num : Type} `{!Arith num}
    `{!Comparisons num}
    (kwargs : list (kwarg num)) (self : system num)
    (inputs : gmap string (list num)) :
  configured kwargs self → rule (options self) = "fixed" →
  inputs_bound self inputs →
  let eta := efficiency (options self) in
  ∃ outs, evaluate self inputs = Ok outs ∧
    ∀ i, i < num_nodes (options self) →
      ∃ p s : num,
        node inputs "power_in" i = Some p ∧
        node inputs "power_split_amount" i = Some s ∧
        (flt p s = true →
           node outs "power_out_A" i = Some (fmul p eta) ∧
           node outs "power_out_B" i = Some fzero) ∧
        (fge p s = true →
           node outs "power_out_A" i = Some (fmul s eta) ∧
           node outs "power_out_B" i = Some (fmul (fsub p s) eta)) ∧
        (feq p s = true →
           node outs "power_out_A" i = Some (fmul s eta) ∧
           node outs "power_out_B" i = Some (fmul (fsub p s) eta)).
Proof.
  intros Hc Hrule Hb eta.
  destruct (evaluate_nodes _ _ _ Hc Hb) as (outs & r & Hev & _ & _ & _ & Hn).
  exists outs. split; [done|]. intros i Hi.
  destruct (Hn i Hi) as (p & s & Hp & Hs & HA & HB & _).
  assert (Hctl : control (options self) = "power_split_amount").
  { unfold control. rewrite Hrule. by rewrite decide_False. }
  rewrite Hctl in Hs.
  exists p, s. do 2 (split; [done|]).
  rewrite HA, HB. unfold split_A, split_B. rewrite Hrule.
  rewrite !decide_False by done. fold eta.
  assert (Hge : fge p s = true →
            Some (if fge p s then fmul s eta
                  else if flt p s then fmul p eta else fzero) = Some (fmul s eta) ∧
            Some (if fge p s then fmul (fsub p s) eta else fzero)
              = Some (fmul (fsub p s) eta)).
  { intros H. by rewrite H. }
  split; [|split].
  - intros Hlt. rewrite (flt_not_fge _ _ Hlt), Hlt. done.
  - exact Hge.
  - intros Heq. apply Hge. by apply feq_fge.
Qed.

Lemma fixed_amount_evaluate_by_comparison_witness :
  configured (num:=f64) fixed_kwargs (component_of fixed_kwargs) ∧
  rule (options (component_of (num:=f64) fixed_kwargs)) = "fixed" ∧
  inputs_bound (num:=f64) (component_of fixed_kwargs) fixed_inputs ∧
  let self := component_of (num:=f64) fixed_kwargs in
  let eta := efficiency (options self) in
  ∃ outs, evaluate self fixed_inputs = Ok outs ∧
    ∀ i, i < num_nodes (options self) →
      ∃ p s : f64,
        node fixed_inputs "power_in" i = Some p ∧
        node fixed_inputs "power_split_amount" i = Some s ∧
        (flt p s = true →
           node outs "power_out_A" i = Some (fmul p eta) ∧
           node outs "power_out_B" i = Some fzero) ∧
        (fge p s = true →
           node outs "power_out_A" i = Some (fmul s eta) ∧
           node outs "power_out_B" i = Some (fmul (fsub p s) eta)) ∧
        (feq p s = true →
           node outs "power_out_A" i = Some (fmul s eta) ∧
           node outs "power_out_B" i = Some (fmul (fsub p s) eta)).
Proof.
  assert (Hc : configured (num:=f64) fixed_kwargs (component_of fixed_kwargs))
    by (apply configured_component_of; right; reflexivity).
  assert (Hr : rule (options (component_of (num:=f64) fixed_kwargs)) = "fixed")
    by reflexivity.
  assert (Hb : inputs_bound (num:=f64) (component_of fixed_kwargs) fixed_inputs)
    by (apply (bool_decide_unpack _); vm_compute; reflexivity).
  split; [exact Hc|]. split; [exact Hr|]. split; [exact Hb|].
  exact (fixed_amount_evaluate_by_comparison _ _ _ Hc Hr Hb).
Defined.

(** Over the reals one of the two comparisons always holds, and the
    second case is "otherwise". *)
Lemma fixed_amount_evaluate_real (kwargs : list (kwarg R)) (self : system R)
    (inputs : gmap string (list R)) :
  configured kwargs self → rule (options self) = "fixed" →
  inputs_bound self inputs →
  let eta := efficiency (options self) in
  ∃ outs, evaluate self inputs = Ok outs ∧
    ∀ i, i < num_nodes (options self) →
      ∃ p s : R,
        node inputs "power_in" i = Some p ∧
        node inputs "power_split_amount" i = Some s ∧
        ((p < s)%R →
           node outs "power_out_A" i = Some (p * eta)%R ∧
           node outs "power_out_B" i = Some 0%R) ∧
        (¬ (p < s)%R →
           node outs "power_out_A" i = Some (s * eta)%R ∧
           node outs "power_out_B" i = Some ((p - s) * eta)%R) ∧
        (p = s →
           node outs "power_out_A" i = Some (s * eta)%R ∧
           node outs "power_out_B" i = Some ((p - s) * eta)%R).
Proof.
  intros Hc Hrule Hb eta.
  destruct (evaluate_nodes _ _ _ Hc Hb) as (outs & r & Hev & _ & _ & _ & Hn).
  exists outs. split; [done|]. intros i Hi.
  destruct (Hn i Hi) as (p & s & Hp & Hs & HA & HB & _).
  assert (Hctl : control (options self) = "power_split_amount").
  { unfold control. rewrite Hrule. by rewrite decide_False. }
  rewrite Hctl in Hs.
  exists p, s. do 2 (split; [done|]).
  destruct (split_fixed_R (options self) p s Hrule) as [Hlt Hge].
  rewrite HA, HB. fold eta in Hlt, Hge.
  split; [|split].
  - intros H. destruct (Hlt H) as [-> ->]. done.
  - intros H. destruct (Hge H) as [-> ->]. done.
  - intros H. destruct Hge as [-> ->]; [lra|done].
Qed.

(** C3, as stated, fails in binary64 at a node where [power_in] is NaN:
    [power_in < split_amount] is false, so the claim's "otherwise"
    applies and asks for the partials [0], [eta], [eta] and [-eta];
    [compute_partials] leaves all four at 0. *)
Lemma fixed_amount_linearize_fails_at_nan :
  inputs_bound (component_of fixed_kwargs) nan_inputs ∧
  node nan_inputs "power_in" 1 = Some S754_nan ∧
  node nan_inputs "power_split_amount" 1 = Some (of_Z 80) ∧
  flt (num:=f64) S754_nan (of_Z 80) = false ∧
  result_get (linearize (component_of fixed_kwargs) nan_inputs)
    ("power_out_A", "power_split_amount") ≫= (.!! 1) = Some (S754_zero false) ∧
  result_get (linearize (component_of fixed_kwargs) nan_inputs)
    ("power_out_B", "power_in") ≫= (.!! 1) = Some (S754_zero false) ∧
  result_get (linearize (component_of fixed_kwargs) nan_inputs)
    ("power_out_B", "power_split_amount") ≫= (.!! 1) = Some (S754_zero false) ∧
  SFeqb (S754_zero false) (dec 95 100) = false ∧
  SFeqb (S754_zero false) (fneg (dec 95 100)) = false.
Proof.
  split; [apply (bool_decide_unpack _); vm_compute; reflexivity|].
  repeat split; vm_compute; reflexivity.
Qed.

(** C3, amended.  Fixed-amount rule, [linearize], in any arithmetic and
    so in binary64: the call succeeds and, at every node, if [power_in <
    split_amount] holds the partial of [power_out_A] with respect to
    [power_in] is [eta] (computed as [eta * 1]) and the three others
    are zero; if [power_in >= split_amount] holds, equality included,
    the partials are [0] and [eta] for [power_out_A], and [eta] and
    [-eta] for [power_out_B] (computed as [eta * 1] and [(-eta) * 1]).
    Nothing is said of a node where neither comparison holds. *)
Theorem fixed_amount_linearize_by_comparison {num : Type} `{!Arith num}
    `{!Comparisons num}
    (kwargs : list (kwarg num)) (self : system num)
    (inputs : gmap string (list num)) :
  configured kwargs self → rule (options self) = "fixed" →
  inputs_bound self inputs →
  let eta := efficiency (options self) in
  ∃ J, linearize self inputs = Ok J ∧
    ∀ i, i < num_nodes (options self) →
      ∃ p s : num,
        node inputs "power_in" i = Some p ∧
        node inputs "power_split_amount" i = Some s ∧
        (flt p s = true →
           node J ("power_out_A", "power_in") i = Some (fmul eta fone) ∧
           node J ("power_out_A", "power_split_amount") i = Some fzero ∧
           node J ("power_out_B", "power_in") i = Some fzero ∧
           node J ("power_out_B", "power_split_amount") i = Some fzero) ∧
        (fge p s = true →
           node J ("power_out_A", "power_in") i = Some fzero ∧
           node J ("power_out_A", "power_split_amount") i = Some (fmul eta fone) ∧
           node J ("power_out_B", "power_in") i = Some (fmul eta fone) ∧
           node J ("power_out_B", "power_split_amount") i
             = Some (fmul (fneg eta) fone)) ∧
        (feq p s = true →
           node J ("power_out_A", "power_in") i = Some fzero ∧
           node J ("power_out_A", "power_split_amount") i = Some (fmul eta fone) ∧
           node J ("power_out_B", "power_in") i = Some (fmul eta fone) ∧
           node J ("power_out_B", "power_split_amount") i
             = Some (fmul (fneg eta) fone)).
Proof.
  intros Hc Hrule Hb eta.
  destruct (linearize_nodes _ _ _ Hc Hb) as (J & r & Hlin & _ & _ & _ & Hn).
  exists J. split; [done|]. intros i Hi.
  destruct (Hn i Hi) as (p & s & Hp & Hs & HAp & HAc & HBp & HBc & _).
  assert (Hctl : control (options self) = "power_split_amount").
  { unfold control. rewrite Hrule. by rewrite decide_False. }
  rewrite Hctl in Hs, HAc, HBc.
  exists p, s. do 2 (split; [done|]).
  rewrite HAp, HAc, HBp, HBc. unfold dA_dp, dA_dc, dB_dp, dB_dc. rewrite Hrule.
  rewrite !decide_False by done. fold eta.
  assert (Hge : fge p s = true →
    Some (if fge p s then fzero
          else if flt p s then fmul eta fone else fzero) = Some fzero ∧
    Some (if fge p s then fmul eta fone else fzero) = Some (fmul eta fone) ∧
    Some (if fge p s then fmul eta fone else fzero) = Some (fmul eta fone) ∧
    Some (if fge p s then fmul (fneg eta) fone else fzero)
      = Some (fmul (fneg eta) fone)).
  { intros H. by rewrite H. }
  split; [|split].
  - intros Hlt. rewrite (flt_not_fge _ _ Hlt), Hlt. done.
  - exact Hge.
  - intros Heq. apply Hge. by apply feq_fge.
Qed.

Lemma fixed_amount_linearize_by_comparison_witness :
  configured (num:=f64) fixed_kwargs (component_of fixed_kwargs) ∧
  rule (options (component_of (num:=f64) fixed_kwargs)) = "fixed" ∧
  inputs_bound (num:=f64) (component_of fixed_kwargs) fixed_inputs ∧
  let self := component_of (num:=f64) fixed_kwargs in
  let eta := efficiency (options self) in
  ∃ J, linearize self fixed_inputs = Ok J ∧
    ∀ i, i < num_nodes (options self) →
      ∃ p s : f64,
        node fixed_inputs "power_in" i = Some p ∧
        node fixed_inputs "power_split_amount" i = Some s ∧
        (flt p s = true →
           node J ("power_out_A", "power_in") i = Some (fmul eta fone) ∧
           node J ("power_out_A", "power_split_amount") i = Some fzero ∧
           node J ("power_out_B", "power_in") i = Some fzero ∧
           node J ("power_out_B", "power_split_amount") i = Some fzero) ∧
        (fge p s = true →
           node J ("power_out_A", "power_in") i = Some fzero ∧
           node J ("power_out_A", "power_split_amount") i = Some (fmul eta fone) ∧
           node J ("power_out_B", "power_in") i = Some (fmul eta fone) ∧
           node J ("power_out_B", "power_split_amount") i
             = Some (fmul (fneg eta) fone)) ∧
        (feq p s = true →
           node J ("power_out_A", "power_in") i = Some fzero ∧
           node J ("power_out_A", "power_split_amount") i = Some (fmul eta fone) ∧
           node J ("power_out_B", "power_in") i = Some (fmul eta fone) ∧
           node J ("power_out_B", "power_split_amount") i
             = Some (fmul (fneg eta) fone)).
Proof.
  assert (Hc : configured (num:=f64) fixed_kwargs (component_of fixed_kwargs))
    by (apply configured_component_of; right; reflexivity).
  assert (Hr : rule (options (component_of (num:=f64) fixed_kwargs)) = "fixed")
    by reflexivity.
  assert (Hb : inputs_bound (num:=f64) (component_of fixed_kwargs) fixed_inputs)
    by (apply (bool_decide_unpack _); vm_compute; reflexivity).
  split; [exact Hc|]. split; [exact Hr|]. split; [exact Hb|].
  exact (fixed_amount_linearize_by_comparison _ _ _ Hc Hr Hb).
Defined.

(** Over the reals one of the two comparisons always holds, and the
    second case is "otherwise". *)
Lemma fixed_amount_linearize_real (kwargs : list (kwarg R)) (self : system R)
    (inputs : gmap string (list R)) :
  configured kwargs self → rule (options self) = "fixed" →
  inputs_bound self inputs →
  let eta := efficiency (options self) in
  ∃ J, linearize self inputs = Ok J ∧
    ∀ i, i < num_nodes (options self) →
      ∃ p s : R,
        node inputs "power_in" i = Some p ∧
        node inputs "power_split_amount" i = Some s ∧
        ((p < s)%R →
           node J ("power_out_A", "power_in") i = Some eta ∧
           node J ("power_out_A", "power_split_amount") i = Some 0%R ∧
           node J ("power_out_B", "power_in") i = Some 0%R ∧
           node J ("power_out_B", "power_split_amount") i = Some 0%R) ∧
        (¬ (p < s)%R →
           node J ("power_out_A", "power_in") i = Some 0%R ∧
           node J ("power_out_A", "power_split_amount") i = Some eta ∧
           node J ("power_out_B", "power_in") i = Some eta ∧
           node J ("power_out_B", "power_split_amount") i = Some (- eta)%R) ∧
        (p = s →
           node J ("power_out_A", "power_in") i = Some 0%R ∧
           node J ("power_out_A", "power_split_amount") i = Some eta ∧
           node J ("power_out_B", "power_in") i = Some eta ∧
           node J ("power_out_B", "power_split_amount") i = Some (- eta)%R).
Proof.
  intros Hc Hrule Hb eta.
  destruct (linearize_nodes _ _ _ Hc Hb) as (J & r & Hlin & _ & _ & _ & Hn).
  exists J. split; [done|]. intros i Hi.
  destruct (Hn i Hi) as (p & s & Hp & Hs & HAp & HAc & HBp & HBc & _).
  assert (Hctl : control (options self) = "power_split_amount").
  { unfold control. rewrite Hrule. by rewrite decide_False. }
  rewrite Hctl in Hs, HAc, HBc.
  exists p, s. do 2 (split; [done|]).
  destruct (partials_fixed_R (options self) p s Hrule) as [Hlt Hge].
  rewrite HAp, HAc, HBp, HBc. fold eta in Hlt, Hge.
  split; [|split].
  - intros H. destruct (Hlt H) as (-> & -> & -> & ->). done.
  - intros H. destruct (Hge H) as (-> & -> & -> & ->). done.
  - intros H. destruct Hge as (-> & -> & -> & ->); [lra|done].
Qed.


(** C6. For either rule and every input, [evaluate] produces [heat_out
    = power_in * (1 - eta)] at every node; the array is determined by
    [power_in] and the efficiency alone: another configuration (of
    either rule) with the same efficiency, on inputs with the same
    [power_in], produces the same [heat_out]. *)
Theorem heat_out_evaluate {num : Type} `{!Arith num}
    (kwargs : list (kwarg num)) (self : system num)
    (inputs : gmap string (list num)) :
  configured kwargs self → inputs_bound self inputs →
  ∃ outs, evaluate self inputs = Ok outs ∧
    (∀ i, i < num_nodes (options self) →
       ∃ p : num,
         node inputs "power_in" i = Some p ∧
         node outs "heat_out" i
           = Some (fmul p (fsub fone (efficiency (options self))))) ∧
    (∀ kwargs' self' inputs',
       configured kwargs' self' → inputs_bound self' inputs' →
       efficiency (options self') = efficiency (options self) →
       inputs' !! "power_in" = inputs !! "power_in" →
       ∃ outs', evaluate self' inputs' = Ok outs' ∧
                outs' !! "heat_out" = outs !! "heat_out").
Proof.
  intros Hc Hb.
  destruct (evaluate_nodes _ _ _ Hc Hb) as (outs & r & Hev & _ & _ & _ & Hn).
  exists outs. split; [done|]. split.
  - intros i Hi. destruct (Hn i Hi) as (p & c & Hp & _ & _ & _ & Hh & _).
    by exists p.
  - intros kwargs' self' inputs' Hc' Hb' Heta Hpin.
    destruct (evaluate_common _ _ _ Hc Hb)
      as (outs1 & p & r1 & Hev1 & Hp & _ & Hh & _).
    destruct (evaluate_common _ _ _ Hc' Hb')
      as (outs' & p' & r' & Hev' & Hp' & _ & Hh' & _).
    rewrite Hev in Hev1. simplify_eq.
    exists outs'. split; [done|].
    rewrite Hh, Hh', Heta. congruence.
Qed.

Lemma heat_out_evaluate_witness :
  configured (num:=f64) fixed_kwargs (component_of fixed_kwargs) ∧
  inputs_bound (num:=f64) (component_of fixed_kwargs) fixed_inputs ∧
  let self := component_of (num:=f64) fixed_kwargs in
  ∃ outs, evaluate self fixed_inputs = Ok outs ∧
    (∀ i, i < num_nodes (options self) →
       ∃ p : f64,
         node fixed_inputs "power_in" i = Some p ∧
         node outs "heat_out" i
           = Some (fmul p (fsub fone (efficiency (options self))))) ∧
    (∀ kwargs' self' inputs',
       configured kwargs' self' → inputs_bound self' inputs' →
       efficiency (options self') = efficiency (options self) →
       inputs' !! "power_in" = fixed_inputs !! "power_in" →
       ∃ outs', evaluate self' inputs' = Ok outs' ∧
                outs' !! "heat_out" = outs !! "heat_out").
Proof.
  assert (Hc : configured (num:=f64) fixed_kwargs (component_of fixed_kwargs))
    by (apply configured_component_of; right; reflexivity).
  assert (Hb : inputs_bound (num:=f64) (component_of fixed_kwargs) fixed_inputs)
    by (apply (bool_decide_unpack _); vm_compute; reflexivity).
  split; [exact Hc|]. split; [exact Hb|].
  exact (heat_out_evaluate _ _ _ Hc Hb).
Defined.

(** C4. Proportional rule, [evaluate]: at every node [power_out_A =
    power_in * split_fraction * eta] and [power_out_B = power_in * (1 -
    split_fraction) * eta], in any arithmetic.  For [power_in = 100],
    [split_fraction = 0.7] and [eta = 0.98] the outputs are 68.6, 29.4
    and the heat 2.0: exactly over the reals, and within 1e-9 in
    binary64. *)
Theorem proportional_evaluate :
  (∀ (num : Type) (A : Arith num) (kwargs : list (kwarg num))
     (self : system num) (inputs : gmap string (list num)),
     configured kwargs self → rule (options self) = "fraction" →
     inputs_bound self inputs →
     ∃ outs, evaluate self inputs = Ok outs ∧
       ∀ i, i < num_nodes (options self) →
         ∃ p f : num,
           node inputs "power_in" i = Some p ∧
           node inputs "power_split_fraction" i = Some f ∧
           node outs "power_out_A" i
             = Some (fmul (fmul p f) (efficiency (options self))) ∧
           node outs "power_out_B" i
             = Some (fmul (fmul p (fsub fone f)) (efficiency (options self)))) ∧
  (∃ outs : gmap string (list R),
     evaluate (component_of fraction_kwargs) fraction_inputs = Ok outs ∧
     node outs "power_out_A" 0 = Some (686 / 10)%R ∧
     node outs "power_out_B" 0 = Some (294 / 10)%R ∧
     node outs "heat_out" 0 = Some 2%R) ∧
  (let res := evaluate (num:=f64) (component_of fraction_kwargs) fraction_inputs in
   node_approx res "power_out_A" 0 (686 # 10) tol9 = true ∧
   node_approx res "power_out_B" 0 (294 # 10) tol9 = true ∧
   node_approx res "heat_out" 0 2 tol9 = true).
Proof.
  assert (Hgen : ∀ (num : Type) (A : Arith num) (kwargs : list (kwarg num))
     (self : system num) (inputs : gmap string (list num)),
     configured kwargs self → rule (options self) = "fraction" →
     inputs_bound self inputs →
     ∃ outs, evaluate self inputs = Ok outs ∧
       ∀ i, i < num_nodes (options self) →
         ∃ p f : num,
           node inputs "power_in" i = Some p ∧
           node inputs "power_split_fraction" i = Some f ∧
           node outs "power_out_A" i
             = Some (fmul (fmul p f) (efficiency (options self))) ∧
           node outs "power_out_B" i
             = Some (fmul (fmul p (fsub fone f)) (efficiency (options self)))).
  { intros num A kwargs self inputs Hc Hrule Hb.
    destruct (evaluate_nodes _ _ _ Hc Hb) as (outs & r & Hev & _ & _ & _ & Hn).
    exists outs. split; [done|]. intros i Hi.
    destruct (Hn i Hi) as (p & f & Hp & Hf & HA & HB & _).
    assert (Hctl : control (options self) = "power_split_fraction")
      by (unfold control; by rewrite decide_True).
    rewrite Hctl in Hf. exists p, f. do 2 (split; [done|]).
    unfold split_A, split_B in *. by rewrite !decide_True in * by done. }
  split; [exact Hgen|]. split.
  - assert (Hc : configured (num:=R) fraction_kwargs (component_of fraction_kwargs))
      by (apply configured_component_of; left; reflexivity).
    assert (Hb : inputs_bound (num:=R) (component_of fraction_kwargs) fraction_inputs)
      by (apply (bool_decide_unpack _); vm_compute; reflexivity).
    destruct (evaluate_nodes _ _ _ Hc Hb) as (outs & r & Hev & _ & _ & _ & Hn).
    exists outs. split; [done|].
    destruct (Hn 0 ltac:(simpl; lia)) as (p & f & Hp & Hf & HA & HB & Hh & _).
    assert (p = 100%R) as -> by (by injection Hp).
    assert (f = (7 / 10)%R) as -> by (by injection Hf).
    rewrite HA, HB, Hh. unfold split_A, split_B.
    change (rule (options (component_of (num:=R) fraction_kwargs))) with "fraction".
    change (efficiency (options (component_of (num:=R) fraction_kwargs)))
      with (98 / 100)%R.
    rewrite !decide_True by done. simpl.
    repeat split; f_equal; lra.
  - by vm_compute.
Qed.

Lemma proportional_evaluate_witness :
  configured (num:=f64) fraction_kwargs (component_of fraction_kwargs) ∧
  rule (options (component_of (num:=f64) fraction_kwargs)) = "fraction" ∧
  inputs_bound (num:=f64) (component_of fraction_kwargs) fraction_inputs ∧
  let self := component_of (num:=f64) fraction_kwargs in
  ∃ outs, evaluate self fraction_inputs = Ok outs ∧
    ∀ i, i < num_nodes (options self) →
      ∃ p f : f64,
        node fraction_inputs "power_in" i = Some p ∧
        node fraction_inputs "power_split_fraction" i = Some f ∧
        node outs "power_out_A" i
          = Some (fmul (fmul p f) (efficiency (options self))) ∧
        node outs "power_out_B" i
          = Some (fmul (fmul p (fsub fone f)) (efficiency (options self))).
Proof.
  assert (Hc : configured (num:=f64) fraction_kwargs (component_of fraction_kwargs))
    by (apply configured_component_of; left; reflexivity).
  assert (Hr : rule (options (component_of (num:=f64) fraction_kwargs)) = "fraction")
    by reflexivity.
  assert (Hb : inputs_bound (num:=f64) (component_of fraction_kwargs) fraction_inputs)
    by (apply (bool_decide_unpack _); vm_compute; reflexivity).
  split; [exact Hc|]. split; [exact Hr|]. split; [exact Hb|].
  exact (proj1 proportional_evaluate f64 _ _ _ _ Hc Hr Hb).
Defined.

(** C5. Proportional rule, [linearize]: at every node the partials of
    [power_out_A] are [split_fraction * eta] and [power_in * eta], and
    those of [power_out_B] are [(1 - split_fraction) * eta] and
    [(- power_in) * eta], at the input given.  Nothing is carried over
    from an earlier call: [compute_partials] reads the options and the
    inputs only, and run on the Jacobian that a linearization at any
    other point has left, it yields the same result. *)
Theorem proportional_linearize {num : Type} `{!Arith num}
    (kwargs : list (kwarg num)) (self : system num)
    (inputs : gmap string (list num)) :
  configured kwargs self → rule (options self) = "fraction" →
  inputs_bound self inputs →
  let eta := efficiency (options self) in
  ∃ J, linearize self inputs = Ok J ∧
    (∀ i, i < num_nodes (options self) →
       ∃ p f : num,
         node inputs "power_in" i = Some p ∧
         node inputs "power_split_fraction" i = Some f ∧
         node J ("power_out_A", "power_in") i = Some (fmul f eta) ∧
         node J ("power_out_A", "power_split_fraction") i = Some (fmul p eta) ∧
         node J ("power_out_B", "power_in") i
           = Some (fmul (fsub fone f) eta) ∧
         node J ("power_out_B", "power_split_fraction") i
           = Some (fmul (fneg p) eta)) ∧
    (∀ inputs' J',
       inputs_bound self inputs' → linearize self inputs' = Ok J' →
       compute_partials self inputs J' = Ok J).
Proof.
  intros Hc Hrule Hb eta.
  destruct (linearize_nodes _ _ _ Hc Hb) as (J & r & Hlin & _ & _ & _ & Hn).
  exists J. split; [done|]. split.
  - intros i Hi.
    destruct (Hn i Hi) as (p & f & Hp & Hf & HAp & HAc & HBp & HBc & _).
    assert (Hctl : control (options self) = "power_split_fraction")
      by (unfold control; by rewrite decide_True).
    rewrite Hctl in Hf, HAc, HBc. exists p, f. do 2 (split; [done|]).
    unfold dA_dp, dA_dc, dB_dp, dB_dc in *.
    by rewrite !decide_True in * by done.
  - intros inputs' J' Hb' HJ'.
    by rewrite (compute_partials_refresh _ _ _ _ _ Hc Hb Hb' HJ').
Qed.

Lemma proportional_linearize_witness :
  configured (num:=f64) fraction_kwargs (component_of fraction_kwargs) ∧
  rule (options (component_of (num:=f64) fraction_kwargs)) = "fraction" ∧
  inputs_bound (num:=f64) (component_of fraction_kwargs) fraction_inputs ∧
  let self := component_of (num:=f64) fraction_kwargs in
  let eta := efficiency (options self) in
  ∃ J, linearize self fraction_inputs = Ok J ∧
    (∀ i, i < num_nodes (options self) →
       ∃ p f : f64,
         node fraction_inputs "power_in" i = Some p ∧
         node fraction_inputs "power_split_fraction" i = Some f ∧
         node J ("power_out_A", "power_in") i = Some (fmul f eta) ∧
         node J ("power_out_A", "power_split_fraction") i = Some (fmul p eta) ∧
         node J ("power_out_B", "power_in") i
           = Some (fmul (fsub fone f) eta) ∧
         node J ("power_out_B", "power_split_fraction") i
           = Some (fmul (fneg p) eta)) ∧
    (∀ inputs' J',
       inputs_bound self inputs' → linearize self inputs' = Ok J' →
       compute_partials self fraction_inputs J' = Ok J).
Proof.
  assert (Hc : configured (num:=f64) fraction_kwargs (component_of fraction_kwargs))
    by (apply configured_component_of; left; reflexivity).
  assert (Hr : rule (options (component_of (num:=f64) fraction_kwargs)) = "fraction")
    by reflexivity.
  assert (Hb : inputs_bound (num:=f64) (component_of fraction_kwargs) fraction_inputs)
    by (apply (bool_decide_unpack _); vm_compute; reflexivity).
  split; [exact Hc|]. split; [exact Hr|]. split; [exact Hb|].
  exact (proportional_linearize _ _ _ Hc Hr Hb).
Defined.

(** C7, as stated, fails: with the rule ["invalid"] the constructor
    returns a component; [setup] is entered, declares [power_in] and
    [power_rating], and only then raises. *)
Lemma unrecognized_rule_passes_construction :
  ¬ (∃ e, PowerSplit (num:=f64) invalid_kwargs = Raise e) ∧
  ∃ self self',
    PowerSplit (num:=f64) invalid_kwargs = Ok self ∧
    setup self = (self', Some (ValueError rule_msg)) ∧
    is_Some (var_inputs self' !! "power_in") ∧
    is_Some (var_inputs self' !! "power_rating") ∧
    run_model (num:=f64) invalid_kwargs fraction_inputs
      = inl (Setup, ValueError rule_msg).
Proof.
  split.
  - intros [e He]. discriminate He.
  - eexists _, _. split; [reflexivity|]. split; [reflexivity|].
    split; [by eexists|]. split; [by eexists|]. reflexivity.
Qed.

(** C7, amended.  A rule other than ["fraction"] and ["fixed"] is not
    rejected by the constructor but by [setup], with a [ValueError]:
    [setup] has then declared the inputs [power_in] and [power_rating]
    and nothing else, the component is never configured, and a model
    run stops in the setup phase, before any evaluation. *)
Theorem unrecognized_rule_rejected_in_setup {num : Type} `{!Arith num}
    (kwargs : list (kwarg num)) :
  rule (foldl set_option initialize kwargs) ≠ "fraction" →
  rule (foldl set_option initialize kwargs) ≠ "fixed" →
  ∃ self self',
    PowerSplit kwargs = Ok self ∧
    setup self = (self', Some (ValueError rule_msg)) ∧
    dom (var_inputs self') = {["power_in"; "power_rating"]} ∧
    var_outputs self' = ∅ ∧
    subjacs self' = ∅ ∧
    (∀ s, ¬ configured kwargs s) ∧
    (∀ inputs, run_model kwargs inputs = inl (Setup, ValueError rule_msg)).
Proof.
  intros Hfr Hfx.
  assert (Hsetup : ∀ self, PowerSplit kwargs = Ok self →
            setup self =
              (add_input (add_input self "power_in" fone (Some "W")
                            (num_nodes (options self)))
                 "power_rating" (of_Z 99999999) (Some "W") 1,
               Some (ValueError rule_msg))).
  { intros self Hself. unfold PowerSplit in Hself. simplify_eq.
    unfold setup. cbv zeta. cbn [options add_input].
    by rewrite !decide_False by done. }
  eexists _, _. split; [reflexivity|]. split; [by apply Hsetup|].
  split; [|split; [done|split; [done|split]]].
  - cbn [var_inputs add_input]. rewrite !dom_insert_L, dom_empty_L. set_solver.
  - intros s (self0 & Hc & Hs). rewrite (Hsetup _ Hc) in Hs. discriminate Hs.
  - intros inputs. pose proof (Hsetup _ eq_refl) as E.
    unfold run_model, PowerSplit in *. cbv beta iota. by rewrite E.
Qed.

Lemma unrecognized_rule_rejected_in_setup_witness :
  rule (foldl set_option initialize (invalid_kwargs (num:=f64))) ≠ "fraction" ∧
  rule (foldl set_option initialize (invalid_kwargs (num:=f64))) ≠ "fixed" ∧
  ∃ self self',
    PowerSplit (num:=f64) invalid_kwargs = Ok self ∧
    setup self = (self', Some (ValueError rule_msg)) ∧
    dom (var_inputs self') = {["power_in"; "power_rating"]} ∧
    var_outputs self' = ∅ ∧
    subjacs self' = ∅ ∧
    (∀ s, ¬ configured invalid_kwargs s) ∧
    (∀ inputs, run_model invalid_kwargs inputs = inl (Setup, ValueError rule_msg)).
Proof.
  assert (H1 : rule (foldl set_option initialize (invalid_kwargs (num:=f64)))
               ≠ "fraction") by (simpl; discriminate).
  assert (H2 : rule (foldl set_option initialize (invalid_kwargs (num:=f64)))
               ≠ "fixed") by (simpl; discriminate).
  split; [exact H1|]. split; [exact H2|].
  exact (unrecognized_rule_rejected_in_setup _ H1 H2).
Defined.

(** C8. [evaluate] returns [sizing_margin = power_in / power_rating] at
    every node, whatever the rating: nothing is checked and the
    evaluation does not raise for a zero or negative rating.
    [linearize] returns [1 / power_rating] for the partial with respect
    to [power_in] and [(- power_in) / power_rating ** 2] for the partial
    with respect to [power_rating]. *)
Theorem sizing_margin_spec {num : Type} `{!Arith num}
    (kwargs : list (kwarg num)) (self : system num)
    (inputs : gmap string (list num)) :
  configured kwargs self → inputs_bound self inputs →
  ∃ outs J (r : num),
    inputs !! "power_rating" = Some [r] ∧
    evaluate self inputs = Ok outs ∧
    linearize self inputs = Ok J ∧
    ∀ i, i < num_nodes (options self) →
      ∃ p : num,
        node inputs "power_in" i = Some p ∧
        node outs "component_sizing_margin" i = Some (fdiv p r) ∧
        node J ("component_sizing_margin", "power_in") i = Some (fdiv fone r) ∧
        node J ("component_sizing_margin", "power_rating") i
          = Some (fdiv (fneg p) (fmul r r)).
Proof.
  intros Hc Hb.
  destruct (evaluate_nodes _ _ _ Hc Hb) as (outs & r & Hev & Hr & _ & _ & Hn).
  destruct (linearize_nodes _ _ _ Hc Hb) as (J & r' & Hlin & Hr' & _ & _ & Hm).
  assert (r' = r) as -> by congruence.
  exists outs, J, r. do 3 (split; [done|]). intros i Hi.
  destruct (Hn i Hi) as (p & c & Hp & _ & _ & _ & _ & Hsm).
  destruct (Hm i Hi) as (p' & c' & Hp' & _ & _ & _ & _ & _ & _ & H1 & H2).
  assert (p' = p) as -> by congruence.
  by exists p.
Qed.

Lemma sizing_margin_spec_witness :
  configured (num:=f64) fixed_kwargs (component_of fixed_kwargs) ∧
  inputs_bound (num:=f64) (component_of fixed_kwargs) fixed_inputs ∧
  let self := component_of (num:=f64) fixed_kwargs in
  ∃ outs J (r : f64),
    fixed_inputs !! "power_rating" = Some [r] ∧
    evaluate self fixed_inputs = Ok outs ∧
    linearize self fixed_inputs = Ok J ∧
    ∀ i, i < num_nodes (options self) →
      ∃ p : f64,
        node fixed_inputs "power_in" i = Some p ∧
        node outs "component_sizing_margin" i = Some (fdiv p r) ∧
        node J ("component_sizing_margin", "power_in") i = Some (fdiv fone r) ∧
        node J ("component_sizing_margin", "power_rating") i
          = Some (fdiv (fneg p) (fmul r r)).
Proof.
  assert (Hc : configured (num:=f64) fixed_kwargs (component_of fixed_kwargs))
    by (apply configured_component_of; right; reflexivity).
  assert (Hb : inputs_bound (num:=f64) (component_of fixed_kwargs) fixed_inputs)
    by (apply (bool_decide_unpack _); vm_compute; reflexivity).
  split; [exact Hc|]. split; [exact Hb|].
  exact (sizing_margin_spec _ _ _ Hc Hb).
Defined.

(** C9. [cost] and [weight] depend on [power_rating] only: [evaluate]
    returns [cost = power_rating * cost_inc + cost_base] and [weight =
    power_rating * weight_inc + weight_base], so that any other input
    with the same [power_rating] gives the same two values; and in the
    Jacobian the only entries of [cost] and [weight] are those with
    respect to [power_rating], the constants [cost_inc] and
    [weight_inc]. *)
Theorem cost_weight_spec {num : Type} `{!Arith num}
    (kwargs : list (kwarg num)) (self : system num)
    (inputs : gmap string (list num)) :
  configured kwargs self → inputs_bound self inputs →
  let o := options self in
  ∃ outs J (r : num),
    inputs !! "power_rating" = Some [r] ∧
    evaluate self inputs = Ok outs ∧
    linearize self inputs = Ok J ∧
    outs !! "component_cost"
      = Some [fadd (fmul r (cost_inc o)) (cost_base o)] ∧
    outs !! "component_weight"
      = Some [fadd (fmul r (weight_inc o)) (weight_base o)] ∧
    (∀ inputs', inputs_bound self inputs' →
       inputs' !! "power_rating" = inputs !! "power_rating" →
       ∃ outs', evaluate self inputs' = Ok outs' ∧
         outs' !! "component_cost" = outs !! "component_cost" ∧
         outs' !! "component_weight" = outs !! "component_weight") ∧
    (∀ wrt, J !! ("component_cost", wrt)
            = if decide (wrt = "power_rating") then Some [cost_inc o] else None) ∧
    (∀ wrt, J !! ("component_weight", wrt)
            = if decide (wrt = "power_rating") then Some [weight_inc o] else None).
Proof.
  intros Hc Hb o.
  destruct (evaluate_nodes _ _ _ Hc Hb) as (outs & r & Hev & Hr & Hcost & Hw & _).
  destruct (linearize_nodes _ _ _ Hc Hb) as (J & r' & Hlin & _ & HJc & HJw & _).
  exists outs, J, r. do 5 (split; [done|]). split; [|done].
  intros inputs' Hb' Hr'.
  destruct (evaluate_nodes _ _ _ Hc Hb') as (outs' & r2 & Hev' & Hr2 & Hcost' & Hw' & _).
  assert (r2 = r) as -> by congruence.
  exists outs'. split; [done|]. by rewrite Hcost, Hcost', Hw, Hw'.
Qed.

Lemma cost_weight_spec_witness :
  configured (num:=f64) fraction_kwargs (component_of fraction_kwargs) ∧
  inputs_bound (num:=f64) (component_of fraction_kwargs) fraction_inputs ∧
  let self := component_of (num:=f64) fraction_kwargs in
  let o := options self in
  ∃ outs J (r : f64),
    fraction_inputs !! "power_rating" = Some [r] ∧
    evaluate self fraction_inputs = Ok outs ∧
    linearize self fraction_inputs = Ok J ∧
    outs !! "component_cost"
      = Some [fadd (fmul r (cost_inc o)) (cost_base o)] ∧
    outs !! "component_weight"
      = Some [fadd (fmul r (weight_inc o)) (weight_base o)] ∧
    (∀ inputs', inputs_bound self inputs' →
       inputs' !! "power_rating" = fraction_inputs !! "power_rating" →
       ∃ outs', evaluate self inputs' = Ok outs' ∧
         outs' !! "component_cost" = outs !! "component_cost" ∧
         outs' !! "component_weight" = outs !! "component_weight") ∧
    (∀ wrt, J !! ("component_cost", wrt)
            = if decide (wrt = "power_rating") then Some [cost_inc o] else None) ∧
    (∀ wrt, J !! ("component_weight", wrt)
            = if decide (wrt = "power_rating") then Some [weight_inc o] else None).
Proof.
  assert (Hc : configured (num:=f64) fraction_kwargs (component_of fraction_kwargs))
    by (apply configured_component_of; left; reflexivity).
  assert (Hb : inputs_bound (num:=f64) (component_of fraction_kwargs) fraction_inputs)
    by (apply (bool_decide_unpack _); vm_compute; reflexivity).
  split; [exact Hc|]. split; [exact Hb|].
  exact (cost_weight_spec _ _ _ Hc Hb).
Defined.




(** * Evaluations in binary64 *)

(** The examples, run on IEEE-754 doubles: the fixed-amount splitter
    with efficiency 0.95 gives 28.5 and 66.5 for 100 in and 30 asked,
    47.5 and exactly 0 for 50 in and 80 asked, and 38 and exactly 0 for
    40 in and 40 asked. *)
Lemma fixed_amount_examples_f64 :
  let res := evaluate (num:=f64) (component_of fixed_kwargs) fixed_inputs in
  node_approx res "power_out_A" 0 (285 # 10) tol9 = true ∧
  node_approx res "power_out_B" 0 (665 # 10) tol9 = true ∧
  node_approx res "power_out_A" 1 (475 # 10) tol9 = true ∧
  node_approx res "power_out_B" 1 0 0 = true ∧
  node_approx res "power_out_A" 2 38 tol9 = true ∧
  node_approx res "power_out_B" 2 0 0 = true.
Proof. by vm_compute. Qed.

(** The energy balance of the examples holds within 1e-9 in binary64. *)
Lemma conservation_examples_f64 :
  sum_approx (evaluate (component_of fraction_kwargs) fraction_inputs)
    0 100 tol9 = true ∧
  sum_approx (evaluate (component_of fixed_kwargs) fixed_inputs) 0 100 tol9 = true ∧
  sum_approx (evaluate (component_of fixed_kwargs) fixed_inputs) 1 50 tol9 = true ∧
  sum_approx (evaluate (component_of fixed_kwargs) fixed_inputs) 2 40 tol9 = true.
Proof. by vm_compute. Qed.

(** Degenerate inputs raise nothing.  With a zero rating the sizing
    margin is infinite, or not a number where the power is not a
    number.  At a node whose power is not a number both comparisons of
    the fixed-amount rule are false, neither index set contains the
    node, and the two outputs keep the zeros they were created with. *)
Lemma degenerate_inputs_f64 :
  let outs := evaluate (component_of fixed_kwargs) degenerate_inputs in
  let J := linearize (component_of fixed_kwargs) degenerate_inputs in
  result_get outs "component_sizing_margin"
    = Some [S754_infinity false; S754_nan; S754_infinity true] ∧
  result_get outs "power_out_A" ≫= (.!! 1) = Some (S754_zero false) ∧
  result_get outs "power_out_B" ≫= (.!! 1) = Some (S754_zero false) ∧
  result_get outs "heat_out" ≫= (.!! 1) = Some S754_nan ∧
  result_get J ("component_sizing_margin", "power_rating")
    = Some [S754_infinity true; S754_nan; S754_infinity false].
Proof. by vm_compute. Qed.

(** * Further properties *)

(** ** Perturbed inputs *)

Section perturbation_facts.
Context {num : Type} `{!Arith num}.
Implicit Types (self : system num) (inputs : gmap string (list num)).

Lemma lookup_set_node_eq inputs key (a : list num) i x :
  inputs !! key = Some a → set_node inputs key i x !! key = Some (<[i := x]> a).
Proof. intros Ha. unfold set_node. rewrite Ha. apply lookup_insert_eq. Qed.

Lemma lookup_set_node_ne inputs key key' i (x : num) :
  key ≠ key' → set_node inputs key i x !! key' = inputs !! key'.
Proof.
  intros Hne. unfold set_node. destruct (inputs !! key); [|done].
  by rewrite lookup_insert_ne.
Qed.

Lemma node_set_node_eq inputs key i (x y : num) :
  node inputs key i = Some y → node (set_node inputs key i x) key i = Some x.
Proof.
  unfold node. destruct (inputs !! key) as [a|] eqn:Ha; [|done]. simpl.
  intros Hy. rewrite (lookup_set_node_eq _ _ _ _ _ Ha). simpl.
  apply list_lookup_insert_eq. by eapply lookup_lt_Some.
Qed.

Lemma node_set_node_ne inputs key key' i j (x : num) :
  key ≠ key' ∨ i ≠ j →
  node (set_node inputs key i x) key' j = node inputs key' j.
Proof.
  intros Hne. unfold node.
  destruct (decide (key = key')) as [<-|Hk].
  - destruct Hne as [?|Hij]; [congruence|].
    destruct (inputs !! key) as [a|] eqn:Ha.
    + rewrite (lookup_set_node_eq _ _ _ _ _ Ha). simpl.
      by apply list_lookup_insert_ne.
    + unfold set_node. rewrite Ha. cbv beta iota. by rewrite Ha.
  - by rewrite lookup_set_node_ne.
Qed.

Lemma inputs_bound_set_node self inputs key i (x : num) :
  inputs_bound self inputs → inputs_bound self (set_node inputs key i x).
Proof.
  intros Hb name m Hm. specialize (Hb name m Hm). simpl in *.
  destruct (decide (key = name)) as [<-|Hk].
  - destruct (inputs !! key) as [a|] eqn:Ha; [|done].
    rewrite (lookup_set_node_eq _ _ _ _ _ Ha). simpl in *.
    by rewrite length_insert.
  - by rewrite lookup_set_node_ne.
Qed.

(** The values at a node, given the inputs at that node. *)
Lemma evaluate_node_values kwargs self inputs i (p c r : num) :
  configured kwargs self → inputs_bound self inputs →
  let o := options self in
  node inputs "power_in" i = Some p →
  node inputs (control o) i = Some c →
  inputs !! "power_rating" = Some [r] →
  ∃ outs,
    evaluate self inputs = Ok outs ∧
    node outs "power_out_A" i = Some (split_A o p c) ∧
    node outs "power_out_B" i = Some (split_B o p c) ∧
    node outs "heat_out" i = Some (fmul p (fsub fone (efficiency o))) ∧
    node outs "component_sizing_margin" i = Some (fdiv p r) ∧
    node outs "component_cost" 0
      = Some (fadd (fmul r (cost_inc o)) (cost_base o)) ∧
    node outs "component_weight" 0
      = Some (fadd (fmul r (weight_inc o)) (weight_base o)).
Proof.
  intros Hc Hb o Hp Hk Hr.
  destruct (inputs_bound_inv _ _ _ Hc Hb) as (pa & ca & r' & Hpa & Hlp & Hr' & _).
  assert (Hi : i < num_nodes (options self)).
  { rewrite <-Hlp. unfold node in Hp. rewrite Hpa in Hp. simpl in Hp.
    by eapply lookup_lt_Some. }
  destruct (evaluate_nodes _ _ _ Hc Hb) as (outs & r2 & Hev & Hr2 & Hcost & Hw & Hn).
  destruct (Hn i Hi) as (p' & c' & Hp' & Hk' & HA & HB & Hh & Hsm).
  fold o in Hk', HA, HB, Hh, Hcost, Hw.
  assert (p' = p) as -> by congruence.
  assert (c' = c) as -> by congruence.
  assert (r2 = r) as -> by congruence.
  exists outs. do 5 (split; [done|]).
  unfold node. by rewrite Hcost, Hw.
Qed.

Lemma linearize_node_values kwargs self inputs i (p c r : num) :
  configured kwargs self → inputs_bound self inputs →
  let o := options self in
  node inputs "power_in" i = Some p →
  node inputs (control o) i = Some c →
  inputs !! "power_rating" = Some [r] →
  ∃ J,
    linearize self inputs = Ok J ∧
    node J ("power_out_A", "power_in") i = Some (dA_dp o p c) ∧
    node J ("power_out_A", control o) i = Some (dA_dc o p c) ∧
    node J ("power_out_B", "power_in") i = Some (dB_dp o p c) ∧
    node J ("power_out_B", control o) i = Some (dB_dc o p c) ∧
    node J ("heat_out", "power_in") i
      = Some (fmul (fsub fone (efficiency o)) fone) ∧
    node J ("component_sizing_margin", "power_in") i = Some (fdiv fone r) ∧
    node J ("component_sizing_margin", "power_rating") i
      = Some (fdiv (fneg p) (fmul r r)) ∧
    node J ("component_cost", "power_rating") 0 = Some (cost_inc o) ∧
    node J ("component_weight", "power_rating") 0 = Some (weight_inc o).
Proof.
  intros Hc Hb o Hp Hk Hr.
  destruct (inputs_bound_inv _ _ _ Hc Hb) as (pa & ca & r' & Hpa & Hlp & Hr' & _).
  assert (Hi : i < num_nodes (options self)).
  { rewrite <-Hlp. unfold node in Hp. rewrite Hpa in Hp. simpl in Hp.
    by eapply lookup_lt_Some. }
  destruct (linearize_nodes _ _ _ Hc Hb) as (J & r2 & Hlin & Hr2 & Hcost & Hw & Hn).
  destruct (Hn i Hi) as (p' & c' & Hp' & Hk' & H1 & H2 & H3 & H4 & H5 & H6 & H7).
  fold o in Hk', H1, H2, H3, H4, H5, Hcost, Hw.
  assert (p' = p) as -> by congruence.
  assert (c' = c) as -> by congruence.
  assert (r2 = r) as -> by congruence.
  exists J. do 8 (split; [done|]).
  unfold node. rewrite Hcost, Hw. by rewrite !decide_True by done.
Qed.
End perturbation_facts.

(** ** Declarations and stores *)

(** X1. A configured component has exactly three inputs: [power_in] and
    the control input of its rule, of shape [(nn,)], and [power_rating],
    of shape [(1,)].  The control input of the other rule is not
    declared. *)
Theorem setup_declares_inputs {num : Type} `{!Arith num}
    (kwargs : list (kwarg num)) (self : system num) :
  configured kwargs self →
  let o := options self in
  dom (var_inputs self) = {["power_in"; "power_rating"; control o]} ∧
  v_shape <$> var_inputs self !! "power_in" = Some (num_nodes o) ∧
  v_shape <$> var_inputs self !! "power_rating" = Some 1 ∧
  v_shape <$> var_inputs self !! control o = Some (num_nodes o) ∧
  (rule o = "fraction" →
     control o = "power_split_fraction" ∧
     var_inputs self !! "power_split_amount" = None) ∧
  (rule o = "fixed" →
     control o = "power_split_amount" ∧
     var_inputs self !! "power_split_fraction" = None).
Proof.
  intros Hc o. rewrite (var_inputs_configured _ _ Hc). cbv zeta. fold o.
  destruct (control_neq o) as [Hc1 Hc2].
  split; [|split; [|split; [|split; [|split]]]].
  - rewrite !dom_insert_L, dom_empty_L. set_solver.
  - by rewrite !lookup_insert_ne, lookup_insert_eq by done.
  - by rewrite lookup_insert_ne, lookup_insert_eq by done.
  - by rewrite lookup_insert_eq.
  - intros Hr. unfold control. rewrite decide_True by done. split; [done|].
    by rewrite !lookup_insert_ne by done.
  - intros Hr. unfold control. rewrite Hr. rewrite decide_False by done.
    split; [done|]. by rewrite !lookup_insert_ne by done.
Qed.

Lemma setup_declares_inputs_witness :
  configured (num:=f64) fixed_kwargs (component_of fixed_kwargs) ∧
  let self := component_of (num:=f64) fixed_kwargs in
  let o := options self in
  dom (var_inputs self) = {["power_in"; "power_rating"; control o]} ∧
  v_shape <$> var_inputs self !! "power_in" = Some (num_nodes o) ∧
  v_shape <$> var_inputs self !! "power_rating" = Some 1 ∧
  v_shape <$> var_inputs self !! control o = Some (num_nodes o) ∧
  (rule o = "fraction" →
     control o = "power_split_fraction" ∧
     var_inputs self !! "power_split_amount" = None) ∧
  (rule o = "fixed" →
     control o = "power_split_amount" ∧
     var_inputs self !! "power_split_fraction" = None).
Proof.
  assert (Hc : configured (num:=f64) fixed_kwargs (component_of fixed_kwargs))
    by (apply configured_component_of; right; reflexivity).
  split; [exact Hc|]. exact (setup_declares_inputs _ _ Hc).
Defined.

Lemma alloc_outputs_allocated {num : Type} `{!Arith num}
    (kwargs : list (kwarg num)) (self : system num) :
  configured kwargs self → outputs_allocated self (alloc_outputs self).
Proof.
  intros _. unfold outputs_allocated, alloc_outputs. split.
  - apply dom_fmap_L.
  - intros name m Hm. simpl. rewrite lookup_fmap, Hm. simpl.
    by rewrite length_replicate.
Qed.

Lemma outputs_allocated_insert {num : Type} `{!Arith num}
    (self : system num) (outs : gmap string (list num)) name (old v : list num) :
  outputs_allocated self outs → outs !! name = Some old →
  length v = length old → outputs_allocated self (<[name := v]> outs).
Proof.
  intros [Hdom Hall] Hold Hlen. split.
  - rewrite dom_insert_L, <-Hdom.
    assert (name ∈ dom outs) by (apply elem_of_dom; eauto). set_solver.
  - intros k m Hm. specialize (Hall k m Hm). simpl in *.
    destruct (decide (name = k)) as [<-|Hne].
    + rewrite lookup_insert_eq. rewrite Hold in Hall. simpl in *. congruence.
    + by rewrite lookup_insert_ne.
Qed.

(** X2. Whatever the output vector handed to [compute] holds, as long as
    it has the declared arrays, the result is that of [evaluate]: every
    declared output is assigned at every call, none keeps an earlier
    value, and the vector returned has again the declared arrays with
    their declared shapes. *)
Theorem compute_overwrites_outputs {num : Type} `{!Arith num}
    (kwargs : list (kwarg num)) (self : system num)
    (inputs outs0 : gmap string (list num)) :
  configured kwargs self → inputs_bound self inputs →
  outputs_allocated self outs0 →
  ∃ outs, evaluate self inputs = Ok outs ∧
          compute self inputs outs0 = Ok outs ∧
          outputs_allocated self outs.
Proof.
  intros Hc Hb Hal.
  pose proof (alloc_outputs_allocated _ _ Hc) as Hal0.
  destruct (inputs_bound_inv _ _ _ Hc Hb) as (p & c & r & Hp & Hlp & Hr & Hk & Hlc).
  destruct (outputs_allocated_inv _ _ _ Hc Hal)
    as (a & b & h & cc & w & m & Ha & Hla & Hb' & Hlb & Hh & Hlh & Hcc & Hlc'
        & Hw & Hlw & Hm & Hlm).
  assert (Hshadow : ∀ (m1 m2 : gmap string (list num)) v1 v2 v3 v4 v5 v6,
    dom m1 = dom m2 → dom m2 = dom (var_outputs self) →
    <["component_sizing_margin" := v1]> (<["component_weight" := v2]>
      (<["component_cost" := v3]> (<["heat_out" := v4]>
      (<["power_out_B" := v5]> (<["power_out_A" := v6]> m1)))))
    = <["component_sizing_margin" := v1]> (<["component_weight" := v2]>
      (<["component_cost" := v3]> (<["heat_out" := v4]>
      (<["power_out_B" := v5]> (<["power_out_A" := v6]> m2)))))).
  { intros m1 m2 v1 v2 v3 v4 v5 v6 Hd1 Hd2. apply map_eq. intros k.
    rewrite !lookup_insert. repeat case_decide; try done.
    assert (k ∉ dom m2) as Hk2.
    { rewrite Hd2, (var_outputs_configured _ _ Hc). cbv zeta.
      rewrite !dom_insert_L, dom_empty_L. set_solver. }
    assert (k ∉ dom m1) as Hk1 by (by rewrite Hd1).
    apply not_elem_of_dom in Hk1, Hk2. by rewrite Hk1, Hk2. }
  assert (Hd : dom (alloc_outputs self) = dom outs0)
    by (by rewrite (proj1 Hal), (proj1 Hal0)).
  destruct (rule_configured _ _ Hc) as [Hrule|Hrule].
  - assert (Hctl : control (options self) = "power_split_fraction")
      by (unfold control; by rewrite decide_True).
    rewrite Hctl in Hk.
    pose proof (compute_fraction_store _ _ _ _ p c r Hc Hrule Hal Hp Hr Hk Hlp Hlc) as E.
    pose proof (compute_fraction_store _ _ _ _ p c r Hc Hrule Hal0 Hp Hr Hk Hlp Hlc) as E0.
    cbv zeta in E, E0. eexists. split; [|split; [exact E|]].
    + unfold evaluate. rewrite E0. f_equal. apply Hshadow; [done|apply Hal].
    + unfold mul_s, s_sub.
      repeat (eapply outputs_allocated_insert;
        [| repeat (rewrite lookup_insert_ne by done); eassumption
         | rewrite ?length_fmap, ?length_zip_with, ?length_fmap; simpl; lia ]).
      exact Hal.
  - assert (Hctl : control (options self) = "power_split_amount").
    { unfold control. rewrite Hrule. by rewrite decide_False. }
    rewrite Hctl in Hk.
    pose proof (compute_fixed_store _ _ _ _ p c r Hc Hrule Hal Hp Hr Hk Hlp Hlc) as E.
    pose proof (compute_fixed_store _ _ _ _ p c r Hc Hrule Hal0 Hp Hr Hk Hlp Hlc) as E0.
    cbv zeta in E, E0. eexists. split; [|split; [exact E|]].
    + unfold evaluate. rewrite E0. f_equal. apply Hshadow; [done|apply Hal].
    + unfold mul_s, s_sub, np_zeros.
      repeat (eapply outputs_allocated_insert;
        [| repeat (rewrite lookup_insert_ne by done); eassumption
         | repeat first [rewrite length_fmap | rewrite length_merge
                        | rewrite length_zip_with | rewrite length_replicate];
           simpl; lia ]).
      exact Hal.
Qed.

Lemma compute_overwrites_outputs_witness :
  configured (num:=f64) fixed_kwargs (component_of fixed_kwargs) ∧
  inputs_bound (num:=f64) (component_of fixed_kwargs) fixed_inputs ∧
  outputs_allocated (num:=f64) (component_of fixed_kwargs) stale_outputs ∧
  ∃ outs, evaluate (num:=f64) (component_of fixed_kwargs) fixed_inputs = Ok outs ∧
          compute (component_of fixed_kwargs) fixed_inputs stale_outputs = Ok outs ∧
          outputs_allocated (component_of fixed_kwargs) outs.
Proof.
  assert (Hc : configured (num:=f64) fixed_kwargs (component_of fixed_kwargs))
    by (apply configured_component_of; right; reflexivity).
  assert (Hb : inputs_bound (num:=f64) (component_of fixed_kwargs) fixed_inputs)
    by (apply (bool_decide_unpack _); vm_compute; reflexivity).
  assert (Ha : outputs_allocated (num:=f64) (component_of fixed_kwargs) stale_outputs)
    by (split; apply (bool_decide_unpack _); vm_compute; reflexivity).
  split; [exact Hc|]. split; [exact Hb|]. split; [exact Ha|].
  exact (compute_overwrites_outputs _ _ _ _ Hc Hb Ha).
Defined.

Lemma subjacs_val_cases {num : Type} `{!Arith num}
    (kwargs : list (kwarg num)) (self : system num) key m :
  configured kwargs self → subjacs self !! key = Some m →
  let nn := num_nodes (options self) in
  (sj_val m = None ∨ (∃ x, sj_val m = Some [x] ∧ subjac_size self key m = 1)
   ∨ (key = ("heat_out", "power_in") ∧
      sj_val m = Some (s_mul (fsub fone (efficiency (options self))) (np_ones nn)) ∧
      sj_rows m = Some (range nn))).
Proof.
  intros Hc Hm nn. subst nn.
  rewrite (subjacs_configured _ _ Hc) in Hm. cbv zeta in Hm.
  assert (Hone : ∀ name v, name = "component_cost" ∨ name = "component_weight" →
    subjac_size self (name, "power_rating")
      {| sj_rows := None; sj_cols := None; sj_val := v |} = 1).
  { intros name v Hname. unfold subjac_size. cbn [sj_rows fst snd].
    rewrite (var_outputs_configured _ _ Hc), (var_inputs_configured _ _ Hc).
    cbv zeta. destruct (control_neq (options self)) as [Hc1 Hc2].
    rewrite (lookup_insert_ne _ (control _)), lookup_insert_eq by done.
    destruct Hname as [-> | ->];
      repeat (rewrite lookup_insert_ne by done); rewrite lookup_insert_eq; done. }
  repeat (rewrite lookup_insert in Hm; case_decide;
          [simplify_eq; simpl; eauto 10|]).
  by rewrite lookup_empty in Hm.
Qed.

Lemma alloc_jacobian_allocated {num : Type} `{!Arith num}
    (kwargs : list (kwarg num)) (self : system num) :
  configured kwargs self → jacobian_allocated self (alloc_jacobian self).
Proof.
  intros Hc. unfold jacobian_allocated, alloc_jacobian. split.
  - apply set_eq. intros key. rewrite !elem_of_dom, map_lookup_imap.
    destruct (subjacs self !! key); simpl; split; intros [? ?]; eauto; done.
  - intros key m Hm. simpl. rewrite map_lookup_imap, Hm. simpl.
    destruct (subjacs_val_cases _ _ _ _ Hc Hm) as [-> | [(x & -> & Hs) | (-> & -> & Hr)]].
    + unfold np_zeros. by rewrite length_replicate.
    + by rewrite length_replicate.
    + unfold subjac_size. rewrite Hr.
      rewrite broadcast_val; unfold s_mul, np_ones, range;
        by rewrite length_fmap, length_replicate, length_seq.
Qed.

Lemma jacobian_allocated_insert {num : Type} `{!Arith num}
    (self : system num)
    (J : gmap (string * string) (list num)) key (old v : list num) :
  jacobian_allocated self J → J !! key = Some old →
  length v = length old → jacobian_allocated self (<[key := v]> J).
Proof.
  intros [Hdom Hall] Hold Hlen. split.
  - rewrite dom_insert_L, <-Hdom.
    assert (key ∈ dom J) by (apply elem_of_dom; eauto). set_solver.
  - intros k m Hm. specialize (Hall k m Hm). simpl in *.
    destruct (decide (key = k)) as [<-|Hne].
    + rewrite lookup_insert_eq. rewrite Hold in Hall. simpl in *. congruence.
    + by rewrite lookup_insert_ne.
Qed.

(** X3. [compute_partials] on a Jacobian of any content that has the
    declared entries: it overwrites the six partials of [power_out_A],
    [power_out_B] and [component_sizing_margin] with the values of
    [linearize], and never touches the three partials declared with a
    constant value (of [heat_out], [component_cost] and
    [component_weight]).  It adds no entry and changes no shape. *)
Theorem compute_partials_overwrites {num : Type} `{!Arith num}
    (kwargs : list (kwarg num)) (self : system num)
    (inputs : gmap string (list num))
    (J0 : gmap (string * string) (list num)) :
  configured kwargs self → inputs_bound self inputs →
  jacobian_allocated self J0 →
  ∃ J J1,
    linearize self inputs = Ok J ∧
    compute_partials self inputs J0 = Ok J1 ∧
    jacobian_allocated self J ∧
    jacobian_allocated self J1 ∧
    (∀ key, constant_partial key → J1 !! key = J0 !! key) ∧
    (∀ key, ¬ constant_partial key → J1 !! key = J !! key).
Proof.
  intros Hc Hb Hal.
  pose proof (alloc_jacobian_allocated _ _ Hc) as Hal0.
  destruct (inputs_bound_inv _ _ _ Hc Hb) as (p & c & r & Hp & Hlp & Hr & Hk & Hlc).
  assert (Hkeep : ∀ (m : gmap (string * string) (list num)) ctl v1 v2 v3 v4 v5 v6 key,
    constant_partial key →
    <[("component_sizing_margin", "power_rating") := v1]>
      (<[("component_sizing_margin", "power_in") := v2]>
      (<[("power_out_B", ctl) := v3]> (<[("power_out_B", "power_in") := v4]>
      (<[("power_out_A", ctl) := v5]> (<[("power_out_A", "power_in") := v6]> m)))))
      !! key = m !! key).
  { intros m ctl v1 v2 v3 v4 v5 v6 [k1 k2] Hk0.
    unfold constant_partial in Hk0. simpl in Hk0.
    rewrite !lookup_insert_ne; [done|
      intros ?; simplify_eq; destruct Hk0 as [?|[?|?]]; done..]. }
  assert (Hsame : ∀ (m1 m2 : gmap (string * string) (list num))
                    v1 v2 v3 v4 v5 v6 key,
    dom m1 = dom (subjacs self) → dom m2 = dom (subjacs self) →
    ¬ constant_partial key →
    <[("component_sizing_margin", "power_rating") := v1]>
      (<[("component_sizing_margin", "power_in") := v2]>
      (<[("power_out_B", control (options self)) := v3]>
      (<[("power_out_B", "power_in") := v4]>
      (<[("power_out_A", control (options self)) := v5]>
      (<[("power_out_A", "power_in") := v6]> m1))))) !! key
    = <[("component_sizing_margin", "power_rating") := v1]>
      (<[("component_sizing_margin", "power_in") := v2]>
      (<[("power_out_B", control (options self)) := v3]>
      (<[("power_out_B", "power_in") := v4]>
      (<[("power_out_A", control (options self)) := v5]>
      (<[("power_out_A", "power_in") := v6]> m2))))) !! key).
  { intros m1 m2 v1 v2 v3 v4 v5 v6 key Hd1 Hd2 Hnc.
    rewrite !lookup_insert. repeat case_decide; try done.
    assert (key ∉ dom (subjacs self)) as Hk0.
    { rewrite (subjacs_configured _ _ Hc). cbv zeta.
      rewrite !dom_insert_L, dom_empty_L.
      unfold constant_partial in Hnc. destruct key as [k1 k2]. simpl in Hnc.
      intros Hin. repeat (apply elem_of_union in Hin as [Hin|Hin]);
        try apply elem_of_singleton in Hin; simplify_eq; try done;
        try (apply Hnc; auto; fail). }
    assert (m1 !! key = None) as -> by (apply not_elem_of_dom; by rewrite Hd1).
    assert (m2 !! key = None) as -> by (apply not_elem_of_dom; by rewrite Hd2).
    done. }
  destruct (jacobian_allocated_inv _ _ _ Hc Hal)
    as (ap & ac & bp & bc & hp & cr & wr & mp & mr & Hap & Hlap & Hac & Hlac
        & Hbp & Hlbp & Hbc & Hlbc & _ & _ & _ & _ & _ & _ & Hmp & Hlmp & Hmr & Hlmr).
  destruct (jacobian_allocated_inv _ _ _ Hc Hal0)
    as (ap0 & ac0 & bp0 & bc0 & hp0 & cr0 & wr0 & mp0 & mr0 & Hap0 & Hlap0 & Hac0
        & Hlac0 & Hbp0 & Hlbp0 & Hbc0 & Hlbc0 & _ & _ & _ & _ & _ & _
        & Hmp0 & Hlmp0 & Hmr0 & Hlmr0).
  assert (Halloc : ∀ (m : gmap (string * string) (list num))
                     a1 a2 a3 a4 a5 a6 v1 v2 v3 v4 v5 v6,
    jacobian_allocated self m →
    m !! ("power_out_A", "power_in") = Some a6 →
    m !! ("power_out_A", control (options self)) = Some a5 →
    m !! ("power_out_B", "power_in") = Some a4 →
    m !! ("power_out_B", control (options self)) = Some a3 →
    m !! ("component_sizing_margin", "power_in") = Some a2 →
    m !! ("component_sizing_margin", "power_rating") = Some a1 →
    length v1 = length a1 → length v2 = length a2 → length v3 = length a3 →
    length v4 = length a4 → length v5 = length a5 → length v6 = length a6 →
    jacobian_allocated self
      (<[("component_sizing_margin", "power_rating") := v1]>
      (<[("component_sizing_margin", "power_in") := v2]>
      (<[("power_out_B", control (options self)) := v3]>
      (<[("power_out_B", "power_in") := v4]>
      (<[("power_out_A", control (options self)) := v5]>
      (<[("power_out_A", "power_in") := v6]> m))))))).
  { intros m a1 a2 a3 a4 a5 a6 v1 v2 v3 v4 v5 v6 Hm H6 H5 H4 H3 H2 H1 L1 L2 L3 L4 L5 L6.
    destruct (control_neq (options self)) as [Hc1 Hc2].
    repeat (eapply jacobian_allocated_insert;
      [| repeat (rewrite lookup_insert_ne by congruence); eassumption
       | eassumption ]).
    exact Hm. }
  destruct (rule_configured _ _ Hc) as [Hrule|Hrule].
  - assert (Hctl : control (options self) = "power_split_fraction")
      by (unfold control; by rewrite decide_True).
    pose proof Hk as Hk'. rewrite Hctl in Hk'.
    pose proof (compute_partials_fraction_store _ _ _ _ p c r Hc Hrule Hal Hp Hr Hk' Hlp Hlc) as E.
    pose proof (compute_partials_fraction_store _ _ _ _ p c r Hc Hrule Hal0 Hp Hr Hk' Hlp Hlc) as E0.
    cbv zeta in E, E0. rewrite <-Hctl in E, E0.
    eexists _, _. split; [exact E0|]. split; [exact E|].
    split; [|split; [|split]].
    + eapply Halloc; try eassumption;
        unfold mul_s, s_sub, np_neg; rewrite ?length_fmap, ?length_replicate; lia.
    + eapply Halloc; try eassumption;
        unfold mul_s, s_sub, np_neg; rewrite ?length_fmap, ?length_replicate; lia.
    + intros key Hkey. by apply Hkeep.
    + intros key Hkey. apply Hsame; [apply Hal|apply Hal0|done].
  - assert (Hctl : control (options self) = "power_split_amount").
    { unfold control. rewrite Hrule. by rewrite decide_False. }
    pose proof Hk as Hk'. rewrite Hctl in Hk'.
    pose proof (compute_partials_fixed_store _ _ _ _ p c r Hc Hrule Hal Hp Hr Hk' Hlp Hlc) as E.
    pose proof (compute_partials_fixed_store _ _ _ _ p c r Hc Hrule Hal0 Hp Hr Hk' Hlp Hlc) as E0.
    cbv zeta in E, E0. rewrite <-Hctl in E, E0.
    eexists _, _. split; [exact E0|]. split; [exact E|].
    split; [|split; [|split]].
    + eapply Halloc; try eassumption;
        unfold mul_s, s_mul, s_sub, np_neg, np_zeros, np_ones;
        repeat first [rewrite length_fmap | rewrite length_merge
                     | rewrite length_zip_with | rewrite length_replicate];
        simpl; lia.
    + eapply Halloc; try eassumption;
        unfold mul_s, s_mul, s_sub, np_neg, np_zeros, np_ones;
        repeat first [rewrite length_fmap | rewrite length_merge
                     | rewrite length_zip_with | rewrite length_replicate];
        simpl; lia.
    + intros key Hkey. by apply Hkeep.
    + intros key Hkey. apply Hsame; [apply Hal|apply Hal0|done].
Qed.

Lemma compute_partials_overwrites_witness :
  configured (num:=f64) fixed_kwargs (component_of fixed_kwargs) ∧
  inputs_bound (num:=f64) (component_of fixed_kwargs) fixed_inputs ∧
  jacobian_allocated (num:=f64) (component_of fixed_kwargs) stale_jacobian ∧
  ∃ J J1,
    linearize (num:=f64) (component_of fixed_kwargs) fixed_inputs = Ok J ∧
    compute_partials (component_of fixed_kwargs) fixed_inputs stale_jacobian
      = Ok J1 ∧
    jacobian_allocated (component_of fixed_kwargs) J ∧
    jacobian_allocated (component_of fixed_kwargs) J1 ∧
    (∀ key, constant_partial key → J1 !! key = stale_jacobian !! key) ∧
    (∀ key, ¬ constant_partial key → J1 !! key = J !! key).
Proof.
  assert (Hc : configured (num:=f64) fixed_kwargs (component_of fixed_kwargs))
    by (apply configured_component_of; right; reflexivity).
  assert (Hb : inputs_bound (num:=f64) (component_of fixed_kwargs) fixed_inputs)
    by (apply (bool_decide_unpack _); vm_compute; reflexivity).
  assert (Ha : jacobian_allocated (num:=f64) (component_of fixed_kwargs)
                 stale_jacobian)
    by (split; apply (bool_decide_unpack _); vm_compute; reflexivity).
  split; [exact Hc|]. split; [exact Hb|]. split; [exact Ha|].
  exact (compute_partials_overwrites _ _ _ _ Hc Hb Ha).
Defined.

(** X4. The nodes are independent: changing [power_in] or the control
    input at one node leaves the outputs and the partials at every other
    node unchanged, and leaves [component_cost] and [component_weight]
    unchanged.  This is what the diagonal sparsity declared in [setup]
    ([rows = cols = range(nn)]) relies on. *)
Theorem nodes_independent {num : Type} `{!Arith num}
    (kwargs : list (kwarg num)) (self : system num)
    (inputs : gmap string (list num)) (key : string) (j : nat) (x : num) :
  configured kwargs self → inputs_bound self inputs →
  key = "power_in" ∨ key = control (options self) →
  let ctl := control (options self) in
  ∃ outs outs' J J',
    evaluate self inputs = Ok outs ∧
    evaluate self (set_node inputs key j x) = Ok outs' ∧
    linearize self inputs = Ok J ∧
    linearize self (set_node inputs key j x) = Ok J' ∧
    outs' !! "component_cost" = outs !! "component_cost" ∧
    outs' !! "component_weight" = outs !! "component_weight" ∧
    ∀ i, i < num_nodes (options self) → i ≠ j →
      node outs' "power_out_A" i = node outs "power_out_A" i ∧
      node outs' "power_out_B" i = node outs "power_out_B" i ∧
      node outs' "heat_out" i = node outs "heat_out" i ∧
      node outs' "component_sizing_margin" i
        = node outs "component_sizing_margin" i ∧
      node J' ("power_out_A", "power_in") i = node J ("power_out_A", "power_in") i ∧
      node J' ("power_out_A", ctl) i = node J ("power_out_A", ctl) i ∧
      node J' ("power_out_B", "power_in") i = node J ("power_out_B", "power_in") i ∧
      node J' ("power_out_B", ctl) i = node J ("power_out_B", ctl) i ∧
      node J' ("component_sizing_margin", "power_in") i
        = node J ("component_sizing_margin", "power_in") i ∧
      node J' ("component_sizing_margin", "power_rating") i
        = node J ("component_sizing_margin", "power_rating") i.
Proof.
  intros Hc Hb Hkey ctl.
  pose proof (inputs_bound_set_node self inputs key j x Hb) as Hb'.
  destruct (control_neq (options self)) as [Hc1 Hc2].
  assert (Hkr : key ≠ "power_rating") by (destruct Hkey; congruence).
  destruct (evaluate_common _ _ _ Hc Hb)
    as (outs & pa & r & Hev & Hpa & Hr & _ & Hcost & Hw & _).
  destruct (evaluate_common _ _ _ Hc Hb')
    as (outs' & pa' & r' & Hev' & _ & Hr' & _ & Hcost' & Hw' & _).
  rewrite lookup_set_node_ne in Hr' by done.
  assert (r' = r) as -> by congruence.
  destruct (linearize_nodes _ _ _ Hc Hb) as (J & r1 & Hlin & _ & _ & _ & HJ).
  destruct (linearize_nodes _ _ _ Hc Hb') as (J' & r2 & Hlin' & _ & _ & _ & HJ').
  exists outs, outs', J, J'. do 4 (split; [done|]).
  split; [by rewrite Hcost, Hcost'|]. split; [by rewrite Hw, Hw'|].
  intros i Hi Hij.
  destruct (HJ i Hi) as (p & c & Hp & Hk & _).
  assert (Hp' : node (set_node inputs key j x) "power_in" i = Some p)
    by (rewrite node_set_node_ne by auto; done).
  assert (Hk' : node (set_node inputs key j x) (control (options self)) i = Some c)
    by (rewrite node_set_node_ne by auto; done).
  assert (Hr2 : set_node inputs key j x !! "power_rating" = Some [r])
    by (by rewrite lookup_set_node_ne).
  destruct (evaluate_node_values _ _ _ i p c r Hc Hb Hp Hk Hr)
    as (o1 & E1 & A1 & B1 & H1 & S1 & _).
  destruct (evaluate_node_values _ _ _ i p c r Hc Hb' Hp' Hk' Hr2)
    as (o2 & E2 & A2 & B2 & H2 & S2 & _).
  destruct (linearize_node_values _ _ _ i p c r Hc Hb Hp Hk Hr)
    as (j1 & F1 & P1 & P2 & P3 & P4 & _ & P6 & P7 & _).
  destruct (linearize_node_values _ _ _ i p c r Hc Hb' Hp' Hk' Hr2)
    as (j2 & F2 & Q1 & Q2 & Q3 & Q4 & _ & Q6 & Q7 & _).
  assert (o1 = outs) as -> by congruence.
  assert (o2 = outs') as -> by congruence.
  assert (j1 = J) as -> by congruence.
  assert (j2 = J') as -> by congruence.
  subst ctl.
  rewrite A1, A2, B1, B2, H1, H2, S1, S2, P1, P2, P3, P4, P6, P7,
    Q1, Q2, Q3, Q4, Q6, Q7.
  repeat split; done.
Qed.

Lemma nodes_independent_witness :
  configured (num:=f64) fixed_kwargs (component_of fixed_kwargs) ∧
  inputs_bound (num:=f64) (component_of fixed_kwargs) fixed_inputs ∧
  ("power_in" = "power_in"
   ∨ "power_in" = control (options (component_of (num:=f64) fixed_kwargs))) ∧
  let self := component_of (num:=f64) fixed_kwargs in
  let inputs := fixed_inputs in
  let key := "power_in" in
  let j := 1 in
  let x := of_Z 7 in
  let ctl := control (options self) in
  ∃ outs outs' J J',
    evaluate self inputs = Ok outs ∧
    evaluate self (set_node inputs key j x) = Ok outs' ∧
    linearize self inputs = Ok J ∧
    linearize self (set_node inputs key j x) = Ok J' ∧
    outs' !! "component_cost" = outs !! "component_cost" ∧
    outs' !! "component_weight" = outs !! "component_weight" ∧
    ∀ i, i < num_nodes (options self) → i ≠ j →
      node outs' "power_out_A" i = node outs "power_out_A" i ∧
      node outs' "power_out_B" i = node outs "power_out_B" i ∧
      node outs' "heat_out" i = node outs "heat_out" i ∧
      node outs' "component_sizing_margin" i
        = node outs "component_sizing_margin" i ∧
      node J' ("power_out_A", "power_in") i = node J ("power_out_A", "power_in") i ∧
      node J' ("power_out_A", ctl) i = node J ("power_out_A", ctl) i ∧
      node J' ("power_out_B", "power_in") i = node J ("power_out_B", "power_in") i ∧
      node J' ("power_out_B", ctl) i = node J ("power_out_B", ctl) i ∧
      node J' ("component_sizing_margin", "power_in") i
        = node J ("component_sizing_margin", "power_in") i ∧
      node J' ("component_sizing_margin", "power_rating") i
        = node J ("component_sizing_margin", "power_rating") i.
Proof.
  assert (Hc : configured (num:=f64) fixed_kwargs (component_of fixed_kwargs))
    by (apply configured_component_of; right; reflexivity).
  assert (Hb : inputs_bound (num:=f64) (component_of fixed_kwargs) fixed_inputs)
    by (apply (bool_decide_unpack _); vm_compute; reflexivity).
  assert (Hk : "power_in" = "power_in"
     ∨ "power_in" = control (options (component_of (num:=f64) fixed_kwargs)))
    by (left; reflexivity).
  split; [exact Hc|]. split; [exact Hb|]. split; [exact Hk|].
  exact (nodes_independent _ _ _ "power_in" 1 (of_Z 7) Hc Hb Hk).
Defined.

(** ** Responses *)

Section response_facts.
Context {num : Type} `{!Arith num}.
Implicit Types (self : system num) (inputs : gmap string (list num)).

Lemma response_power_in kwargs self inputs i (p c r x : num) :
  configured kwargs self → inputs_bound self inputs →
  let o := options self in
  node inputs "power_in" i = Some p →
  node inputs (control o) i = Some c →
  inputs !! "power_rating" = Some [r] →
  response self inputs "power_in" i "power_out_A" i x = split_A o x c ∧
  response self inputs "power_in" i "power_out_B" i x = split_B o x c ∧
  response self inputs "power_in" i "heat_out" i x
    = fmul x (fsub fone (efficiency o)) ∧
  response self inputs "power_in" i "component_sizing_margin" i x = fdiv x r.
Proof.
  intros Hc Hb o Hp Hk Hr.
  destruct (control_neq (options self)) as [Hc1 Hc2].
  pose proof (inputs_bound_set_node self inputs "power_in" i x Hb) as Hb'.
  assert (Hp' : node (set_node inputs "power_in" i x) "power_in" i = Some x)
    by (by eapply node_set_node_eq).
  assert (Hk' : node (set_node inputs "power_in" i x) (control (options self)) i
                = Some c) by (rewrite node_set_node_ne by auto; done).
  assert (Hr' : set_node inputs "power_in" i x !! "power_rating" = Some [r])
    by (by rewrite lookup_set_node_ne).
  destruct (evaluate_node_values _ _ _ i x c r Hc Hb' Hp' Hk' Hr')
    as (outs & E & HA & HB & Hh & Hs & _).
  unfold response. rewrite E, HA, HB, Hh, Hs. done.
Qed.

Lemma response_control kwargs self inputs i (p c r x : num) :
  configured kwargs self → inputs_bound self inputs →
  let o := options self in
  node inputs "power_in" i = Some p →
  node inputs (control o) i = Some c →
  inputs !! "power_rating" = Some [r] →
  response self inputs (control o) i "power_out_A" i x = split_A o p x ∧
  response self inputs (control o) i "power_out_B" i x = split_B o p x.
Proof.
  intros Hc Hb o Hp Hk Hr.
  destruct (control_neq (options self)) as [Hc1 Hc2].
  pose proof (inputs_bound_set_node self inputs (control o) i x Hb) as Hb'.
  assert (Hp' : node (set_node inputs (control o) i x) "power_in" i = Some p)
    by (rewrite node_set_node_ne by auto; done).
  assert (Hk' : node (set_node inputs (control o) i x) (control (options self)) i
                = Some x) by (by eapply node_set_node_eq).
  assert (Hr' : set_node inputs (control o) i x !! "power_rating" = Some [r])
    by (by rewrite lookup_set_node_ne).
  destruct (evaluate_node_values _ _ _ i p x r Hc Hb' Hp' Hk' Hr')
    as (outs & E & HA & HB & _).
  unfold response. rewrite E, HA, HB. done.
Qed.

Lemma response_power_rating kwargs self inputs i (p c r x : num) :
  configured kwargs self → inputs_bound self inputs →
  let o := options self in
  node inputs "power_in" i = Some p →
  node inputs (control o) i = Some c →
  inputs !! "power_rating" = Some [r] →
  response self inputs "power_rating" 0 "component_sizing_margin" i x
    = fdiv p x ∧
  response self inputs "power_rating" 0 "component_cost" 0 x
    = fadd (fmul x (cost_inc o)) (cost_base o) ∧
  response self inputs "power_rating" 0 "component_weight" 0 x
    = fadd (fmul x (weight_inc o)) (weight_base o).
Proof.
  intros Hc Hb o Hp Hk Hr.
  destruct (control_neq (options self)) as [Hc1 Hc2].
  pose proof (inputs_bound_set_node self inputs "power_rating" 0 x Hb) as Hb'.
  assert (Hp' : node (set_node inputs "power_rating" 0 x) "power_in" i = Some p)
    by (rewrite node_set_node_ne by auto; done).
  assert (Hk' : node (set_node inputs "power_rating" 0 x) (control (options self)) i
                = Some c) by (rewrite node_set_node_ne by auto; done).
  assert (Hr' : set_node inputs "power_rating" 0 x !! "power_rating" = Some [x])
    by (by rewrite (lookup_set_node_eq _ _ _ _ _ Hr)).
  destruct (evaluate_node_values _ _ _ i p c x Hc Hb' Hp' Hk' Hr')
    as (outs & E & _ & _ & _ & Hs & Hcost & Hw).
  unfold response. rewrite E, Hs, Hcost, Hw. done.
Qed.
End response_facts.

(** ** Derivatives over the reals *)

(** A function that is affine near a point has its slope as derivative
    there. *)
Lemma derivable_pt_lim_locally_affine (g : R → R) (x0 a b d : R) :
  (0 < d)%R →
  (∀ x, (Rabs (x - x0) < d)%R → g x = (a * x + b)%R) →
  derivable_pt_lim g x0 a.
Proof.
  intros Hd Hg eps Heps. exists (mkposreal d Hd). intros h Hh Hlt. simpl in Hlt.
  rewrite (Hg (x0 + h)%R), (Hg x0).
  - replace ((a * (x0 + h) + b - (a * x0 + b)) / h - a)%R with 0%R by (by field).
    by rewrite Rabs_R0.
  - by rewrite Rminus_diag, Rabs_R0.
  - by replace (x0 + h - x0)%R with h by ring.
Qed.

Lemma derivable_pt_lim_affine (g : R → R) (x0 a b : R) :
  (∀ x, g x = (a * x + b)%R) → derivable_pt_lim g x0 a.
Proof.
  intros Hg. apply (derivable_pt_lim_locally_affine g x0 a b 1); [lra|auto].
Qed.

Lemma derivable_pt_lim_ext (f g : R → R) (x l : R) :
  (∀ y, f y = g y) → derivable_pt_lim f x l → derivable_pt_lim g x l.
Proof.
  intros Hfg Hf eps Heps. destruct (Hf eps Heps) as [delta Hdelta].
  exists delta. intros h Hh Hlt. rewrite <-!Hfg. by apply Hdelta.
Qed.

(** X5. Proportional rule: the four partials that [linearize] returns
    are the derivatives, in the sense of real analysis, of the outputs
    that [evaluate] returns, taken as functions of [power_in] or of
    [power_split_fraction] at the node. *)
Theorem partials_are_derivatives_fraction (kwargs : list (kwarg R))
    (self : system R) (inputs : gmap string (list R)) :
  configured kwargs self → rule (options self) = "fraction" →
  inputs_bound self inputs →
  ∃ J, linearize self inputs = Ok J ∧
    ∀ i, i < num_nodes (options self) →
      ∃ p f jAp jAf jBp jBf : R,
        node inputs "power_in" i = Some p ∧
        node inputs "power_split_fraction" i = Some f ∧
        node J ("power_out_A", "power_in") i = Some jAp ∧
        node J ("power_out_A", "power_split_fraction") i = Some jAf ∧
        node J ("power_out_B", "power_in") i = Some jBp ∧
        node J ("power_out_B", "power_split_fraction") i = Some jBf ∧
        derivable_pt_lim
          (response self inputs "power_in" i "power_out_A" i) p jAp ∧
        derivable_pt_lim
          (response self inputs "power_split_fraction" i "power_out_A" i) f jAf ∧
        derivable_pt_lim
          (response self inputs "power_in" i "power_out_B" i) p jBp ∧
        derivable_pt_lim
          (response self inputs "power_split_fraction" i "power_out_B" i) f jBf.
Proof.
  intros Hc Hrule Hb.
  destruct (linearize_nodes _ _ _ Hc Hb) as (J & r & Hlin & Hr & _ & _ & Hn).
  exists J. split; [done|]. intros i Hi.
  destruct (Hn i Hi) as (p & f & Hp & Hf & HAp & HAc & HBp & HBc & _).
  assert (Hctl : control (options self) = "power_split_fraction")
    by (unfold control; by rewrite decide_True).
  exists p, f, (dA_dp (options self) p f), (dA_dc (options self) p f),
    (dB_dp (options self) p f), (dB_dc (options self) p f).
  pose proof (λ x, response_power_in _ _ _ i p f r x Hc Hb Hp Hf Hr) as Rp.
  pose proof (λ x, response_control _ _ _ i p f r x Hc Hb Hp Hf Hr) as Rc.
  cbv zeta in Rp, Rc. rewrite Hctl in Rc, Hf, HAc, HBc.
  do 6 (split; [done|]).
  unfold dA_dp, dA_dc, dB_dp, dB_dc. rewrite !decide_True by done. simpl.
  repeat split.
  - apply (derivable_pt_lim_affine _ _ _ 0%R). intros x.
    rewrite (proj1 (Rp x)). unfold split_A. rewrite decide_True by done.
    simpl. ring.
  - apply (derivable_pt_lim_affine _ _ _ 0%R). intros x.
    rewrite (proj1 (Rc x)). unfold split_A. rewrite decide_True by done.
    simpl. ring.
  - apply (derivable_pt_lim_affine _ _ _ 0%R). intros x.
    rewrite (proj1 (proj2 (Rp x))). unfold split_B. rewrite decide_True by done.
    simpl. ring.
  - apply (derivable_pt_lim_affine _ _ _ (p * efficiency (options self))%R).
    intros x.
    rewrite (proj2 (Rc x)). unfold split_B. rewrite decide_True by done.
    simpl. ring.
Qed.

(** X6. Fixed-amount rule, away from the kink ([power_in] different from
    [power_split_amount] at the node): the four partials that
    [linearize] returns are the derivatives of the outputs of
    [evaluate] with respect to [power_in] and [power_split_amount]. *)
Theorem partials_are_derivatives_fixed (kwargs : list (kwarg R))
    (self : system R) (inputs : gmap string (list R)) (i : nat) (p s : R) :
  configured kwargs self → rule (options self) = "fixed" →
  inputs_bound self inputs →
  node inputs "power_in" i = Some p →
  node inputs "power_split_amount" i = Some s →
  p ≠ s →
  ∃ J (jAp jAs jBp jBs : R),
    linearize self inputs = Ok J ∧
    node J ("power_out_A", "power_in") i = Some jAp ∧
    node J ("power_out_A", "power_split_amount") i = Some jAs ∧
    node J ("power_out_B", "power_in") i = Some jBp ∧
    node J ("power_out_B", "power_split_amount") i = Some jBs ∧
    derivable_pt_lim
      (response self inputs "power_in" i "power_out_A" i) p jAp ∧
    derivable_pt_lim
      (response self inputs "power_split_amount" i "power_out_A" i) s jAs ∧
    derivable_pt_lim
      (response self inputs "power_in" i "power_out_B" i) p jBp ∧
    derivable_pt_lim
      (response self inputs "power_split_amount" i "power_out_B" i) s jBs.
Proof.
  intros Hc Hrule Hb Hp Hs Hne.
  assert (Hctl : control (options self) = "power_split_amount").
  { unfold control. rewrite Hrule. by rewrite decide_False. }
  destruct (inputs_bound_inv _ _ _ Hc Hb) as (pa & ca & r & _ & _ & Hr & _).
  rewrite <-Hctl in Hs.
  destruct (linearize_node_values _ _ _ i p s r Hc Hb Hp Hs Hr)
    as (J & Hlin & HAp & HAc & HBp & HBc & _).
  rewrite Hctl in HAc, HBc.
  exists J, (dA_dp (options self) p s), (dA_dc (options self) p s),
    (dB_dp (options self) p s), (dB_dc (options self) p s).
  do 5 (split; [done|]).
  pose proof (λ x, response_power_in _ _ _ i p s r x Hc Hb Hp Hs Hr) as Rp.
  pose proof (λ x, response_control _ _ _ i p s r x Hc Hb Hp Hs Hr) as Rc.
  cbv zeta in Rp, Rc. rewrite Hctl in Rc.
  set (eta := efficiency (options self)).
  destruct (partials_fixed_R (options self) p s Hrule) as [Plt Pge].
  fold eta in Plt, Pge.
  assert (Hd : (0 < Rabs (p - s))%R) by (apply Rabs_pos_lt; lra).
  destruct (Rlt_dec p s) as [Hlt|Hge].
  - destruct (Plt Hlt) as (-> & -> & -> & ->).
    assert (Hd' : Rabs (p - s) = (s - p)%R) by (rewrite Rabs_left; lra).
    repeat split.
    + apply (derivable_pt_lim_locally_affine _ _ _ 0%R _ Hd). intros x Hx.
      rewrite (proj1 (Rp x)). apply Rabs_def2 in Hx.
      destruct (split_fixed_R (options self) x s Hrule) as [H1 _].
      rewrite (proj1 (H1 ltac:(lra))). fold eta. ring.
    + apply (derivable_pt_lim_locally_affine _ _ _ (p * eta)%R _ Hd). intros x Hx.
      rewrite (proj1 (Rc x)). apply Rabs_def2 in Hx.
      destruct (split_fixed_R (options self) p x Hrule) as [H1 _].
      rewrite (proj1 (H1 ltac:(lra))). fold eta. ring.
    + apply (derivable_pt_lim_locally_affine _ _ _ 0%R _ Hd). intros x Hx.
      rewrite (proj1 (proj2 (Rp x))). apply Rabs_def2 in Hx.
      destruct (split_fixed_R (options self) x s Hrule) as [H1 _].
      rewrite (proj2 (H1 ltac:(lra))). ring.
    + apply (derivable_pt_lim_locally_affine _ _ _ 0%R _ Hd). intros x Hx.
      rewrite (proj2 (Rc x)). apply Rabs_def2 in Hx.
      destruct (split_fixed_R (options self) p x Hrule) as [H1 _].
      rewrite (proj2 (H1 ltac:(lra))). ring.
  - destruct (Pge Hge) as (-> & -> & -> & ->).
    assert (Hd' : Rabs (p - s) = (p - s)%R) by (rewrite Rabs_right; lra).
    repeat split.
    + apply (derivable_pt_lim_locally_affine _ _ _ (s * eta)%R _ Hd). intros x Hx.
      rewrite (proj1 (Rp x)). apply Rabs_def2 in Hx.
      destruct (split_fixed_R (options self) x s Hrule) as [_ H1].
      rewrite (proj1 (H1 ltac:(lra))). fold eta. ring.
    + apply (derivable_pt_lim_locally_affine _ _ _ 0%R _ Hd). intros x Hx.
      rewrite (proj1 (Rc x)). apply Rabs_def2 in Hx.
      destruct (split_fixed_R (options self) p x Hrule) as [_ H1].
      rewrite (proj1 (H1 ltac:(lra))). fold eta. ring.
    + apply (derivable_pt_lim_locally_affine _ _ _ (- s * eta)%R _ Hd). intros x Hx.
      rewrite (proj1 (proj2 (Rp x))). apply Rabs_def2 in Hx.
      destruct (split_fixed_R (options self) x s Hrule) as [_ H1].
      rewrite (proj2 (H1 ltac:(lra))). fold eta. ring.
    + apply (derivable_pt_lim_locally_affine _ _ _ (p * eta)%R _ Hd). intros x Hx.
      rewrite (proj2 (Rc x)). apply Rabs_def2 in Hx.
      destruct (split_fixed_R (options self) p x Hrule) as [_ H1].
      rewrite (proj2 (H1 ltac:(lra))). fold eta. ring.
Qed.

(** X7. Fixed-amount rule, at the kink ([power_in] equal to
    [power_split_amount] at a node) with a non-zero efficiency: the
    outputs are not differentiable in [power_in] there.  The partials
    that [linearize] returns are the slopes on the side of larger
    [power_in]: for every increase [h >= 0] the outputs change by
    exactly the partial times [h]. *)
Theorem fixed_amount_kink (kwargs : list (kwarg R))
    (self : system R) (inputs : gmap string (list R)) (i : nat) (p : R) :
  configured kwargs self → rule (options self) = "fixed" →
  inputs_bound self inputs →
  node inputs "power_in" i = Some p →
  node inputs "power_split_amount" i = Some p →
  efficiency (options self) ≠ 0%R →
  let A := response self inputs "power_in" i "power_out_A" i in
  let B := response self inputs "power_in" i "power_out_B" i in
  (¬ ∃ l, derivable_pt_lim A p l) ∧
  (¬ ∃ l, derivable_pt_lim B p l) ∧
  ∃ J (jAp jBp : R),
    linearize self inputs = Ok J ∧
    node J ("power_out_A", "power_in") i = Some jAp ∧
    node J ("power_out_B", "power_in") i = Some jBp ∧
    ∀ h, (0 <= h)%R →
      A (p + h)%R = (A p + jAp * h)%R ∧ B (p + h)%R = (B p + jBp * h)%R.
Proof.
  intros Hc Hrule Hb Hp Hs Heta A B.
  assert (Hctl : control (options self) = "power_split_amount").
  { unfold control. rewrite Hrule. by rewrite decide_False. }
  destruct (inputs_bound_inv _ _ _ Hc Hb) as (pa & ca & r & _ & _ & Hr & _).
  rewrite <-Hctl in Hs.
  pose proof (λ x, response_power_in _ _ _ i p p r x Hc Hb Hp Hs Hr) as Rp.
  cbv zeta in Rp.
  set (eta := efficiency (options self)) in *.
  assert (HA : ∀ x, A x = if Rlt_dec x p then (x * eta)%R else (p * eta)%R).
  { intros x. unfold A. rewrite (proj1 (Rp x)).
    destruct (split_fixed_R (options self) x p Hrule) as [H1 H2].
    destruct (Rlt_dec x p) as [H|H]; [apply (H1 H)|apply (H2 H)]. }
  assert (HB : ∀ x, B x = if Rlt_dec x p then 0%R else ((x - p) * eta)%R).
  { intros x. unfold B. rewrite (proj1 (proj2 (Rp x))).
    destruct (split_fixed_R (options self) x p Hrule) as [H1 H2].
    destruct (Rlt_dec x p) as [H|H]; [apply (H1 H)|apply (H2 H)]. }
  assert (Hhalf : (0 < Rabs eta / 2)%R).
  { pose proof (Rabs_pos_lt eta Heta). lra. }
  split; [|split].
  - intros [l Hl]. destruct (Hl _ Hhalf) as [delta Hdelta].
    pose proof (cond_pos delta) as Hpos.
    pose proof (Hdelta (delta / 2)%R ltac:(lra)
                  ltac:(rewrite Rabs_right; lra)) as H1.
    pose proof (Hdelta (- (delta / 2))%R ltac:(lra)
                  ltac:(rewrite Rabs_left; lra)) as H2.
    rewrite !HA in H1, H2.
    destruct (Rlt_dec (p + delta / 2) p) as [?|_]; [lra|].
    destruct (Rlt_dec (p + - (delta / 2)) p) as [_|?]; [|lra].
    destruct (Rlt_dec p p) as [?|_]; [lra|].
    replace ((p * eta - p * eta) / (delta / 2) - l)%R with (- l)%R in H1
      by (field; lra).
    replace (((p + - (delta / 2)) * eta - p * eta) / - (delta / 2) - l)%R
      with (eta - l)%R in H2 by (field; lra).
    apply Rabs_def2 in H1, H2.
    destruct (Rcase_abs eta) as [Hneg|Hnn].
    + rewrite (Rabs_left _ Hneg) in H1, H2. lra.
    + rewrite (Rabs_right _ Hnn) in H1, H2. lra.
  - intros [l Hl]. destruct (Hl _ Hhalf) as [delta Hdelta].
    pose proof (cond_pos delta) as Hpos.
    pose proof (Hdelta (delta / 2)%R ltac:(lra)
                  ltac:(rewrite Rabs_right; lra)) as H1.
    pose proof (Hdelta (- (delta / 2))%R ltac:(lra)
                  ltac:(rewrite Rabs_left; lra)) as H2.
    rewrite !HB in H1, H2.
    destruct (Rlt_dec (p + delta / 2) p) as [?|_]; [lra|].
    destruct (Rlt_dec (p + - (delta / 2)) p) as [_|?]; [|lra].
    destruct (Rlt_dec p p) as [?|_]; [lra|].
    replace (((p + delta / 2 - p) * eta - (p - p) * eta) / (delta / 2) - l)%R
      with (eta - l)%R in H1 by (field; lra).
    replace ((0 - (p - p) * eta) / - (delta / 2) - l)%R
      with (- l)%R in H2 by (field; lra).
    apply Rabs_def2 in H1, H2.
    destruct (Rcase_abs eta) as [Hneg|Hnn].
    + rewrite (Rabs_left _ Hneg) in H1, H2. lra.
    + rewrite (Rabs_right _ Hnn) in H1, H2. lra.
  - destruct (linearize_node_values _ _ _ i p p r Hc Hb Hp Hs Hr)
      as (J & Hlin & HAp & _ & HBp & _).
    destruct (partials_fixed_R (options self) p p Hrule) as [_ Pge].
    destruct (Pge ltac:(lra)) as (EA & _ & EB & _).
    rewrite EA in HAp. rewrite EB in HBp.
    exists J, 0%R, eta. do 3 (split; [done|]).
    intros h Hh. rewrite !HA, !HB.
    destruct (Rlt_dec (p + h) p) as [?|_]; [lra|].
    destruct (Rlt_dec p p) as [?|_]; [lra|].
    split; ring.
Qed.

(** X8. The partials that do not depend on the rule are derivatives
    too: that of [heat_out] with respect to [power_in] (the constant
    declared in [setup]), those of cost and weight with respect to
    [power_rating] and, for a non-zero rating, those of the sizing
    margin with respect to [power_in] and to [power_rating].  At a zero
    rating the margin is a division by zero and nothing is said. *)
Theorem common_partials_are_derivatives (kwargs : list (kwarg R))
    (self : system R) (inputs : gmap string (list R)) (i : nat) :
  configured kwargs self → inputs_bound self inputs →
  i < num_nodes (options self) →
  ∃ J (p r jh jmp jmr jc jw : R),
    linearize self inputs = Ok J ∧
    node inputs "power_in" i = Some p ∧
    inputs !! "power_rating" = Some [r] ∧
    node J ("heat_out", "power_in") i = Some jh ∧
    node J ("component_sizing_margin", "power_in") i = Some jmp ∧
    node J ("component_sizing_margin", "power_rating") i = Some jmr ∧
    node J ("component_cost", "power_rating") 0 = Some jc ∧
    node J ("component_weight", "power_rating") 0 = Some jw ∧
    derivable_pt_lim (response self inputs "power_in" i "heat_out" i) p jh ∧
    (r ≠ 0%R →
     derivable_pt_lim
       (response self inputs "power_in" i "component_sizing_margin" i) p jmp ∧
     derivable_pt_lim
       (response self inputs "power_rating" 0 "component_sizing_margin" i) r jmr) ∧
    derivable_pt_lim
      (response self inputs "power_rating" 0 "component_cost" 0) r jc ∧
    derivable_pt_lim
      (response self inputs "power_rating" 0 "component_weight" 0) r jw.
Proof.
  intros Hc Hb Hi.
  destruct (linearize_nodes _ _ _ Hc Hb) as (J0 & r & _ & Hr & _ & _ & Hn).
  destruct (Hn i Hi) as (p & c & Hp & Hk & _).
  destruct (linearize_node_values _ _ _ i p c r Hc Hb Hp Hk Hr)
    as (J & Hlin & _ & _ & _ & _ & Hh & Hmp & Hmr & Hcost & Hw).
  eexists J, p, r, _, _, _, _, _. do 8 (split; [eassumption|]).
  pose proof (λ x, response_power_in _ _ _ i p c r x Hc Hb Hp Hk Hr) as Rp.
  pose proof (λ x, response_power_rating _ _ _ i p c r x Hc Hb Hp Hk Hr) as Rr.
  cbv zeta in Rp, Rr. simpl.
  split; [|split; [|split]].
  - apply (derivable_pt_lim_affine _ _ _ 0%R). intros x.
    rewrite (proj1 (proj2 (proj2 (Rp x)))). simpl. ring.
  - intros Hr0. split.
    { apply (derivable_pt_lim_affine _ _ _ 0%R). intros x.
      rewrite (proj2 (proj2 (proj2 (Rp x)))). simpl. field. done. }
    apply (derivable_pt_lim_ext (fct_cte p / Ranalysis1.id)%F).
    { intros x. rewrite (proj1 (Rr x)). reflexivity. }
    replace (- p / (r * r))%R
      with ((0 * Ranalysis1.id r - 1 * fct_cte p r) / Rsqr (Ranalysis1.id r))%R.
    + apply derivable_pt_lim_div;
        [apply derivable_pt_lim_const | apply derivable_pt_lim_id | done].
    + unfold Ranalysis1.id, fct_cte, Rsqr. field. done.
  - apply (derivable_pt_lim_affine _ _ _ (cost_base (options self))). intros x.
    rewrite (proj1 (proj2 (Rr x))). simpl. ring.
  - apply (derivable_pt_lim_affine _ _ _ (weight_base (options self))). intros x.
    rewrite (proj2 (proj2 (Rr x))). simpl. ring.
Qed.

Lemma partials_are_derivatives_fraction_witness :
  configured (num:=R) fraction_kwargs (component_of fraction_kwargs) ∧
  rule (options (component_of (num:=R) fraction_kwargs)) = "fraction" ∧
  inputs_bound (num:=R) (component_of fraction_kwargs) fraction_inputs ∧
  let self := component_of (num:=R) fraction_kwargs in
  let inputs := fraction_inputs in
  ∃ J, linearize self inputs = Ok J ∧
    ∀ i, i < num_nodes (options self) →
      ∃ p f jAp jAf jBp jBf : R,
        node inputs "power_in" i = Some p ∧
        node inputs "power_split_fraction" i = Some f ∧
        node J ("power_out_A", "power_in") i = Some jAp ∧
        node J ("power_out_A", "power_split_fraction") i = Some jAf ∧
        node J ("power_out_B", "power_in") i = Some jBp ∧
        node J ("power_out_B", "power_split_fraction") i = Some jBf ∧
        derivable_pt_lim
          (response self inputs "power_in" i "power_out_A" i) p jAp ∧
        derivable_pt_lim
          (response self inputs "power_split_fraction" i "power_out_A" i) f jAf ∧
        derivable_pt_lim
          (response self inputs "power_in" i "power_out_B" i) p jBp ∧
        derivable_pt_lim
          (response self inputs "power_split_fraction" i "power_out_B" i) f jBf.
Proof.
  assert (Hc : configured (num:=R) fraction_kwargs (component_of fraction_kwargs))
    by (apply configured_component_of; left; reflexivity).
  assert (Hr : rule (options (component_of (num:=R) fraction_kwargs)) = "fraction")
    by reflexivity.
  assert (Hb : inputs_bound (num:=R) (component_of fraction_kwargs) fraction_inputs)
    by (apply (bool_decide_unpack _); vm_compute; reflexivity).
  split; [exact Hc|]. split; [exact Hr|]. split; [exact Hb|].
  exact (partials_are_derivatives_fraction _ _ _ Hc Hr Hb).
Defined.

Lemma partials_are_derivatives_fixed_witness :
  configured (num:=R) fixed_kwargs (component_of fixed_kwargs) ∧
  rule (options (component_of (num:=R) fixed_kwargs)) = "fixed" ∧
  inputs_bound (num:=R) (component_of fixed_kwargs) fixed_inputs ∧
  node (num:=R) fixed_inputs "power_in" 0 = Some 100%R ∧
  node (num:=R) fixed_inputs "power_split_amount" 0 = Some 30%R ∧
  100%R ≠ 30%R ∧
  let self := component_of (num:=R) fixed_kwargs in
  let inputs := fixed_inputs in
  let i := 0 in
  ∃ J (jAp jAs jBp jBs : R),
    linearize self inputs = Ok J ∧
    node J ("power_out_A", "power_in") i = Some jAp ∧
    node J ("power_out_A", "power_split_amount") i = Some jAs ∧
    node J ("power_out_B", "power_in") i = Some jBp ∧
    node J ("power_out_B", "power_split_amount") i = Some jBs ∧
    derivable_pt_lim
      (response self inputs "power_in" i "power_out_A" i) 100 jAp ∧
    derivable_pt_lim
      (response self inputs "power_split_amount" i "power_out_A" i) 30 jAs ∧
    derivable_pt_lim
      (response self inputs "power_in" i "power_out_B" i) 100 jBp ∧
    derivable_pt_lim
      (response self inputs "power_split_amount" i "power_out_B" i) 30 jBs.
Proof.
  assert (Hc : configured (num:=R) fixed_kwargs (component_of fixed_kwargs))
    by (apply configured_component_of; right; reflexivity).
  assert (Hr : rule (options (component_of (num:=R) fixed_kwargs)) = "fixed")
    by reflexivity.
  assert (Hb : inputs_bound (num:=R) (component_of fixed_kwargs) fixed_inputs)
    by (apply (bool_decide_unpack _); vm_compute; reflexivity).
  assert (Hp : node (num:=R) fixed_inputs "power_in" 0 = Some 100%R)
    by reflexivity.
  assert (Hs : node (num:=R) fixed_inputs "power_split_amount" 0 = Some 30%R)
    by reflexivity.
  assert (Hne : 100%R ≠ 30%R) by lra.
  split; [exact Hc|]. split; [exact Hr|]. split; [exact Hb|].
  split; [exact Hp|]. split; [exact Hs|]. split; [exact Hne|].
  exact (partials_are_derivatives_fixed _ _ _ 0 _ _ Hc Hr Hb Hp Hs Hne).
Defined.

Lemma fixed_amount_kink_witness :
  configured (num:=R) fixed_kwargs (component_of fixed_kwargs) ∧
  rule (options (component_of (num:=R) fixed_kwargs)) = "fixed" ∧
  inputs_bound (num:=R) (component_of fixed_kwargs) fixed_inputs ∧
  node (num:=R) fixed_inputs "power_in" 2 = Some 40%R ∧
  node (num:=R) fixed_inputs "power_split_amount" 2 = Some 40%R ∧
  efficiency (options (component_of (num:=R) fixed_kwargs)) ≠ 0%R ∧
  let self := component_of (num:=R) fixed_kwargs in
  let inputs := fixed_inputs in
  let i := 2 in
  let p := 40%R in
  let A := response self inputs "power_in" i "power_out_A" i in
  let B := response self inputs "power_in" i "power_out_B" i in
  (¬ ∃ l, derivable_pt_lim A p l) ∧
  (¬ ∃ l, derivable_pt_lim B p l) ∧
  ∃ J (jAp jBp : R),
    linearize self inputs = Ok J ∧
    node J ("power_out_A", "power_in") i = Some jAp ∧
    node J ("power_out_B", "power_in") i = Some jBp ∧
    ∀ h, (0 <= h)%R →
      A (p + h)%R = (A p + jAp * h)%R ∧ B (p + h)%R = (B p + jBp * h)%R.
Proof.
  assert (Hc : configured (num:=R) fixed_kwargs (component_of fixed_kwargs))
    by (apply configured_component_of; right; reflexivity).
  assert (Hr : rule (options (component_of (num:=R) fixed_kwargs)) = "fixed")
    by reflexivity.
  assert (Hb : inputs_bound (num:=R) (component_of fixed_kwargs) fixed_inputs)
    by (apply (bool_decide_unpack _); vm_compute; reflexivity).
  assert (Hp : node (num:=R) fixed_inputs "power_in" 2 = Some 40%R)
    by reflexivity.
  assert (Hs : node (num:=R) fixed_inputs "power_split_amount" 2 = Some 40%R)
    by reflexivity.
  assert (He : efficiency (options (component_of (num:=R) fixed_kwargs)) ≠ 0%R).
  { change ((95 / 100)%R ≠ 0%R). lra. }
  split; [exact Hc|]. split; [exact Hr|]. split; [exact Hb|].
  split; [exact Hp|]. split; [exact Hs|]. split; [exact He|].
  exact (fixed_amount_kink _ _ _ 2 _ Hc Hr Hb Hp Hs He).
Defined.

Lemma common_partials_are_derivatives_witness :
  configured (num:=R) fixed_kwargs (component_of fixed_kwargs) ∧
  inputs_bound (num:=R) (component_of fixed_kwargs) fixed_inputs ∧
  1 < num_nodes (options (component_of (num:=R) fixed_kwargs)) ∧
  let self := component_of (num:=R) fixed_kwargs in
  let inputs := fixed_inputs in
  let i := 1 in
  ∃ J (p r jh jmp jmr jc jw : R),
    linearize self inputs = Ok J ∧
    node inputs "power_in" i = Some p ∧
    inputs !! "power_rating" = Some [r] ∧
    node J ("heat_out", "power_in") i = Some jh ∧
    node J ("component_sizing_margin", "power_in") i = Some jmp ∧
    node J ("component_sizing_margin", "power_rating") i = Some jmr ∧
    node J ("component_cost", "power_rating") 0 = Some jc ∧
    node J ("component_weight", "power_rating") 0 = Some jw ∧
    derivable_pt_lim (response self inputs "power_in" i "heat_out" i) p jh ∧
    (r ≠ 0%R →
     derivable_pt_lim
       (response self inputs "power_in" i "component_sizing_margin" i) p jmp ∧
     derivable_pt_lim
       (response self inputs "power_rating" 0 "component_sizing_margin" i) r jmr) ∧
    derivable_pt_lim
      (response self inputs "power_rating" 0 "component_cost" 0) r jc ∧
    derivable_pt_lim
      (response self inputs "power_rating" 0 "component_weight" 0) r jw.
Proof.
  assert (Hc : configured (num:=R) fixed_kwargs (component_of fixed_kwargs))
    by (apply configured_component_of; right; reflexivity).
  assert (Hb : inputs_bound (num:=R) (component_of fixed_kwargs) fixed_inputs)
    by (apply (bool_decide_unpack _); vm_compute; reflexivity).
  assert (Hi : 1 < num_nodes (options (component_of (num:=R) fixed_kwargs)))
    by (simpl; lia).
  split; [exact Hc|]. split; [exact Hb|]. split; [exact Hi|].
  exact (common_partials_are_derivatives _ _ _ 1 Hc Hb Hi).
Defined.

(** ** Missing inputs, ranges and symmetries *)

Lemma lookup_scale_input_eq {num : Type} `{!Arith num} (k : num) key
    (inputs : gmap string (list num)) :
  scale_input k key inputs !! key = fmap (fmul k) <$> inputs !! key.
Proof. unfold scale_input. by rewrite lookup_alter_eq. Qed.

Lemma lookup_scale_input_ne {num : Type} `{!Arith num} (k : num) key key'
    (inputs : gmap string (list num)) :
  key ≠ key' → scale_input k key inputs !! key' = inputs !! key'.
Proof. intros. unfold scale_input. by rewrite lookup_alter_ne. Qed.

Lemma inputs_bound_scale_input {num : Type} `{!Arith num} (self : system num)
    (k : num) key (inputs : gmap string (list num)) :
  inputs_bound self inputs → inputs_bound self (scale_input k key inputs).
Proof.
  intros Hb name m Hm. specialize (Hb name m Hm). simpl in *.
  destruct (decide (key = name)) as [<-|Hne].
  - rewrite lookup_scale_input_eq. destruct (inputs !! key); simpl in *; [|done].
    by rewrite length_fmap.
  - by rewrite lookup_scale_input_ne.
Qed.

Lemma node_scale_input_eq {num : Type} `{!Arith num} (k : num) key
    (inputs : gmap string (list num)) i :
  node (scale_input k key inputs) key i = fmul k <$> node inputs key i.
Proof.
  unfold node. rewrite lookup_scale_input_eq.
  destruct (inputs !! key); simpl; [|done]. by rewrite list_lookup_fmap.
Qed.

Lemma node_scale_input_ne {num : Type} `{!Arith num} (k : num) key key'
    (inputs : gmap string (list num)) i :
  key ≠ key' → node (scale_input k key inputs) key' i = node inputs key' i.
Proof. intros. unfold node. by rewrite lookup_scale_input_ne. Qed.

(** *** Calls in place

    [compute_inplace] and [compute_partials_inplace] are the two
    methods executed on the vector they are handed.  A caller that
    does not look at the vector after an exception sees [compute] and
    [compute_partials]. *)

Section inplace_facts.
Context {num : Type} `{!Arith num}.

Ltac step_result :=
  match goal with
  | |- context [match ?x with Ok _ => _ | Raise _ => _ end] =>
      lazymatch x with
      | context [match _ with Ok _ => _ | Raise _ => _ end] => fail
      | _ => destruct x; simpl; try reflexivity
      end
  end.

Lemma compute_inplace_outcome (self : system num)
    (inputs outputs : gmap string (list num)) :
  compute self inputs outputs = outcome (compute_inplace self inputs outputs).
Proof.
  unfold compute, compute_inplace, compute_statements, fixed_split. cbv zeta.
  unfold mbind, result_bind, fmap, result_fmap.
  destruct (decide (rule (options self) = "fraction"));
    [|destruct (decide (rule (options self) = "fixed"))]; simpl.
  all: repeat step_result.
Qed.

Lemma compute_partials_inplace_outcome (self : system num)
    (inputs : gmap string (list num)) (J : gmap (string * string) (list num)) :
  compute_partials self inputs J
  = outcome (compute_partials_inplace self inputs J).
Proof.
  unfold compute_partials, compute_partials_inplace,
    compute_partials_statements, fixed_partials. cbv zeta.
  unfold mbind, result_bind, fmap, result_fmap.
  destruct (decide (rule (options self) = "fraction"));
    [|destruct (decide (rule (options self) = "fixed"))]; simpl.
  all: repeat step_result.
Qed.
End inplace_facts.

Section inplace_exec.
Context {num : Type} `{!Arith num}.

Lemma exec_app `{Countable K} (show : K → string)
    (l1 l2 : list (K * result (list num))) (s : gmap K (list num)) :
  exec show (l1 ++ l2) s
  = match exec show l1 s with
    | (s1, None) => exec show l2 s1
    | (s1, Some e) => (s1, Some e)
    end.
Proof.
  revert s. induction l1 as [|[k [v|e]] l1 IH]; intros s; simpl; [done| |done].
  destruct (setitem show s k v); [apply IH|done].
Qed.

Lemma setitem_lookup_ne `{Countable K} (show : K → string)
    (s s' : gmap K (list num)) (k k' : K) (v : list num) :
  setitem show s k v = Ok s' → k' ≠ k → s' !! k' = s !! k'.
Proof.
  unfold setitem. intros Hs Hne.
  destruct (s !! k) as [old|]; [|done].
  case_decide; [|destruct v as [|x [|??]]]; simplify_eq;
    by rewrite lookup_insert_ne.
Qed.

(** An execution changes no array other than those it assigns. *)
Lemma exec_lookup_ne `{Countable K} (show : K → string)
    (l : list (K * result (list num))) (s s' : gmap K (list num))
    (r : option exn) (k : K) :
  exec show l s = (s', r) → k ∉ l.*1 → s' !! k = s !! k.
Proof.
  revert s. induction l as [|[k0 [v|e]] l IH]; intros s; simpl; intros He Hk.
  - by simplify_eq.
  - apply not_elem_of_cons in Hk as [Hne Hk].
    destruct (setitem show s k0 v) as [s0|e] eqn:Es; [|by simplify_eq].
    rewrite (IH _ He Hk). by eapply setitem_lookup_ne.
  - by simplify_eq.
Qed.

Lemma getitem_delete_ne (inputs : gmap string (list num)) (m k : string) :
  m ≠ k → getitem show_name (delete m inputs) k = getitem show_name inputs k.
Proof. intros Hne. unfold getitem. by rewrite lookup_delete_ne. Qed.

Lemma getitem_delete_eq (inputs : gmap string (list num)) (m : string) :
  getitem show_name (delete m inputs) m = Raise (KeyError m).
Proof. unfold getitem. by rewrite lookup_delete_eq. Qed.

(** Without [power_rating], the assignments of [compute] are those of
    the complete call up to [heat_out]; the next one raises. *)
Lemma compute_statements_without_rating (kwargs : list (kwarg num))
    (self : system num) (inputs : gmap string (list num)) :
  configured kwargs self →
  ∃ pre post post',
    compute_statements self inputs = pre ++ post ∧
    compute_statements self (delete "power_rating" inputs)
      = pre ++ ("component_cost", Raise (KeyError "power_rating")) :: post' ∧
    pre.*1 = ["power_out_A"; "power_out_B"; "heat_out"] ∧
    post.*1 = ["component_cost"; "component_weight"; "component_sizing_margin"].
Proof.
  intros Hc. unfold compute_statements, fixed_split. cbv zeta.
  rewrite !(getitem_delete_ne _ "power_rating") by done.
  rewrite !getitem_delete_eq.
  destruct (rule_configured _ _ Hc) as [Hrule|Hrule]; rewrite Hrule.
  - rewrite !decide_True by done.
    eexists [_; _; _], [_; _; _], _. split; [reflexivity|].
    split; [reflexivity|]. done.
  - rewrite !(decide_False (P:="fixed" = "fraction")) by done.
    rewrite !decide_True by done.
    eexists [_; _; _], [_; _; _], _. split; [reflexivity|].
    split; [reflexivity|]. done.
Qed.

Lemma compute_partials_statements_without_rating (kwargs : list (kwarg num))
    (self : system num) (inputs : gmap string (list num)) :
  configured kwargs self →
  let ctl := control (options self) in
  ∃ pre post post',
    compute_partials_statements self inputs = pre ++ post ∧
    compute_partials_statements self (delete "power_rating" inputs)
      = pre ++ (("component_sizing_margin", "power_in"),
                Raise (KeyError "power_rating")) :: post' ∧
    pre.*1 = [("power_out_A", "power_in"); ("power_out_A", ctl);
              ("power_out_B", "power_in"); ("power_out_B", ctl)] ∧
    post.*1 = [("component_sizing_margin", "power_in");
               ("component_sizing_margin", "power_rating")].
Proof.
  intros Hc ctl. subst ctl. unfold control.
  unfold compute_partials_statements, fixed_partials. cbv zeta.
  rewrite !(getitem_delete_ne _ "power_rating") by done.
  rewrite !getitem_delete_eq.
  destruct (rule_configured _ _ Hc) as [Hrule|Hrule]; rewrite Hrule.
  - rewrite !decide_True by done.
    eexists [_; _; _; _], [_; _], _. split; [reflexivity|].
    split; [reflexivity|]. done.
  - rewrite !(decide_False (P:="fixed" = "fraction")) by done.
    rewrite !decide_True by done.
    eexists [_; _; _; _], [_; _], _. split; [reflexivity|].
    split; [reflexivity|]. done.
Qed.

(** A call that stops at a statement has made the assignments before
    it, as the complete call does. *)
Lemma exec_stops `{Countable K} (show : K → string)
    (pre post post' : list (K * result (list num)))
    (k : K) (e : exn) (s0 s : gmap K (list num)) :
  exec show (pre ++ post) s0 = (s, None) →
  ∃ s1,
    exec show (pre ++ (k, Raise e) :: post') s0 = (s1, Some e) ∧
    (∀ key, key ∉ post.*1 → s1 !! key = s !! key) ∧
    (∀ key, key ∉ pre.*1 → s1 !! key = s0 !! key).
Proof.
  rewrite !exec_app. destruct (exec show pre s0) as [s1 [e1|]] eqn:E1; [done|].
  intros E2. exists s1. split; [done|]. split.
  - intros key Hkey. symmetry. by eapply exec_lookup_ne.
  - intros key Hkey. by eapply exec_lookup_ne.
Qed.
End inplace_exec.

Section inplace_calls.
Context {num : Type} `{!Arith num}.

(** On a vector of any content [compute] assigns the values that
    [evaluate] returns. *)
Lemma compute_assigns (kwargs : list (kwarg num)) (self : system num)
    (inputs outs0 : gmap string (list num)) :
  configured kwargs self → inputs_bound self inputs →
  outputs_allocated self outs0 →
  ∃ outs outs', evaluate self inputs = Ok outs ∧
    compute self inputs outs0 = Ok outs' ∧
    ∀ key, key ∈ ["power_out_A"; "power_out_B"; "heat_out"] →
      outs' !! key = outs !! key.
Proof.
  intros Hc Hb Hal.
  destruct (inputs_bound_inv _ _ _ Hc Hb) as (p & c & r & Hp & Hlp & Hr & Hk & Hlc).
  destruct (rule_configured _ _ Hc) as [Hrule|Hrule].
  - assert (Hctl : control (options self) = "power_split_fraction")
      by (unfold control; by rewrite decide_True).
    rewrite Hctl in Hk.
    eexists _, _.
    split; [exact (evaluate_fraction _ _ _ p c r Hc Hrule Hp Hr Hk Hlp Hlc)|].
    split; [exact (compute_fraction_store _ _ _ _ p c r Hc Hrule Hal Hp Hr Hk Hlp Hlc)|].
    intros key Hkey. rewrite !lookup_insert.
    repeat case_decide; try done. set_solver.
  - assert (Hctl : control (options self) = "power_split_amount").
    { unfold control. rewrite Hrule. by rewrite decide_False. }
    rewrite Hctl in Hk.
    eexists _, _.
    split; [exact (evaluate_fixed _ _ _ p c r Hc Hrule Hp Hr Hk Hlp Hlc)|].
    split; [exact (compute_fixed_store _ _ _ _ p c r Hc Hrule Hal Hp Hr Hk Hlp Hlc)|].
    intros key Hkey. rewrite !lookup_insert.
    repeat case_decide; try done. set_solver.
Qed.

Lemma compute_partials_assigns (kwargs : list (kwarg num)) (self : system num)
    (inputs : gmap string (list num)) (J0 : gmap (string * string) (list num)) :
  configured kwargs self → inputs_bound self inputs →
  jacobian_allocated self J0 →
  let ctl := control (options self) in
  ∃ J J', linearize self inputs = Ok J ∧
    compute_partials self inputs J0 = Ok J' ∧
    ∀ key, key ∈ [("power_out_A", "power_in"); ("power_out_A", ctl);
                  ("power_out_B", "power_in"); ("power_out_B", ctl)] →
      J' !! key = J !! key.
Proof.
  intros Hc Hb Hal ctl. subst ctl.
  destruct (inputs_bound_inv _ _ _ Hc Hb) as (p & c & r & Hp & Hlp & Hr & Hk & Hlc).
  destruct (rule_configured _ _ Hc) as [Hrule|Hrule].
  - assert (Hctl : control (options self) = "power_split_fraction")
      by (unfold control; by rewrite decide_True).
    rewrite Hctl in *.
    eexists _, _.
    split; [exact (linearize_fraction _ _ _ p c r Hc Hrule Hp Hr Hk Hlp Hlc)|].
    split; [exact (compute_partials_fraction_store _ _ _ _ p c r Hc Hrule Hal
                     Hp Hr Hk Hlp Hlc)|].
    intros key Hkey. rewrite !lookup_insert.
    repeat case_decide; try done. set_solver.
  - assert (Hctl : control (options self) = "power_split_amount").
    { unfold control. rewrite Hrule. by rewrite decide_False. }
    rewrite Hctl in *.
    eexists _, _.
    split; [exact (linearize_fixed _ _ _ p c r Hc Hrule Hp Hr Hk Hlp Hlc)|].
    split; [exact (compute_partials_fixed_store _ _ _ _ p c r Hc Hrule Hal
                     Hp Hr Hk Hlp Hlc)|].
    intros key Hkey. rewrite !lookup_insert.
    repeat case_decide; try done. set_solver.
Qed.

(** Without [power_in] or the control input the first right-hand side
    of [compute] raises. *)
Lemma compute_statements_without_power (kwargs : list (kwarg num))
    (self : system num) (inputs : gmap string (list num)) (m : string) :
  configured kwargs self → inputs_bound self inputs →
  m = "power_in" ∨ m = control (options self) →
  ∃ rest, compute_statements self (delete m inputs)
          = ("power_out_A", Raise (KeyError m)) :: rest.
Proof.
  intros Hc Hb Hm.
  destruct (inputs_bound_inv _ _ _ Hc Hb) as (p & c & r & Hp & Hlp & Hr & Hk & Hlc).
  destruct (control_neq (options self)) as [Hc1 Hc2].
  unfold compute_statements, fixed_split. cbv zeta.
  destruct (rule_configured _ _ Hc) as [Hrule|Hrule].
  - assert (Hctl : control (options self) = "power_split_fraction")
      by (unfold control; by rewrite decide_True).
    rewrite Hctl in *. rewrite Hrule. rewrite !decide_True by done.
    destruct Hm as [-> | ->].
    + rewrite !getitem_delete_eq. eexists. reflexivity.
    + rewrite !(getitem_delete_ne _ "power_split_fraction" "power_in") by done.
      rewrite !getitem_delete_eq, !(getitem_Some _ _ _ _ Hp).
      eexists. reflexivity.
  - assert (Hctl : control (options self) = "power_split_amount").
    { unfold control. rewrite Hrule. by rewrite decide_False. }
    rewrite Hctl in *. rewrite Hrule.
    rewrite !(decide_False (P:="fixed" = "fraction")) by done.
    rewrite !decide_True by done.
    destruct Hm as [-> | ->].
    + rewrite !getitem_delete_eq. eexists. reflexivity.
    + rewrite !(getitem_delete_ne _ "power_split_amount" "power_in") by done.
      rewrite !getitem_delete_eq, !(getitem_Some _ _ _ _ Hp).
      eexists. reflexivity.
Qed.
End inplace_calls.



(** X10. Proportional rule over the reals: with a fraction in [0, 1], an
    efficiency in [0, 1] and a non-negative power, both outputs and the
    heat lie between 0 and [power_in].  The fraction is not clamped:
    with a fraction above 1 and positive power and efficiency,
    [power_out_B] is negative and [power_out_A] exceeds [power_in *
    eta]. *)
Theorem proportional_range (kwargs : list (kwarg R)) (self : system R)
    (inputs : gmap string (list R)) :
  configured kwargs self → rule (options self) = "fraction" →
  inputs_bound self inputs →
  let eta := efficiency (options self) in
  ∃ outs, evaluate self inputs = Ok outs ∧
    ∀ i, i < num_nodes (options self) →
      ∃ p f a b h : R,
        node inputs "power_in" i = Some p ∧
        node inputs "power_split_fraction" i = Some f ∧
        node outs "power_out_A" i = Some a ∧
        node outs "power_out_B" i = Some b ∧
        node outs "heat_out" i = Some h ∧
        ((0 <= p)%R → (0 <= eta <= 1)%R → (0 <= f <= 1)%R →
           (0 <= a <= p)%R ∧ (0 <= b <= p)%R ∧ (0 <= h <= p)%R) ∧
        ((0 < p)%R → (0 < eta)%R → (1 < f)%R →
           (b < 0)%R ∧ (p * eta < a)%R).
Proof.
  intros Hc Hrule Hb eta.
  destruct (evaluate_nodes _ _ _ Hc Hb) as (outs & r & Hev & _ & _ & _ & Hn).
  exists outs. split; [done|]. intros i Hi.
  destruct (Hn i Hi) as (p & f & Hp & Hf & HA & HB & Hh & _).
  assert (Hctl : control (options self) = "power_split_fraction")
    by (unfold control; by rewrite decide_True).
  rewrite Hctl in Hf.
  unfold split_A, split_B in *. rewrite !decide_True in * by done.
  simpl in HA, HB, Hh. fold eta in HA, HB, Hh.
  exists p, f, (p * f * eta)%R, (p * (1 - f) * eta)%R, (p * (1 - eta))%R.
  do 5 (split; [done|]). split.
  - intros H0 H1 H2.
    assert (Hx : ∀ x, (0 <= x <= p)%R → (0 <= x * eta <= p)%R).
    { intros x [Hx0 Hxp].
      pose proof (Rmult_le_pos _ _ Hx0 (proj1 H1)).
      pose proof (Rmult_le_compat_l x eta 1 Hx0 (proj2 H1)). lra. }
    assert (Hpf : (0 <= p * f <= p)%R).
    { pose proof (Rmult_le_pos _ _ H0 (proj1 H2)).
      pose proof (Rmult_le_compat_l p f 1 H0 (proj2 H2)). lra. }
    assert (Hpg : (0 <= p * (1 - f) <= p)%R) by lra.
    assert (Hpe : (0 <= p * (1 - eta) <= p)%R).
    { pose proof (Rmult_le_pos _ _ H0 (proj1 H1)).
      pose proof (Rmult_le_compat_l p eta 1 H0 (proj2 H1)). lra. }
    split; [apply (Hx _ Hpf)|]. split; [apply (Hx _ Hpg)|]. exact Hpe.
  - intros H0 H1 H2.
    assert (Hpe : (0 < p * eta)%R) by (by apply Rmult_lt_0_compat).
    assert (Hf1 : (0 < (f - 1) * (p * eta))%R)
      by (apply Rmult_lt_0_compat; lra).
    split; lra.
Qed.

Lemma proportional_range_witness :
  configured (num:=R) fraction_kwargs (component_of fraction_kwargs) ∧
  rule (options (component_of (num:=R) fraction_kwargs)) = "fraction" ∧
  inputs_bound (num:=R) (component_of fraction_kwargs) fraction_inputs ∧
  let self := component_of (num:=R) fraction_kwargs in
  let inputs := fraction_inputs in
  let eta := efficiency (options self) in
  ∃ outs, evaluate self inputs = Ok outs ∧
    ∀ i, i < num_nodes (options self) →
      ∃ p f a b h : R,
        node inputs "power_in" i = Some p ∧
        node inputs "power_split_fraction" i = Some f ∧
        node outs "power_out_A" i = Some a ∧
        node outs "power_out_B" i = Some b ∧
        node outs "heat_out" i = Some h ∧
        ((0 <= p)%R → (0 <= eta <= 1)%R → (0 <= f <= 1)%R →
           (0 <= a <= p)%R ∧ (0 <= b <= p)%R ∧ (0 <= h <= p)%R) ∧
        ((0 < p)%R → (0 < eta)%R → (1 < f)%R →
           (b < 0)%R ∧ (p * eta < a)%R).
Proof.
  assert (Hc : configured (num:=R) fraction_kwargs (component_of fraction_kwargs))
    by (apply configured_component_of; left; reflexivity).
  assert (Hr : rule (options (component_of (num:=R) fraction_kwargs)) = "fraction")
    by reflexivity.
  assert (Hb : inputs_bound (num:=R) (component_of fraction_kwargs) fraction_inputs)
    by (apply (bool_decide_unpack _); vm_compute; reflexivity).
  split; [exact Hc|]. split; [exact Hr|]. split; [exact Hb|].
  exact (proportional_range _ _ _ Hc Hr Hb).
Defined.

(** X11. Proportional rule over the reals: replacing every fraction [f]
    by [1 - f] exchanges [power_out_A] and [power_out_B] and leaves the
    heat unchanged. *)
Theorem proportional_swap (kwargs : list (kwarg R)) (self : system R)
    (inputs : gmap string (list R)) :
  configured kwargs self → rule (options self) = "fraction" →
  inputs_bound self inputs →
  ∃ outs outs',
    evaluate self inputs = Ok outs ∧
    evaluate self (swap_fraction inputs) = Ok outs' ∧
    ∀ i, i < num_nodes (options self) →
      node outs' "power_out_A" i = node outs "power_out_B" i ∧
      node outs' "power_out_B" i = node outs "power_out_A" i ∧
      node outs' "heat_out" i = node outs "heat_out" i.
Proof.
  intros Hc Hrule Hb.
  assert (Hctl : control (options self) = "power_split_fraction")
    by (unfold control; by rewrite decide_True).
  assert (Hb' : inputs_bound self (swap_fraction inputs)).
  { intros name m Hm. specialize (Hb name m Hm). simpl in *.
    unfold swap_fraction.
    destruct (decide ("power_split_fraction" = name)) as [<-|Hne].
    - rewrite lookup_alter_eq. destruct (inputs !! _); simpl in *; [|done].
      unfold s_sub. by rewrite length_fmap.
    - by rewrite lookup_alter_ne. }
  destruct (evaluate_nodes _ _ _ Hc Hb) as (outs & r & Hev & Hr & _ & _ & Hn).
  destruct (evaluate_nodes _ _ _ Hc Hb') as (outs' & r' & Hev' & _ & _ & _ & _).
  exists outs, outs'. do 2 (split; [done|]). intros i Hi.
  destruct (Hn i Hi) as (p & f & Hp & Hf & HA & HB & Hh & _).
  rewrite Hctl in Hf.
  assert (Hp' : node (swap_fraction inputs) "power_in" i = Some p).
  { unfold node, swap_fraction in *. by rewrite lookup_alter_ne. }
  assert (Hf' : node (swap_fraction inputs) (control (options self)) i
                = Some (1 - f)%R).
  { rewrite Hctl. unfold node, swap_fraction in *. rewrite lookup_alter_eq.
    destruct (inputs !! "power_split_fraction") as [a|]; simpl in *; [|done].
    unfold s_sub. by rewrite list_lookup_fmap, Hf. }
  assert (Hr' : swap_fraction inputs !! "power_rating" = Some [r]).
  { unfold swap_fraction. by rewrite lookup_alter_ne. }
  destruct (evaluate_node_values _ _ _ i p (1 - f)%R r Hc Hb' Hp' Hf' Hr')
    as (o' & E' & HA' & HB' & Hh' & _).
  assert (o' = outs') as -> by congruence.
  rewrite HA, HB, Hh, HA', HB', Hh'.
  unfold split_A, split_B. rewrite !decide_True by done. simpl.
  repeat split; f_equal; ring.
Qed.

Lemma proportional_swap_witness :
  configured (num:=R) fraction_kwargs (component_of fraction_kwargs) ∧
  rule (options (component_of (num:=R) fraction_kwargs)) = "fraction" ∧
  inputs_bound (num:=R) (component_of fraction_kwargs) fraction_inputs ∧
  let self := component_of (num:=R) fraction_kwargs in
  let inputs := fraction_inputs in
  ∃ outs outs',
    evaluate self inputs = Ok outs ∧
    evaluate self (swap_fraction inputs) = Ok outs' ∧
    ∀ i, i < num_nodes (options self) →
      node outs' "power_out_A" i = node outs "power_out_B" i ∧
      node outs' "power_out_B" i = node outs "power_out_A" i ∧
      node outs' "heat_out" i = node outs "heat_out" i.
Proof.
  assert (Hc : configured (num:=R) fraction_kwargs (component_of fraction_kwargs))
    by (apply configured_component_of; left; reflexivity).
  assert (Hr : rule (options (component_of (num:=R) fraction_kwargs)) = "fraction")
    by reflexivity.
  assert (Hb : inputs_bound (num:=R) (component_of fraction_kwargs) fraction_inputs)
    by (apply (bool_decide_unpack _); vm_compute; reflexivity).
  split; [exact Hc|]. split; [exact Hr|]. split; [exact Hb|].
  exact (proportional_swap _ _ _ Hc Hr Hb).
Defined.

(** The node-wise split functions are homogeneous in the powers. *)
Lemma split_scale_R (o : Options R) (k p c : R) :
  rule o = "fraction" ∨ rule o = "fixed" → (0 <= k)%R →
  let c' := if decide (rule o = "fixed") then (k * c)%R else c in
  split_A o (k * p)%R c' = (k * split_A o p c)%R ∧
  split_B o (k * p)%R c' = (k * split_B o p c)%R.
Proof.
  intros [Hr|Hr] Hk c'; subst c'.
  - rewrite Hr. rewrite decide_False by done. unfold split_A, split_B.
    rewrite !decide_True by done. simpl. split; ring.
  - rewrite decide_True by done.
    destruct (split_fixed_R o p c Hr) as [Hlt Hge].
    destruct (split_fixed_R o (k * p) (k * c) Hr) as [Hlt' Hge'].
    destruct (Rlt_dec p c) as [H|H].
    + destruct (Hlt H) as [-> ->].
      destruct (Req_dec k 0) as [->|Hk0].
      * destruct Hge' as [-> ->]; [lra|]. split; ring.
      * destruct Hlt' as [-> ->]; [nra|]. split; ring.
    + destruct (Hge H) as [-> ->].
      destruct Hge' as [-> ->]; [nra|]. split; ring.
Qed.

(** X12. Over the reals the split does not depend on the unit of power:
    multiplying [power_in] and, under the fixed-amount rule,
    [power_split_amount] by a factor [k >= 0] multiplies [power_out_A],
    [power_out_B] and [heat_out] by [k] at every node. *)
Theorem powers_scale (kwargs : list (kwarg R)) (self : system R)
    (inputs : gmap string (list R)) (k : R) :
  configured kwargs self → inputs_bound self inputs → (0 <= k)%R →
  ∃ outs outs',
    evaluate self inputs = Ok outs ∧
    evaluate self (scale_powers (options self) k inputs) = Ok outs' ∧
    ∀ i, i < num_nodes (options self) →
      ∃ a b h : R,
        node outs "power_out_A" i = Some a ∧
        node outs "power_out_B" i = Some b ∧
        node outs "heat_out" i = Some h ∧
        node outs' "power_out_A" i = Some (k * a)%R ∧
        node outs' "power_out_B" i = Some (k * b)%R ∧
        node outs' "heat_out" i = Some (k * h)%R.
Proof.
  intros Hc Hb Hk.
  set (o := options self).
  assert (Hb' : inputs_bound self (scale_powers o k inputs)).
  { unfold scale_powers. apply inputs_bound_scale_input.
    case_decide; [by apply inputs_bound_scale_input|done]. }
  destruct (control_neq o) as [Hc1 Hc2].
  destruct (evaluate_nodes _ _ _ Hc Hb) as (outs & r & Hev & Hr & _ & _ & Hn).
  destruct (evaluate_nodes _ _ _ Hc Hb') as (outs' & r' & Hev' & _ & _ & _ & _).
  exists outs, outs'. do 2 (split; [done|]). intros i Hi.
  destruct (Hn i Hi) as (p & c & Hp & Hc' & HA & HB & Hh & _). fold o in Hc', HA, HB, Hh.
  pose proof (rule_configured _ _ Hc) as Hrule. fold o in Hrule.
  set (c' := if decide (rule o = "fixed") then (k * c)%R else c).
  assert (Hp' : node (scale_powers o k inputs) "power_in" i = Some (k * p)%R).
  { unfold scale_powers. rewrite node_scale_input_eq.
    case_decide; [rewrite node_scale_input_ne by done|]; by rewrite Hp. }
  assert (Hk' : node (scale_powers o k inputs) (control o) i = Some c').
  { unfold scale_powers. rewrite node_scale_input_ne by done. subst c'.
    case_decide as Hfx.
    - assert (control o = "power_split_amount") as Hctl.
      { unfold control. rewrite Hfx. by rewrite decide_False. }
      rewrite Hctl in *. rewrite node_scale_input_eq. by rewrite Hc'.
    - done. }
  assert (Hr' : scale_powers o k inputs !! "power_rating" = Some [r]).
  { unfold scale_powers. rewrite lookup_scale_input_ne by done.
    case_decide; [rewrite lookup_scale_input_ne by done|]; done. }
  destruct (evaluate_node_values _ _ _ i (k * p)%R c' r Hc Hb' Hp' Hk' Hr')
    as (o' & E' & HA' & HB' & Hh' & _).
  assert (o' = outs') as -> by congruence. fold o in HA', HB', Hh'.
  destruct (split_scale_R o k p c Hrule Hk) as [EA EB]. fold c' in EA, EB.
  exists (split_A o p c), (split_B o p c), (p * (1 - efficiency o))%R.
  do 3 (split; [done|]).
  rewrite HA', HB', Hh', EA, EB. repeat split. simpl. f_equal. ring.
Qed.

Lemma powers_scale_witness :
  configured (num:=R) fixed_kwargs (component_of fixed_kwargs) ∧
  inputs_bound (num:=R) (component_of fixed_kwargs) fixed_inputs ∧
  (0 <= 1000)%R ∧
  let self := component_of (num:=R) fixed_kwargs in
  let inputs := fixed_inputs in
  let k := 1000%R in
  ∃ outs outs',
    evaluate self inputs = Ok outs ∧
    evaluate self (scale_powers (options self) k inputs) = Ok outs' ∧
    ∀ i, i < num_nodes (options self) →
      ∃ a b h : R,
        node outs "power_out_A" i = Some a ∧
        node outs "power_out_B" i = Some b ∧
        node outs "heat_out" i = Some h ∧
        node outs' "power_out_A" i = Some (k * a)%R ∧
        node outs' "power_out_B" i = Some (k * b)%R ∧
        node outs' "heat_out" i = Some (k * h)%R.
Proof.
  assert (Hc : configured (num:=R) fixed_kwargs (component_of fixed_kwargs))
    by (apply configured_component_of; right; reflexivity).
  assert (Hb : inputs_bound (num:=R) (component_of fixed_kwargs) fixed_inputs)
    by (apply (bool_decide_unpack _); vm_compute; reflexivity).
  assert (Hk : (0 <= 1000)%R) by lra.
  split; [exact Hc|]. split; [exact Hb|]. split; [exact Hk|].
  exact (powers_scale _ _ _ 1000%R Hc Hb Hk).
Defined.

(** ** Defaults, NaN and continuity *)

(** X13. Defaults of [initialize]: a splitter built with no keyword
    argument has one node and the proportional rule, takes
    [power_split_fraction] as control, and over the reals it is
    lossless and free: A and B are [p * f] and [p * (1 - f)], and the
    heat, the cost and the weight are zero. *)
Theorem default_component (self : system R) (inputs : gmap string (list R)) :
  configured [] self → inputs_bound self inputs →
  num_nodes (options self) = 1 ∧
  dom (var_inputs self) = {["power_in"; "power_rating"; "power_split_fraction"]} ∧
  ∃ outs (p f r : R),
    inputs !! "power_in" = Some [p] ∧
    inputs !! "power_split_fraction" = Some [f] ∧
    inputs !! "power_rating" = Some [r] ∧
    evaluate self inputs = Ok outs ∧
    outs !! "power_out_A" = Some [(p * f)%R] ∧
    outs !! "power_out_B" = Some [(p * (1 - f))%R] ∧
    outs !! "heat_out" = Some [0%R] ∧
    outs !! "component_cost" = Some [0%R] ∧
    outs !! "component_weight" = Some [0%R].
Proof.
  intros Hc Hb.
  pose proof (options_configured _ _ Hc) as Ho. simpl in Ho.
  assert (Hctl : control (options self) = "power_split_fraction")
    by (rewrite Ho; reflexivity).
  split; [by rewrite Ho|]. split.
  { rewrite (var_inputs_configured _ _ Hc). cbv zeta. rewrite Hctl.
    rewrite !dom_insert_L, dom_empty_L. set_solver. }
  destruct (inputs_bound_inv _ _ _ Hc Hb) as (pa & ca & r & Hp & Hlp & Hr & Hk & Hlc).
  rewrite Hctl in Hk. rewrite Ho in Hlp, Hlc. simpl in Hlp, Hlc.
  destruct pa as [|p [|??]]; try done. destruct ca as [|f [|??]]; try done.
  eexists _, p, f, r. do 3 (split; [done|]).
  split.
  { eapply evaluate_fraction; [exact Hc|by rewrite Ho|done..|by rewrite Ho|by rewrite Ho]. }
  rewrite Ho. cbv zeta.
  rewrite lookup_insert_ne, lookup_insert_ne, lookup_insert_ne, lookup_insert_ne,
    lookup_insert_ne, lookup_insert_eq by done.
  rewrite lookup_insert_ne, lookup_insert_ne, lookup_insert_ne, lookup_insert_ne,
    lookup_insert_eq by done.
  rewrite lookup_insert_ne, lookup_insert_ne, lookup_insert_ne,
    lookup_insert_eq by done.
  rewrite lookup_insert_ne, lookup_insert_ne, lookup_insert_eq by done.
  rewrite lookup_insert_ne, lookup_insert_eq by done.
  repeat split; simpl; do 2 f_equal; unfold fone, fzero; simpl; ring.
Qed.

Lemma default_component_witness :
  configured (num:=R) [] (component_of []) ∧
  inputs_bound (num:=R) (component_of []) fraction_inputs ∧
  let self := component_of (num:=R) [] in
  let inputs := fraction_inputs in
  num_nodes (options self) = 1 ∧
  dom (var_inputs self) = {["power_in"; "power_rating"; "power_split_fraction"]} ∧
  ∃ outs (p f r : R),
    inputs !! "power_in" = Some [p] ∧
    inputs !! "power_split_fraction" = Some [f] ∧
    inputs !! "power_rating" = Some [r] ∧
    evaluate self inputs = Ok outs ∧
    outs !! "power_out_A" = Some [(p * f)%R] ∧
    outs !! "power_out_B" = Some [(p * (1 - f))%R] ∧
    outs !! "heat_out" = Some [0%R] ∧
    outs !! "component_cost" = Some [0%R] ∧
    outs !! "component_weight" = Some [0%R].
Proof.
  assert (Hc : configured (num:=R) [] (component_of []))
    by (apply configured_component_of; left; reflexivity).
  assert (Hb : inputs_bound (num:=R) (component_of []) fraction_inputs)
    by (apply (bool_decide_unpack _); vm_compute; reflexivity).
  split; [exact Hc|]. split; [exact Hb|].
  exact (default_component _ _ Hc Hb).
Defined.

(** X14. Fixed-amount rule in binary64: at a node where [power_in] or
    [power_split_amount] is NaN both comparisons are false, so neither
    index set contains the node and the zeros of [np.zeros] stay:
    [power_out_A], [power_out_B] and their four partials are zero
    there, not NaN. *)
Theorem fixed_amount_nan (kwargs : list (kwarg f64)) (self : system f64)
    (inputs : gmap string (list f64)) (i : nat) (p s : f64) :
  configured kwargs self → rule (options self) = "fixed" →
  inputs_bound self inputs →
  node inputs "power_in" i = Some p →
  node inputs "power_split_amount" i = Some s →
  p = S754_nan ∨ s = S754_nan →
  ∃ outs J,
    evaluate self inputs = Ok outs ∧
    linearize self inputs = Ok J ∧
    node outs "power_out_A" i = Some fzero ∧
    node outs "power_out_B" i = Some fzero ∧
    node J ("power_out_A", "power_in") i = Some fzero ∧
    node J ("power_out_A", "power_split_amount") i = Some fzero ∧
    node J ("power_out_B", "power_in") i = Some fzero ∧
    node J ("power_out_B", "power_split_amount") i = Some fzero.
Proof.
  intros Hc Hrule Hb Hp Hs Hnan.
  assert (Hctl : control (options self) = "power_split_amount").
  { unfold control. rewrite Hrule. by rewrite decide_False. }
  destruct (inputs_bound_inv _ _ _ Hc Hb) as (pa & ca & r & _ & _ & Hr & _).
  rewrite <-Hctl in Hs.
  destruct (evaluate_node_values _ _ _ i p s r Hc Hb Hp Hs Hr)
    as (outs & E & HA & HB & _).
  destruct (linearize_node_values _ _ _ i p s r Hc Hb Hp Hs Hr)
    as (J & EJ & H1 & H2 & H3 & H4 & _).
  rewrite Hctl in H2, H4.
  exists outs, J. do 2 (split; [done|]).
  rewrite HA, HB, H1, H2, H3, H4.
  unfold split_A, split_B, dA_dp, dA_dc, dB_dp, dB_dc.
  rewrite Hrule. rewrite !decide_False by done.
  assert (Hge : fge p s = false).
  { destruct Hnan as [->| ->]; [by destruct s|by destruct p]. }
  assert (Hlt : flt p s = false).
  { destruct Hnan as [->| ->]; [by destruct s|by destruct p]. }
  rewrite Hge, Hlt. done.
Qed.

Lemma fixed_amount_nan_witness :
  configured (num:=f64) fixed_kwargs (component_of fixed_kwargs) ∧
  rule (options (component_of (num:=f64) fixed_kwargs)) = "fixed" ∧
  inputs_bound (num:=f64) (component_of fixed_kwargs)
    (set_node fixed_inputs "power_in" 1 S754_nan) ∧
  node (set_node (num:=f64) fixed_inputs "power_in" 1 S754_nan) "power_in" 1
    = Some S754_nan ∧
  node (set_node (num:=f64) fixed_inputs "power_in" 1 S754_nan)
    "power_split_amount" 1 = Some (of_Z 80) ∧
  (S754_nan = S754_nan ∨ of_Z (num:=f64) 80 = S754_nan) ∧
  let self := component_of (num:=f64) fixed_kwargs in
  let inputs := set_node (num:=f64) fixed_inputs "power_in" 1 S754_nan in
  let i := 1 in
  ∃ outs J,
    evaluate self inputs = Ok outs ∧
    linearize self inputs = Ok J ∧
    node outs "power_out_A" i = Some fzero ∧
    node outs "power_out_B" i = Some fzero ∧
    node J ("power_out_A", "power_in") i = Some fzero ∧
    node J ("power_out_A", "power_split_amount") i = Some fzero ∧
    node J ("power_out_B", "power_in") i = Some fzero ∧
    node J ("power_out_B", "power_split_amount") i = Some fzero.
Proof.
  assert (Hc : configured (num:=f64) fixed_kwargs (component_of fixed_kwargs))
    by (apply configured_component_of; right; reflexivity).
  assert (Hr : rule (options (component_of (num:=f64) fixed_kwargs)) = "fixed")
    by reflexivity.
  assert (Hb : inputs_bound (num:=f64) (component_of fixed_kwargs)
                 (set_node fixed_inputs "power_in" 1 S754_nan))
    by (apply (bool_decide_unpack _); vm_compute; reflexivity).
  assert (Hp : node (set_node (num:=f64) fixed_inputs "power_in" 1 S754_nan)
                 "power_in" 1 = Some S754_nan) by (vm_compute; reflexivity).
  assert (Hs : node (set_node (num:=f64) fixed_inputs "power_in" 1 S754_nan)
                 "power_split_amount" 1 = Some (of_Z 80))
    by (vm_compute; reflexivity).
  assert (Hn : S754_nan = S754_nan ∨ of_Z (num:=f64) 80 = S754_nan)
    by (left; reflexivity).
  split; [exact Hc|]. split; [exact Hr|]. split; [exact Hb|].
  split; [exact Hp|]. split; [exact Hs|]. split; [exact Hn|].
  exact (fixed_amount_nan _ _ _ 1 S754_nan (of_Z 80) Hc Hr Hb Hp Hs Hn).
Defined.

Lemma Rabs_scaled_le (a d e : R) :
  (Rabs a <= Rabs d)%R → (Rabs (a * e) <= Rabs e * Rabs d)%R.
Proof.
  intros H. rewrite Rabs_mult, Rmult_comm.
  apply Rmult_le_compat_l; [apply Rabs_pos|done].
Qed.

(** X15. Fixed-amount rule over the reals: as functions of [power_in]
    at a node, [power_out_A] and [power_out_B] are Lipschitz with
    constant [|efficiency|]; in particular they are continuous, also
    where [power_in] equals [power_split_amount]. *)
Theorem fixed_amount_lipschitz (kwargs : list (kwarg R)) (self : system R)
    (inputs : gmap string (list R)) (i : nat) (p s : R) :
  configured kwargs self → rule (options self) = "fixed" →
  inputs_bound self inputs →
  node inputs "power_in" i = Some p →
  node inputs "power_split_amount" i = Some s →
  ∀ x y : R,
    (Rabs (response self inputs "power_in" i "power_out_A" i x
           - response self inputs "power_in" i "power_out_A" i y)
     <= Rabs (efficiency (options self)) * Rabs (x - y))%R ∧
    (Rabs (response self inputs "power_in" i "power_out_B" i x
           - response self inputs "power_in" i "power_out_B" i y)
     <= Rabs (efficiency (options self)) * Rabs (x - y))%R.
Proof.
  intros Hc Hrule Hb Hp Hs x y.
  assert (Hctl : control (options self) = "power_split_amount").
  { unfold control. rewrite Hrule. by rewrite decide_False. }
  destruct (inputs_bound_inv _ _ _ Hc Hb) as (pa & ca & r & _ & _ & Hr & _).
  rewrite <-Hctl in Hs.
  destruct (response_power_in _ _ _ i p s r x Hc Hb Hp Hs Hr) as (-> & -> & _).
  destruct (response_power_in _ _ _ i p s r y Hc Hb Hp Hs Hr) as (-> & -> & _).
  set (e := efficiency (options self)).
  destruct (split_fixed_R (options self) x s Hrule) as [Hx1 Hx2].
  destruct (split_fixed_R (options self) y s Hrule) as [Hy1 Hy2].
  fold e in Hx1, Hx2, Hy1, Hy2.
  destruct (Rlt_dec x s) as [Lx|Lx]; [destruct (Hx1 Lx) as [-> ->]|destruct (Hx2 Lx) as [-> ->]];
  (destruct (Rlt_dec y s) as [Ly|Ly]; [destruct (Hy1 Ly) as [-> ->]|destruct (Hy2 Ly) as [-> ->]]).
  - split.
    + replace (x * e - y * e)%R with ((x - y) * e)%R by ring.
      apply Rabs_scaled_le. lra.
    + replace (0 - 0)%R with (0 * e)%R by ring.
      apply Rabs_scaled_le. rewrite Rabs_R0. apply Rabs_pos.
  - split.
    + replace (x * e - s * e)%R with ((x - s) * e)%R by ring.
      apply Rabs_scaled_le. unfold Rabs. repeat destruct Rcase_abs; lra.
    + replace (0 - (y - s) * e)%R with ((s - y) * e)%R by ring.
      apply Rabs_scaled_le. unfold Rabs. repeat destruct Rcase_abs; lra.
  - split.
    + replace (s * e - y * e)%R with ((s - y) * e)%R by ring.
      apply Rabs_scaled_le. unfold Rabs. repeat destruct Rcase_abs; lra.
    + replace ((x - s) * e - 0)%R with ((x - s) * e)%R by ring.
      apply Rabs_scaled_le. unfold Rabs. repeat destruct Rcase_abs; lra.
  - split.
    + replace (s * e - s * e)%R with (0 * e)%R by ring.
      apply Rabs_scaled_le. rewrite Rabs_R0. apply Rabs_pos.
    + replace ((x - s) * e - (y - s) * e)%R with ((x - y) * e)%R by ring.
      apply Rabs_scaled_le. lra.
Qed.

Lemma fixed_amount_lipschitz_witness :
  configured (num:=R) fixed_kwargs (component_of fixed_kwargs) ∧
  rule (options (component_of (num:=R) fixed_kwargs)) = "fixed" ∧
  inputs_bound (num:=R) (component_of fixed_kwargs) fixed_inputs ∧
  node (num:=R) fixed_inputs "power_in" 2 = Some (of_Z 40) ∧
  node (num:=R) fixed_inputs "power_split_amount" 2 = Some (of_Z 40) ∧
  let self := component_of (num:=R) fixed_kwargs in
  let inputs := fixed_inputs in
  let i := 2 in
  ∀ x y : R,
    (Rabs (response self inputs "power_in" i "power_out_A" i x
           - response self inputs "power_in" i "power_out_A" i y)
     <= Rabs (efficiency (options self)) * Rabs (x - y))%R ∧
    (Rabs (response self inputs "power_in" i "power_out_B" i x
           - response self inputs "power_in" i "power_out_B" i y)
     <= Rabs (efficiency (options self)) * Rabs (x - y))%R.
Proof.
  assert (Hc : configured (num:=R) fixed_kwargs (component_of fixed_kwargs))
    by (apply configured_component_of; right; reflexivity).
  assert (Hr : rule (options (component_of (num:=R) fixed_kwargs)) = "fixed")
    by reflexivity.
  assert (Hb : inputs_bound (num:=R) (component_of fixed_kwargs) fixed_inputs)
    by (apply (bool_decide_unpack _); vm_compute; reflexivity).
  assert (Hp : node (num:=R) fixed_inputs "power_in" 2 = Some (of_Z 40))
    by reflexivity.
  assert (Hs : node (num:=R) fixed_inputs "power_split_amount" 2 = Some (of_Z 40))
    by reflexivity.
  split; [exact Hc|]. split; [exact Hr|]. split; [exact Hb|].
  split; [exact Hp|]. split; [exact Hs|].
  exact (fixed_amount_lipschitz _ _ _ 2 (of_Z 40) (of_Z 40) Hc Hr Hb Hp Hs).
Defined.
